(** * Galois/Counter Mode (GCM): a shallow embedding of src/crypto/gcm.c

    Memory is modelled as lists of bytes ([Z] values in [0, 256)); a
    [union gcm_block] is such a list of 16 bytes, and its [word], [dword],
    [len] and [ctr] views are slices of that list.  The three file-scope
    statics ([gcm_cached_key], [gcm_cached_mult], [gcm_cached_reduce]) are
    threaded explicitly through every function that touches them. *)

From Stdlib Require Import ZArith Lia List Bool.
From stdpp Require Import base numbers list.

Local Open Scope Z_scope.

(** ** Machine integers and byte order *)

(** Conversion to [uint8_t], [uint32_t], [uint64_t] and [size_t]
    (a 64-bit [size_t] is assumed). *)
Definition u8 (x : Z) : Z := x mod 2 ^ 8.
Definition u32 (x : Z) : Z := x mod 2 ^ 32.
Definition u64 (x : Z) : Z := x mod 2 ^ 64.
Definition size_t (x : Z) : Z := x mod 2 ^ 64.

(** Big-endian reading of a run of bytes, and the big-endian bytes of a
    value.  A field loaded from memory and passed through [be32_to_cpu]
    (or [be16], [be64]) is the big-endian reading of its bytes on a host
    of either byte order; a value passed through [cpu_to_be32] and stored
    leaves its big-endian bytes in memory. *)
Definition be_decode (bs : list Z) : Z :=
  fold_left (fun acc b => acc * 256 + b) bs 0.

Fixpoint be_encode (n : nat) (v : Z) : list Z :=
  match n with
  | O => []
  | S n' => (v / 256 ^ Z.of_nat n') mod 256 :: be_encode n' v
  end.

Definition be32_to_cpu (mem : list Z) : Z := be_decode (take 4 mem).
Definition cpu_to_be32 (v : Z) : list Z := be_encode 4 v.
Definition cpu_to_be64 (v : Z) : list Z := be_encode 8 v.

(** ** Blocks *)

(** [union gcm_block]: 16 bytes. *)
Definition gcm_block := list Z.

Definition is_byte (b : Z) : Prop := 0 <= b < 256.

Definition wf_bytes (bs : list Z) : Prop := Forall is_byte bs.

Definition wf_block (b : gcm_block) : Prop :=
  length b = 16%nat /\ wf_bytes b.

Definition zero_block : gcm_block := replicate 16 0.

(** GCM field polynomial *)
Definition GCM_POLY : Z := 0xe1.

(** Addresses; only their identity matters. *)
Definition ptr := Z.

(** ** Static state *)

(** The statics live in .bss: a null key pointer and all-zero tables.
    An entry of [gcm_cached_reduce] is recorded by the big-endian reading
    of its two bytes in memory. *)
Record gcm_statics := mk_statics {
  gcm_cached_key : option ptr;
  gcm_cached_mult : list gcm_block;
  gcm_cached_reduce : list Z
}.

Definition gcm_statics_bss : gcm_statics :=
  {| gcm_cached_key := None;
     gcm_cached_mult := replicate 256 zero_block;
     gcm_cached_reduce := replicate 256 0 |}.

(** ** Static helpers *)

(** [gcm_reverse]: the local [etyb] starts out indeterminate
    ([uint8_t etyb = etyb]); [gcm_reverse_from] takes that starting value.
    [mask] runs through 1, 2, 4, ..., 128 and then wraps to zero. *)
Definition gcm_reverse_masks : list Z := [1; 2; 4; 8; 16; 32; 64; 128].

Definition gcm_reverse_from (etyb0 : Z) (byte : Z) : Z :=
  fold_left
    (fun etyb mask =>
       let etyb := u8 (Z.shiftl etyb 1) in
       if Z.land byte mask =? 0 then etyb else Z.lor etyb 1)
    gcm_reverse_masks etyb0.

Definition gcm_reverse (byte : Z) : Z := gcm_reverse_from 0 byte.

(** [gcm_count]: the counter field is the last four bytes of the block. *)
Definition gcm_count (ctr : gcm_block) (delta : Z) : gcm_block :=
  let value := drop 12 ctr in
  take 12 ctr ++ cpu_to_be32 (u32 (be32_to_cpu value + delta)).

(** [gcm_xor]: the [len] bytes written to [dst]. *)
Definition gcm_xor (src1 src2 : list Z) (len : nat) : list Z :=
  zip_with Z.lxor (take len src1) (take len src2).

(** [gcm_xor_block]: the new contents of [dst].  The four dword XORs act
    on the bytes of each dword independently of the host byte order. *)
Definition gcm_xor_block (src dst : gcm_block) : gcm_block :=
  zip_with Z.lxor (take 16 dst) (take 16 src).

(** [gcm_multiply_x]: the loop over [i = 0 .. 15], threading [carry]. *)
Fixpoint gcm_multiply_x_loop (mult : list Z) (carry : Z) : list Z * Z :=
  match mult with
  | [] => ([], carry)
  | byte :: rest =>
      let r := u8 (Z.lor (Z.shiftl carry 7) (Z.shiftr byte 1)) in
      let '(res, carry') := gcm_multiply_x_loop rest (Z.land byte 0x01) in
      (r :: res, carry')
  end.

Definition gcm_multiply_x (mult : gcm_block) : gcm_block :=
  let '(res, carry) := gcm_multiply_x_loop (take 16 mult) 0 in
  if carry =? 0 then res
  else match res with
       | [] => []
       | b0 :: rest => Z.lxor b0 GCM_POLY :: rest
       end.

(** [gcm_cache]: one iteration of the loop body, for index [i]. *)
Definition gcm_cache_entry (key : gcm_block)
    (tabs : list gcm_block * list Z) (i : nat) : list gcm_block * list Z :=
  let '(mult, reduce) := tabs in
  let this := gcm_reverse (Z.of_nat i) in
  if Z.land this 0x80 =? 0 then
    (* Even number: entry[i] = entry[i/2] * (x) *)
    let other := Z.shiftl this 1 in
    (<[Z.to_nat this := gcm_multiply_x (mult !!! Z.to_nat other)]> mult,
     <[Z.to_nat this := Z.shiftr (reduce !!! Z.to_nat other) 1]> reduce)
  else
    (* Odd number: entry[i] = entry[i - 1] + poly *)
    let other := Z.land this 0x7f in
    (<[Z.to_nat this := gcm_xor key (mult !!! Z.to_nat other) 16]> mult,
     <[Z.to_nat this :=
         Z.lxor (reduce !!! Z.to_nat other) (Z.shiftl GCM_POLY 8)]> reduce).

Definition gcm_cache (keyp : ptr) (key : gcm_block) (g : gcm_statics)
    : gcm_statics :=
  let '(mult, reduce) :=
    fold_left (gcm_cache_entry key) (seq 1 255)
      (gcm_cached_mult g, gcm_cached_reduce g) in
  {| gcm_cached_key := Some keyp;
     gcm_cached_mult := mult;
     gcm_cached_reduce := reduce |}.

(** [gcm_multiply_x_8]: bytes move up by one place, byte 0 becomes zero,
    and the reduction entry for the old last byte is XORed into word 0. *)
Definition gcm_multiply_x_8 (g : gcm_statics) (poly : gcm_block) : gcm_block :=
  let msb := poly !!! 15%nat in
  let shifted := 0 :: take 15 poly in
  let r := gcm_cached_reduce g !!! Z.to_nat msb in
  zip_with Z.lxor (take 2 shifted) (be_encode 2 r) ++ drop 2 shifted.

(** [gcm_multiply_key] *)
Definition gcm_multiply_key (keyp : ptr) (key : gcm_block) (poly : gcm_block)
    (g : gcm_statics) : gcm_block * gcm_statics :=
  let g := if decide (gcm_cached_key g = Some keyp) then g
           else gcm_cache keyp key g in
  let res := gcm_cached_mult g !!! Z.to_nat (poly !!! 15%nat) in
  let res :=
    fold_left
      (fun res byte =>
         gcm_xor_block (gcm_cached_mult g !!! Z.to_nat byte)
           (gcm_multiply_x_8 g res))
      (rev (take 15 poly)) res in
  (res, g).

(** ** The underlying cipher *)

(** [struct cipher_algorithm], reduced to the two methods GCM calls.
    [setkey] returns the status code and the contents it leaves in the
    cipher context; [encrypt] is called on one 16-byte block at a time. *)
Record cipher_algorithm := mk_cipher {
  setkey : list Z -> Z * list Z;
  encrypt : list Z -> gcm_block -> gcm_block
}.

Definition cipher_setkey (cipher : cipher_algorithm) (k : list Z)
    : Z * list Z := setkey cipher k.
Definition cipher_encrypt (cipher : cipher_algorithm) (ctx : list Z)
    (src : gcm_block) : gcm_block := encrypt cipher ctx src.

(** ** Context *)

(** [struct gcm_lengths], held in host representation inside the context. *)
Record gcm_lengths := mk_lengths { add : Z; data : Z }.

(** [struct gcm_context] *)
Record gcm_context := mk_context {
  hash : gcm_block;
  len : gcm_lengths;
  ctr : gcm_block;
  key : gcm_block;
  raw_cipher : cipher_algorithm;
  raw_ctx : list Z
}.

(** [&context->key]: the key is the fourth block of the context, as the
    layout assertions in [gcm_setiv] require. *)
Definition key_addr (context : ptr) : ptr := context + 3 * 16.

Definition set_hash (c : gcm_context) (h : gcm_block) : gcm_context :=
  mk_context h (len c) (ctr c) (key c) (raw_cipher c) (raw_ctx c).
Definition set_len (c : gcm_context) (l : gcm_lengths) : gcm_context :=
  mk_context (hash c) l (ctr c) (key c) (raw_cipher c) (raw_ctx c).
Definition set_ctr (c : gcm_context) (y : gcm_block) : gcm_context :=
  mk_context (hash c) (len c) y (key c) (raw_cipher c) (raw_ctx c).

(** ** Processing *)

(** Where the [hash] argument of [gcm_process] points: at the output
    buffer [dst] (which may be the input buffer as well, when a caller
    works in place), or at an input buffer that is only read. *)
Inductive hash_ptr :=
| hash_is_dst
| hash_input (buf : list Z).

Definition hash_advance (frag_len : nat) (hsrc : hash_ptr) : hash_ptr :=
  match hsrc with
  | hash_is_dst => hash_is_dst
  | hash_input buf => hash_input (drop frag_len buf)
  end.

(** One iteration of the loop of [gcm_process], on a fragment of
    [frag_len] bytes: the context and statics afterwards, and the bytes
    written to the output buffer. *)
Definition gcm_process_frag (context : ptr) (c : gcm_context)
    (src : option (list Z)) (dst : bool) (hsrc : hash_ptr) (frag_len : nat)
    (g : gcm_statics) : gcm_context * list Z * gcm_statics :=
  (* Encrypt/decrypt block, if applicable *)
  let '(c, written) :=
    if dst then
      (* Increment counter *)
      let c := set_ctr c (gcm_count (ctr c) 1) in
      (* Encrypt counter *)
      let tmp := cipher_encrypt (raw_cipher c) (raw_ctx c) (ctr c) in
      (* Encrypt/decrypt data *)
      (c, gcm_xor (default [] src) tmp frag_len)
    else (c, []) in
  (* Update hash *)
  let hfrag := match hsrc with
               | hash_is_dst => written
               | hash_input buf => buf
               end in
  let h := gcm_xor hfrag (hash c) frag_len ++ drop frag_len (hash c) in
  let '(h, g) := gcm_multiply_key (key_addr context) (key c) h g in
  (set_hash c h, written, g).

(** The loop of [gcm_process].  [src] holds the bytes still to be read
    ([None] for a null pointer), [dst] tells whether there is an output
    buffer, [n] is the remaining length and [out] the bytes written to the
    output buffer so far.  One unit of [fuel] is spent per iteration. *)
Fixpoint gcm_process_loop (fuel : nat) (context : ptr) (c : gcm_context)
    (src : option (list Z)) (dst : bool) (hsrc : hash_ptr) (n : nat)
    (out : list Z) (g : gcm_statics) : gcm_context * list Z * gcm_statics :=
  match fuel with
  | O => (c, out, g)
  | S fuel' =>
      if (n =? 0)%nat then (c, out, g)
      else
        (* Calculate fragment length *)
        let frag_len := if (16 <? n)%nat then 16%nat else n in
        let '(c, written, g) :=
          gcm_process_frag context c src dst hsrc frag_len g in
        let src := if dst then drop frag_len <$> src else src in
        gcm_process_loop fuel' context c src dst (hash_advance frag_len hsrc)
          (n - frag_len) (out ++ written) g
  end.

(** [gcm_process].  The block number computed for the debug messages is
    not modelled.  The loop runs at most [n] times. *)
Definition gcm_process (context : ptr) (c : gcm_context)
    (src : option (list Z)) (dst : bool) (hsrc : hash_ptr) (n : nat)
    (g : gcm_statics) : gcm_context * list Z * gcm_statics :=
  (* Update total length (in bits) *)
  let bits := size_t (Z.of_nat n * 8) in
  let l := len c in
  let c := match src with
           | Some _ => set_len c (mk_lengths (add l) (u64 (data l + bits)))
           | None => set_len c (mk_lengths (u64 (add l + bits)) (data l))
           end in
  (* Process data *)
  gcm_process_loop n context c src dst hsrc n [] g.

(** [gcm_hash]: the block left in [*hash]. *)
Definition gcm_hash (context : ptr) (c : gcm_context) (g : gcm_statics)
    : gcm_block * gcm_statics :=
  (* Construct big-endian lengths block *)
  let h := cpu_to_be64 (add (len c)) ++ cpu_to_be64 (data (len c)) in
  (* Update hash *)
  let h := gcm_xor_block (hash c) h in
  gcm_multiply_key (key_addr context) (key c) h g.

(** [gcm_tag]: the block left in [*tag]; the context is only read. *)
Definition gcm_tag (context : ptr) (c : gcm_context) (g : gcm_statics)
    : gcm_block * gcm_context * gcm_statics :=
  (* Construct hash *)
  let '(tag, g) := gcm_hash context c g in
  (* Construct encrypted initial counter value *)
  let tmp := ctr c in
  let offset := u32 (u64 (- data (len c)) / (8 * 16)) in
  let tmp := gcm_count tmp offset in
  let tmp := cipher_encrypt (raw_cipher c) (raw_ctx c) tmp in
  (* Construct tag *)
  (gcm_xor_block tmp tag, c, g).

Definition zero_lengths : gcm_lengths := mk_lengths 0 0.

(** [gcm_setkey]: status code, context and statics on return. *)
Definition gcm_setkey (context : ptr) (k : list Z)
    (raw_cipher : cipher_algorithm) (g : gcm_statics)
    : Z * gcm_context * gcm_statics :=
  (* Initialise GCM context; set underlying block cipher key *)
  let '(rc, rctx) := cipher_setkey raw_cipher k in
  let c := mk_context zero_block zero_lengths zero_block zero_block
             raw_cipher rctx in
  if negb (rc =? 0) then (rc, c, g)
  else
    (* Construct GCM hash key *)
    let H := cipher_encrypt raw_cipher rctx (ctr c) in
    let c := mk_context (hash c) (len c) (ctr c) H raw_cipher rctx in
    (* Reset counter *)
    let c := set_ctr c (take 12 (ctr c) ++ cpu_to_be32 1) in
    (* Construct cached tables *)
    (0, c, gcm_cache (key_addr context) (key c) g).

(** [gcm_setiv] *)
Definition gcm_setiv (context : ptr) (c : gcm_context) (iv : list Z)
    (ivlen : nat) (g : gcm_statics) : gcm_context * gcm_statics :=
  (* Reset non-key state *)
  let c := mk_context zero_block zero_lengths zero_block (key c)
             (raw_cipher c) (raw_ctx c) in
  (* Reset counter *)
  let c := set_ctr c (take 12 (ctr c) ++ cpu_to_be32 1) in
  (* Process initialisation vector *)
  if (ivlen =? 12)%nat then
    (* Initialisation vector is exactly 96 bits, use it as-is *)
    (set_ctr c (take ivlen iv ++ drop ivlen (ctr c)), g)
  else
    (* Calculate hash over initialisation vector *)
    let '(c, _, g) := gcm_process context c (Some iv) false (hash_input iv)
                        ivlen g in
    let '(y, g) := gcm_hash context c g in
    let c := set_ctr c y in
    (* Reset non-key, non-counter state *)
    (mk_context zero_block zero_lengths (ctr c) (key c)
       (raw_cipher c) (raw_ctx c), g).

(** Where the [dst] argument of [gcm_encrypt] and [gcm_decrypt] points:
    nowhere (a null pointer), at a buffer that does not overlap [src], or
    at [src] itself, for encryption or decryption in place.  Buffers that
    overlap in part are not modelled. *)
Inductive dst_ptr := dst_null | dst_buffer | dst_src.

Definition dst_given (dst : dst_ptr) : bool :=
  match dst with dst_null => false | _ => true end.

(** [gcm_encrypt]: with an output buffer [hash] is [dst], whether or not
    [dst] is [src]. *)
Definition gcm_encrypt (context : ptr) (c : gcm_context) (src : list Z)
    (dst : dst_ptr) (n : nat) (g : gcm_statics)
    : gcm_context * list Z * gcm_statics :=
  if dst_given dst then
    (* Encrypting: hash the encrypted data *)
    gcm_process context c (Some src) true hash_is_dst n g
  else
    (* Authenticating: hash the input data *)
    gcm_process context c None false (hash_input src) n g.

(** [gcm_decrypt]: [hash] is [src].  [gcm_process] reads a fragment
    through [hash] after [gcm_xor] has written that fragment to [dst];
    when [dst] is [src] the bytes it reads are therefore the bytes just
    written, and otherwise the bytes of the input. *)
Definition gcm_decrypt (context : ptr) (c : gcm_context) (src : list Z)
    (dst : dst_ptr) (n : nat) (g : gcm_statics)
    : gcm_context * list Z * gcm_statics :=
  let hsrc := match dst with
              | dst_src => hash_is_dst
              | _ => hash_input src
              end in
  let src' := if dst_given dst then Some src else None in
  gcm_process context c src' (dst_given dst) hsrc n g.

(** ** Known-answer check

    Test case 2 of the GCM specification (AES-128, all-zero key, IV and
    one all-zero plaintext block), with the three AES encryptions the
    run needs tabulated. *)
Definition hex_block (v : Z) : gcm_block := be_encode 16 v.

Definition aes_zero_key_table : cipher_algorithm :=
  {| setkey := fun k => (0, k);
     encrypt := fun _ b =>
       let v := be_decode b in
       if v =? 0 then hex_block 0x66e94bd4ef8a2c3b884cfa59ca342b2e
       else if v =? 1 then hex_block 0x58e2fccefa7e3061367f1d57a4e7455a
       else if v =? 2 then hex_block 0x0388dace60b6a392f328c2b971b2fe78
       else zero_block |}.

Definition test_case_2 : list Z * gcm_block :=
  let '(_, c, g) := gcm_setkey 0 (replicate 16 0) aes_zero_key_table
                      gcm_statics_bss in
  let '(c, g) := gcm_setiv 0 c (replicate 12 0) 12 g in
  let '(c, ct, g) := gcm_encrypt 0 c (replicate 16 0) dst_buffer 16 g in
  let '(t, _, _) := gcm_tag 0 c g in
  (ct, t).

(** The matching decryption: the ciphertext of test case 2 handed to
    [gcm_decrypt], with [dst] where the argument says. *)
Definition test_case_2_decrypt (dst : dst_ptr) : list Z * gcm_block :=
  let '(_, c, g) := gcm_setkey 0 (replicate 16 0) aes_zero_key_table
                      gcm_statics_bss in
  let '(c, g) := gcm_setiv 0 c (replicate 12 0) 12 g in
  let '(c, pt, g) :=
    gcm_decrypt 0 c (hex_block 0x0388dace60b6a392f328c2b971b2fe78) dst 16 g in
  let '(t, _, _) := gcm_tag 0 c g in
  (pt, t).

Example test_case_2_ok :
  test_case_2 = (hex_block 0x0388dace60b6a392f328c2b971b2fe78,
                 hex_block 0xab6e47d42cec13bdf53a67b21257bddf).
Proof. vm_compute. reflexivity. Qed.

(** * Properties *)

(** ** Bytes and byte order *)

Lemma be_decode_from (bs : list Z) (a : Z) :
  fold_left (fun acc b => acc * 256 + b) bs a
  = a * 256 ^ Z.of_nat (length bs) + be_decode bs.
Proof.
  unfold be_decode. revert a.
  induction bs as [|b bs IH]; intros a; simpl fold_left.
  - simpl. lia.
  - rewrite IH, (IH (0 * 256 + b)).
    rewrite length_cons, Nat2Z.inj_succ, Z.pow_succ_r by lia. lia.
Qed.

Lemma be_decode_cons (b : Z) (bs : list Z) :
  be_decode (b :: bs) = b * 256 ^ Z.of_nat (length bs) + be_decode bs.
Proof. unfold be_decode at 1. simpl. rewrite be_decode_from. lia. Qed.

Lemma be_decode_range (bs : list Z) :
  wf_bytes bs -> 0 <= be_decode bs < 256 ^ Z.of_nat (length bs).
Proof.
  induction 1 as [|b bs Hb _ IH].
  - cbn. lia.
  - rewrite be_decode_cons, length_cons, Nat2Z.inj_succ, Z.pow_succ_r by lia.
    unfold is_byte in Hb. nia.
Qed.

Lemma length_be_encode (n : nat) (v : Z) : length (be_encode n v) = n.
Proof. induction n; simpl; congruence. Qed.

Lemma wf_be_encode (n : nat) (v : Z) : wf_bytes (be_encode n v).
Proof.
  induction n; simpl; constructor; auto.
  unfold is_byte. apply Z.mod_pos_bound. lia.
Qed.

Lemma be_decode_encode (n : nat) (v : Z) :
  be_decode (be_encode n v) = v mod 256 ^ Z.of_nat n.
Proof.
  induction n as [|n IH].
  - cbn. now rewrite Z.mod_1_r.
  - simpl be_encode. rewrite be_decode_cons, length_be_encode, IH.
    rewrite Nat2Z.inj_succ, Z.pow_succ_r by lia.
    rewrite (Z.mul_comm 256), Z.rem_mul_r by lia. lia.
Qed.

Lemma be_encode_add_mul (n : nat) (v k : Z) :
  be_encode n (k * 256 ^ Z.of_nat n + v) = be_encode n v.
Proof.
  revert k. induction n as [|n IH]; intros k; [reflexivity|].
  simpl be_encode.
  rewrite Nat2Z.inj_succ, Z.pow_succ_r by lia.
  replace (k * (256 * 256 ^ Z.of_nat n) + v)
    with ((k * 256) * 256 ^ Z.of_nat n + v) by lia.
  rewrite IH. f_equal.
  rewrite Z.div_add_l by lia.
  rewrite Z.add_comm, Z.mod_add by lia. reflexivity.
Qed.

Lemma be_encode_decode (bs : list Z) :
  wf_bytes bs -> be_encode (length bs) (be_decode bs) = bs.
Proof.
  induction 1 as [|b bs Hb Hbs IH]; [reflexivity|].
  pose proof (be_decode_range bs Hbs) as Hr.
  simpl be_encode. rewrite be_decode_cons. unfold is_byte in Hb.
  rewrite be_encode_add_mul, IH. f_equal.
  rewrite Z.div_add_l by lia.
  rewrite (Z.div_small (be_decode bs)) by lia.
  rewrite Z.add_0_r. apply Z.mod_small. lia.
Qed.

Lemma wf_bytes_take (n : nat) (bs : list Z) : wf_bytes bs -> wf_bytes (take n bs).
Proof. apply Forall_take. Qed.

Lemma wf_bytes_drop (n : nat) (bs : list Z) : wf_bytes bs -> wf_bytes (drop n bs).
Proof. apply Forall_drop. Qed.

Lemma wf_bytes_app (xs ys : list Z) :
  wf_bytes xs -> wf_bytes ys -> wf_bytes (xs ++ ys).
Proof. intros. apply Forall_app; auto. Qed.

Lemma wf_zero_block : wf_block zero_block.
Proof.
  split; [reflexivity|]. apply Forall_replicate. unfold is_byte. lia.
Qed.

(** ** The counter *)

Lemma be32_to_cpu_to_be32 (v : Z) : be32_to_cpu (cpu_to_be32 v) = u32 v.
Proof.
  unfold be32_to_cpu, cpu_to_be32, u32.
  rewrite firstn_all2 by (rewrite length_be_encode; lia).
  apply be_decode_encode.
Qed.

Lemma gcm_count_length (y : gcm_block) (delta : Z) :
  length y = 16%nat -> length (gcm_count y delta) = 16%nat.
Proof.
  intros Hy. unfold gcm_count, cpu_to_be32.
  rewrite length_app, length_take, length_be_encode. lia.
Qed.

Lemma gcm_count_wf (y : gcm_block) (delta : Z) :
  wf_block y -> wf_block (gcm_count y delta).
Proof.
  intros [Hlen Hy]. split; [now apply gcm_count_length|].
  apply wf_bytes_app; [now apply wf_bytes_take | apply wf_be_encode].
Qed.

(** C8.  [gcm_count] adds [delta] to the last four bytes read as a
    big-endian 32-bit integer, modulo 2^32, and leaves the first twelve
    bytes as they were; when the sum reaches 2^32 the counter bytes become
    zero and the first twelve bytes are still unchanged. *)
Theorem gcm_count_spec (y : gcm_block) (delta : Z) :
  wf_block y ->
  take 12 (gcm_count y delta) = take 12 y
  /\ be32_to_cpu (drop 12 (gcm_count y delta))
     = (be32_to_cpu (drop 12 y) + delta) mod 2 ^ 32
  /\ wf_block (gcm_count y delta)
  /\ (be32_to_cpu (drop 12 y) + delta = 2 ^ 32 ->
      gcm_count y delta = take 12 y ++ [0; 0; 0; 0]).
Proof.
  intros Hwf. pose proof Hwf as [Hlen Hy].
  assert (Ht : length (take 12 y) = 12%nat) by (rewrite length_take; lia).
  repeat split.
  - unfold gcm_count. rewrite take_app_length'; auto.
  - unfold gcm_count at 1. rewrite drop_app_length' by auto.
    rewrite be32_to_cpu_to_be32. unfold u32. apply Z.mod_mod. lia.
  - now apply gcm_count_length.
  - now apply gcm_count_wf.
  - intros Hsum. unfold gcm_count. now rewrite Hsum.
Qed.

Lemma gcm_count_spec_witness :
  let y := replicate 12 7 ++ [255; 255; 255; 255] in
  wf_block y /\ gcm_count y 1 = replicate 12 7 ++ [0; 0; 0; 0].
Proof.
  intros y.
  assert (Hy : wf_block y).
  { split; [reflexivity|].
    unfold y. repeat constructor; unfold is_byte; lia. }
  split; [exact Hy|].
  destruct (gcm_count_spec y 1 Hy) as (_ & _ & _ & Hwrap).
  apply Hwrap. reflexivity.
Defined.

(** ** Key and initialisation vector set-up *)

(** The tentative initial counter block: all zero, counter field 1. *)
Definition initial_counter : gcm_block := replicate 12 0 ++ [0; 0; 0; 1].

(** C5.  After a successful [gcm_setkey] the hash key is the cipher's
    encryption, under the freshly scheduled key, of the all-zero block,
    and the counter block is zero apart from a big-endian 1 in its
    counter field. *)
Theorem gcm_setkey_success (context : ptr) (k : list Z)
    (cipher : cipher_algorithm) (g g' : gcm_statics) (c : gcm_context) :
  gcm_setkey context k cipher g = (0, c, g') ->
  key c = cipher_encrypt cipher (snd (cipher_setkey cipher k)) zero_block
  /\ raw_ctx c = snd (cipher_setkey cipher k)
  /\ ctr c = initial_counter
  /\ take 12 (ctr c) = replicate 12 0
  /\ be32_to_cpu (drop 12 (ctr c)) = 1.
Proof.
  unfold gcm_setkey.
  destruct (cipher_setkey cipher k) as [rc rctx] eqn:Hsk. simpl snd.
  destruct (rc =? 0) eqn:Hrc; simpl negb; cbv iota.
  - intros Heq. apply (f_equal (fun r => snd (fst r))) in Heq.
    cbn [fst snd] in Heq. subst c.
    cbn [key ctr raw_ctx set_ctr]. repeat split; reflexivity.
  - intros Heq. apply (f_equal (fun r => fst (fst r))) in Heq.
    cbn [fst] in Heq. subst rc. discriminate.
Qed.

(** C9.  [gcm_setkey] returns exactly the status code of the cipher's
    [setkey]: zero when and only when the cipher accepts the key, and
    otherwise the cipher's own non-zero code.  The other four entry points
    return a context, output bytes and statics, and no status. *)
Theorem gcm_setkey_status (context : ptr) (k : list Z)
    (cipher : cipher_algorithm) (g : gcm_statics) (c : gcm_context)
    (src iv : list Z) (dst : dst_ptr) (n : nat) :
  let rc := fst (fst (gcm_setkey context k cipher g)) in
  rc = fst (cipher_setkey cipher k)
  /\ (rc = 0 <-> fst (cipher_setkey cipher k) = 0)
  /\ (exists c' g', gcm_setiv context c iv n g = (c', g'))
  /\ (exists c' out g', gcm_encrypt context c src dst n g = (c', out, g'))
  /\ (exists c' out g', gcm_decrypt context c src dst n g = (c', out, g'))
  /\ (exists t c' g', gcm_tag context c g = (t, c', g')).
Proof.
  intros rc.
  assert (Hrc : rc = fst (cipher_setkey cipher k)).
  { unfold rc, gcm_setkey.
    destruct (cipher_setkey cipher k) as [r rctx]. simpl fst.
    destruct (r =? 0) eqn:Hr; simpl negb; cbv iota; cbn [fst]; [|reflexivity].
    apply Z.eqb_eq in Hr. congruence. }
  split; [exact Hrc|]. split; [now rewrite Hrc|].
  split; [|split; [|split]].
  - destruct (gcm_setiv context c iv n g) as [c' g']. eauto.
  - destruct (gcm_encrypt context c src dst n g) as [[c' out] g']. eauto.
  - destruct (gcm_decrypt context c src dst n g) as [[c' out] g']. eauto.
  - destruct (gcm_tag context c g) as [[t c'] g']. eauto.
Qed.

(** C6.  For a 12-byte initialisation vector, [gcm_setiv] leaves the
    counter block equal to the vector followed by a big-endian 1, and the
    hash and length fields zero. *)
Theorem gcm_setiv_96 (context : ptr) (c : gcm_context) (iv : list Z)
    (g : gcm_statics) :
  length iv = 12%nat ->
  let c' := fst (gcm_setiv context c iv (length iv) g) in
  ctr c' = iv ++ [0; 0; 0; 1]
  /\ hash c' = zero_block
  /\ len c' = zero_lengths
  /\ key c' = key c
  /\ snd (gcm_setiv context c iv (length iv) g) = g.
Proof.
  intros Hiv c'. unfold c', gcm_setiv. rewrite Hiv. simpl Nat.eqb. cbv iota.
  cbn [fst snd ctr hash len key set_ctr].
  rewrite <- Hiv at 1. rewrite firstn_all. repeat split; reflexivity.
Qed.

Lemma gcm_setiv_96_witness :
  ctr (fst (gcm_setiv 0 (mk_context [] zero_lengths [] zero_block
                            aes_zero_key_table [])
              [1; 2; 3; 4; 5; 6; 7; 8; 9; 10; 11; 12] 12 gcm_statics_bss))
  = [1; 2; 3; 4; 5; 6; 7; 8; 9; 10; 11; 12; 0; 0; 0; 1].
Proof.
  exact (proj1 (gcm_setiv_96 0 (mk_context [] zero_lengths [] zero_block
                                  aes_zero_key_table [])
                  [1; 2; 3; 4; 5; 6; 7; 8; 9; 10; 11; 12] gcm_statics_bss
                  eq_refl)).
Defined.

Lemma gcm_setkey_success_witness :
  key (snd (fst (gcm_setkey 0 (replicate 16 0) aes_zero_key_table
                   gcm_statics_bss)))
  = hex_block 0x66e94bd4ef8a2c3b884cfa59ca342b2e.
Proof.
  pose proof (gcm_setkey_success 0 (replicate 16 0) aes_zero_key_table
                gcm_statics_bss
                (snd (gcm_setkey 0 (replicate 16 0) aes_zero_key_table
                        gcm_statics_bss))
                (snd (fst (gcm_setkey 0 (replicate 16 0) aes_zero_key_table
                             gcm_statics_bss)))) as H.
  destruct H as [H _]; [vm_compute; reflexivity|].
  rewrite H. vm_compute. reflexivity.
Defined.

(** ** The tag *)

Lemma gcm_multiply_key_statics (keyp : ptr) (H poly : gcm_block)
    (g : gcm_statics) :
  gcm_cached_key (snd (gcm_multiply_key keyp H poly g)) = Some keyp.
Proof.
  unfold gcm_multiply_key. simpl.
  destruct (decide (gcm_cached_key g = Some keyp)) as [Heq|Hne]; [exact Heq|].
  unfold gcm_cache.
  destruct (fold_left _ _ _) as [mult reduce]. reflexivity.
Qed.

Lemma gcm_multiply_key_again (keyp : ptr) (H poly poly' : gcm_block)
    (g : gcm_statics) :
  let g1 := snd (gcm_multiply_key keyp H poly g) in
  snd (gcm_multiply_key keyp H poly' g1) = g1
  /\ gcm_multiply_key keyp H poly g1 = gcm_multiply_key keyp H poly g.
Proof.
  intros g1. pose proof (gcm_multiply_key_statics keyp H poly g) as Hk.
  fold g1 in Hk. split.
  - unfold gcm_multiply_key at 1. simpl. now rewrite decide_True by exact Hk.
  - unfold gcm_multiply_key at 1. rewrite decide_True by exact Hk.
    unfold g1, gcm_multiply_key. simpl.
    destruct (decide (gcm_cached_key g = Some keyp)); reflexivity.
Qed.

(** The lengths block that [gcm_hash] builds, and the initial counter
    block that [gcm_tag] reconstructs. *)
Definition lengths_block (l : gcm_lengths) : gcm_block :=
  cpu_to_be64 (add l) ++ cpu_to_be64 (data l).

Definition tag_offset (l : gcm_lengths) : Z := u32 (u64 (- data l) / 128).

Lemma gcm_tag_unfold (context : ptr) (c : gcm_context) (g : gcm_statics) :
  gcm_tag context c g
  = let m := gcm_multiply_key (key_addr context) (key c)
               (gcm_xor_block (hash c) (lengths_block (len c))) g in
    (gcm_xor_block
       (cipher_encrypt (raw_cipher c) (raw_ctx c)
          (gcm_count (ctr c) (tag_offset (len c))))
       (fst m), c, snd m).
Proof.
  unfold gcm_tag, gcm_hash, lengths_block, tag_offset.
  destruct (gcm_multiply_key _ _ _ _) as [t g1]. reflexivity.
Qed.

(** C10.  [gcm_tag] leaves every field of the context as it found it, and
    a second call straight after the first writes the same tag, whatever
    the statics held beforehand. *)
Theorem gcm_tag_frame (context : ptr) (c : gcm_context) (g : gcm_statics) :
  let '(t1, c1, g1) := gcm_tag context c g in
  let '(t2, c2, g2) := gcm_tag context c1 g1 in
  c1 = c /\ c2 = c /\ t2 = t1 /\ g2 = g1
  /\ hash c1 = hash c /\ len c1 = len c /\ ctr c1 = ctr c
  /\ key c1 = key c /\ raw_cipher c1 = raw_cipher c
  /\ raw_ctx c1 = raw_ctx c.
Proof.
  rewrite gcm_tag_unfold. cbv beta iota zeta.
  rewrite gcm_tag_unfold. cbv beta iota zeta.
  set (h := gcm_xor_block (hash c) _).
  pose proof (gcm_multiply_key_again (key_addr context) (key c) h h g)
    as [Hg Ht].
  cbv zeta in Hg, Ht. clear Hg. rewrite Ht.
  repeat split; reflexivity.
Qed.

(** ** The cached tables *)

(** Index written, and index read, by iteration [i] of [gcm_cache]. *)
Definition this_of (i : nat) : nat := Z.to_nat (gcm_reverse (Z.of_nat i)).

Definition other_of (i : nat) : nat :=
  let this := gcm_reverse (Z.of_nat i) in
  Z.to_nat (if Z.land this 0x80 =? 0 then Z.shiftl this 1
            else Z.land this 0x7f).

(** A loop that fills a table one entry at a time, each new entry being
    computed from one entry already present. *)
Section table_fill.
Context {A : Type} `{Inhabited A}.
Variable f : nat -> A -> A.

Definition fill_step (t : list A) (i : nat) : list A :=
  <[this_of i := f i (t !!! other_of i)]> t.

(** [deps_ok ixs known]: every iteration in [ixs] reads an index that is
    in [known] or was written by an earlier iteration, writes inside the
    table, and in the end all 256 indices are covered. *)
Fixpoint deps_ok (ixs : list nat) (known : list nat) : bool :=
  match ixs with
  | [] => forallb (fun j => existsb (Nat.eqb j) known) (seq 0 256)
  | i :: ixs' =>
      existsb (Nat.eqb (other_of i)) known
      && (this_of i <? 256)%nat
      && deps_ok ixs' (this_of i :: known)
  end.

Lemma fill_step_length (t : list A) (i : nat) :
  length (fill_step t i) = length t.
Proof. apply length_insert. Qed.

Lemma fill_length (ixs : list nat) (t : list A) :
  length (fold_left fill_step ixs t) = length t.
Proof.
  revert t. induction ixs as [|i ixs IH]; intros t; [reflexivity|].
  simpl. now rewrite IH, fill_step_length.
Qed.

Lemma fill_other (ixs : list nat) (t : list A) (j : nat) :
  forallb (fun i => negb (this_of i =? j)%nat) ixs = true ->
  fold_left fill_step ixs t !!! j = t !!! j.
Proof.
  revert t. induction ixs as [|i ixs IH]; intros t Hj; [reflexivity|].
  simpl in Hj. apply andb_true_iff in Hj as [Hi Hj].
  apply negb_true_iff, Nat.eqb_neq in Hi.
  simpl. rewrite IH by exact Hj.
  unfold fill_step. now rewrite list_lookup_total_insert_ne.
Qed.

Lemma existsb_eqb_In (j : nat) (known : list nat) :
  existsb (Nat.eqb j) known = true <-> In j known.
Proof.
  rewrite existsb_exists. split.
  - intros (x & Hx & Heq). apply Nat.eqb_eq in Heq. now subst.
  - intros Hin. exists j. split; [exact Hin|apply Nat.eqb_refl].
Qed.

Lemma fill_agree (ixs known : list nat) (t1 t2 : list A) :
  length t1 = 256%nat -> length t2 = 256%nat ->
  (forall j, In j known -> t1 !!! j = t2 !!! j) ->
  deps_ok ixs known = true ->
  fold_left fill_step ixs t1 = fold_left fill_step ixs t2.
Proof.
  revert known t1 t2.
  induction ixs as [|i ixs IH]; intros known t1 t2 H1 H2 Hk Hok.
  - cbn [fold_left]. cbn [deps_ok] in Hok. rewrite forallb_forall in Hok.
    apply (list_eq_same_length _ _ 256%nat); auto.
    intros j x y Hj Hx Hy.
    apply list_lookup_total_correct in Hx, Hy. subst x y.
    apply Hk, existsb_eqb_In, Hok, in_seq. lia.
  - cbn [deps_ok] in Hok.
    apply andb_true_iff in Hok as [Hok Hrest].
    apply andb_true_iff in Hok as [Hother Hthis].
    apply existsb_eqb_In in Hother. apply Nat.ltb_lt in Hthis.
    cbn [fold_left]. apply (IH (this_of i :: known)).
    + now rewrite fill_step_length.
    + now rewrite fill_step_length.
    + intros j Hj. unfold fill_step. rewrite (Hk _ Hother).
      destruct (decide (j = this_of i)) as [->|Hne].
      * rewrite !list_lookup_total_insert_eq by lia. reflexivity.
      * rewrite !list_lookup_total_insert_ne by congruence.
        destruct Hj as [Hj|Hj]; [congruence|now apply Hk].
    + exact Hrest.
Qed.
End table_fill.

(** The two tables are filled independently of each other. *)
Definition mult_entry (H : gcm_block) (i : nat) (e : gcm_block) : gcm_block :=
  if Z.land (gcm_reverse (Z.of_nat i)) 0x80 =? 0 then gcm_multiply_x e
  else gcm_xor H e 16.

Definition reduce_entry (i : nat) (e : Z) : Z :=
  if Z.land (gcm_reverse (Z.of_nat i)) 0x80 =? 0 then Z.shiftr e 1
  else Z.lxor e (Z.shiftl GCM_POLY 8).

Lemma gcm_cache_entry_split (H : gcm_block) (mult : list gcm_block)
    (reduce : list Z) (i : nat) :
  gcm_cache_entry H (mult, reduce) i
  = (fill_step (mult_entry H) mult i, fill_step reduce_entry reduce i).
Proof.
  unfold gcm_cache_entry, fill_step, mult_entry, reduce_entry, this_of,
    other_of.
  destruct (Z.land (gcm_reverse (Z.of_nat i)) 128 =? 0); reflexivity.
Qed.

Lemma gcm_cache_fold_split (H : gcm_block) (ixs : list nat)
    (mult : list gcm_block) (reduce : list Z) :
  fold_left (gcm_cache_entry H) ixs (mult, reduce)
  = (fold_left (fill_step (mult_entry H)) ixs mult,
     fold_left (fill_step reduce_entry) ixs reduce).
Proof.
  revert mult reduce. induction ixs as [|i ixs IH]; intros; [reflexivity|].
  cbn [fold_left]. now rewrite gcm_cache_entry_split, IH.
Qed.

(** The tables for hash key [H], built from the all-zero tables. *)
Definition gcm_mult_table (H : gcm_block) : list gcm_block :=
  fold_left (fill_step (mult_entry H)) (seq 1 255) (replicate 256 zero_block).

Definition gcm_reduce_table : list Z :=
  Eval vm_compute in
    fold_left (fill_step reduce_entry) (seq 1 255) (replicate 256 0).

(** What holds of the statics at any time: the tables have 256 entries
    and entry 0 of each, which [gcm_cache] never writes, is still zero. *)
Definition statics_wf (g : gcm_statics) : Prop :=
  length (gcm_cached_mult g) = 256%nat
  /\ length (gcm_cached_reduce g) = 256%nat
  /\ gcm_cached_mult g !!! 0%nat = zero_block
  /\ gcm_cached_reduce g !!! 0%nat = 0.

Lemma statics_wf_bss : statics_wf gcm_statics_bss.
Proof. repeat split. Qed.

Lemma deps_ok_cache : deps_ok (seq 1 255) [0%nat] = true.
Proof. vm_compute. reflexivity. Qed.

Lemma this_of_nonzero :
  forallb (fun i => negb (this_of i =? 0)%nat) (seq 1 255) = true.
Proof. vm_compute. reflexivity. Qed.

Lemma gcm_cache_tables (keyp : ptr) (H : gcm_block) (g : gcm_statics) :
  statics_wf g ->
  gcm_cache keyp H g
  = mk_statics (Some keyp) (gcm_mult_table H) gcm_reduce_table.
Proof.
  intros (Hm & Hr & Hm0 & Hr0). unfold gcm_cache.
  rewrite gcm_cache_fold_split. f_equal.
  - unfold gcm_mult_table.
    apply (fill_agree _ _ [0%nat]); auto using deps_ok_cache.
    intros j [<-|[]]. rewrite Hm0. reflexivity.
  - change gcm_reduce_table
      with (fold_left (fill_step reduce_entry) (seq 1 255) (replicate 256 0)).
    apply (fill_agree _ _ [0%nat]); auto using deps_ok_cache.
    intros j [<-|[]]. rewrite Hr0. reflexivity.
Qed.

Lemma gcm_mult_table_length (H : gcm_block) :
  length (gcm_mult_table H) = 256%nat.
Proof. unfold gcm_mult_table. now rewrite fill_length. Qed.

Lemma gcm_mult_table_0 (H : gcm_block) : gcm_mult_table H !!! 0%nat = zero_block.
Proof.
  unfold gcm_mult_table. rewrite fill_other by exact this_of_nonzero.
  reflexivity.
Qed.

Lemma gcm_cache_wf (keyp : ptr) (H : gcm_block) (g : gcm_statics) :
  statics_wf g -> statics_wf (gcm_cache keyp H g).
Proof.
  intros Hg. rewrite gcm_cache_tables by exact Hg.
  unfold statics_wf. cbn [gcm_cached_mult gcm_cached_reduce].
  split; [apply gcm_mult_table_length|].
  split; [reflexivity|].
  split; [apply gcm_mult_table_0|reflexivity].
Qed.


(** ** Bit-level facts about big-endian readings *)

Lemma testbit_add_mul_pow2 (a r n k : Z) :
  0 <= n -> 0 <= r < 2 ^ n -> 0 <= k ->
  Z.testbit (a * 2 ^ n + r) k
  = if k <? n then Z.testbit r k else Z.testbit a (k - n).
Proof.
  intros Hn Hr Hk. destruct (Z.ltb_spec k n) as [Hlt|Hge].
  - rewrite <- (Z.mod_pow2_bits_low (a * 2 ^ n + r) n k) by lia.
    rewrite Z.add_comm, Z.mod_add by lia.
    now rewrite Z.mod_small by lia.
  - replace k with ((k - n) + n) at 1 by lia.
    rewrite <- Z.div_pow2_bits by lia.
    rewrite Z.div_add_l by lia.
    rewrite (Z.div_small r) by lia. now rewrite Z.add_0_r.
Qed.

Lemma testbit_above (r n k : Z) :
  0 <= r < 2 ^ n -> n <= k -> Z.testbit r k = false.
Proof.
  intros Hr Hk. destruct (Z.ltb_spec n 0) as [Hn|Hn].
  - rewrite Z.pow_neg_r in Hr by lia. lia.
  - rewrite <- (Z.mod_small r (2 ^ n)) by lia.
    apply Z.mod_pow2_bits_high. lia.
Qed.

Lemma lxor_bound (r r' n : Z) :
  0 <= n -> 0 <= r < 2 ^ n -> 0 <= r' < 2 ^ n -> 0 <= Z.lxor r r' < 2 ^ n.
Proof.
  intros Hn Hr Hr'.
  assert (Heq : Z.lxor r r' = Z.lxor r r' mod 2 ^ n).
  { apply Z.bits_inj'. intros k Hk.
    destruct (Z.ltb_spec k n) as [Hlt|Hge].
    - now rewrite Z.mod_pow2_bits_low by lia.
    - rewrite Z.mod_pow2_bits_high by lia.
      rewrite Z.lxor_spec, !(testbit_above _ n k) by lia. reflexivity. }
  rewrite Heq. apply Z.mod_pos_bound. lia.
Qed.

Lemma lxor_add_mul_pow2 (a a' r r' n : Z) :
  0 <= n -> 0 <= r < 2 ^ n -> 0 <= r' < 2 ^ n ->
  Z.lxor (a * 2 ^ n + r) (a' * 2 ^ n + r')
  = Z.lxor a a' * 2 ^ n + Z.lxor r r'.
Proof.
  intros Hn Hr Hr'. pose proof (lxor_bound r r' n Hn Hr Hr') as Hx.
  apply Z.bits_inj'. intros k Hk.
  rewrite Z.lxor_spec, !testbit_add_mul_pow2 by lia.
  destruct (k <? n); now rewrite Z.lxor_spec.
Qed.

Lemma wf_bytes_lxor (xs ys : list Z) :
  wf_bytes xs -> wf_bytes ys -> wf_bytes (zip_with Z.lxor xs ys).
Proof.
  intros Hxs. revert ys.
  induction Hxs as [|x xs Hx _ IH]; intros ys Hys; [constructor|].
  destruct Hys as [|y ys Hy Hys]; [constructor|].
  simpl. constructor; [|now apply IH].
  unfold is_byte in *. apply (lxor_bound x y 8); lia.
Qed.

Lemma be_decode_lxor (xs ys : list Z) :
  wf_bytes xs -> wf_bytes ys -> length xs = length ys ->
  be_decode (zip_with Z.lxor xs ys) = Z.lxor (be_decode xs) (be_decode ys).
Proof.
  intros Hxs. revert ys.
  induction Hxs as [|x xs Hx Hxs IH]; intros ys Hys Hlen.
  - destruct ys; [reflexivity|discriminate].
  - destruct Hys as [|y ys Hy Hys]; [discriminate|].
    injection Hlen as Hlen. simpl zip_with.
    rewrite !be_decode_cons, IH by assumption.
    rewrite length_zip_with, <- Hlen, Nat.min_id.
    pose proof (be_decode_range xs Hxs) as Rx.
    pose proof (be_decode_range ys Hys) as Ry. rewrite <- Hlen in Ry.
    replace (256 ^ Z.of_nat (length xs)) with (2 ^ (8 * Z.of_nat (length xs)))
      in * by (rewrite Z.pow_mul_r by lia; reflexivity).
    symmetry. apply lxor_add_mul_pow2; lia.
Qed.

Lemma be_decode_inj (xs ys : list Z) :
  wf_bytes xs -> wf_bytes ys -> length xs = length ys ->
  be_decode xs = be_decode ys -> xs = ys.
Proof.
  intros Hxs Hys Hlen Heq.
  rewrite <- (be_encode_decode xs Hxs), <- (be_encode_decode ys Hys).
  now rewrite Hlen, Heq.
Qed.

Lemma be_decode_app (xs ys : list Z) :
  be_decode (xs ++ ys)
  = be_decode xs * 256 ^ Z.of_nat (length ys) + be_decode ys.
Proof.
  unfold be_decode at 1. rewrite fold_left_app.
  fold (be_decode xs). apply be_decode_from.
Qed.

(** Exhaustive checks over all byte values. *)
Definition all_bytes : list Z := Eval vm_compute in map Z.of_nat (seq 0 256).

Lemma byte_cases (P : Z -> bool) :
  forallb P all_bytes = true -> forall b, is_byte b -> P b = true.
Proof.
  intros Hall b Hb. rewrite forallb_forall in Hall. apply Hall.
  change all_bytes with (map Z.of_nat (seq 0 256)).
  apply in_map_iff. exists (Z.to_nat b). unfold is_byte in Hb.
  split; [lia|]. apply in_seq. lia.
Qed.

(** ** Multiplication by x and by x^8 *)

(** Multiplication by x on the big-endian reading of a block. *)
Definition mul_x_Z (v : Z) : Z :=
  Z.lxor (Z.shiftr v 1) (if Z.odd v then Z.shiftl GCM_POLY 120 else 0).

Lemma shift_byte (c b : Z) :
  (c = 0 \/ c = 1) -> is_byte b ->
  u8 (Z.lor (Z.shiftl c 7) (Z.shiftr b 1)) = c * 128 + b / 2
  /\ Z.land b 1 = b mod 2.
Proof.
  intros Hc Hb.
  pose proof (byte_cases
    (fun b => (u8 (Z.lor (Z.shiftl 0 7) (Z.shiftr b 1)) =? 0 * 128 + b / 2)
              && (u8 (Z.lor (Z.shiftl 1 7) (Z.shiftr b 1)) =? 1 * 128 + b / 2)
              && (Z.land b 1 =? b mod 2))
    eq_refl b Hb) as Hcheck.
  cbv beta in Hcheck.
  apply andb_true_iff in Hcheck as [Hcheck H3].
  apply andb_true_iff in Hcheck as [H0 H1].
  apply Z.eqb_eq in H0, H1, H3.
  destruct Hc as [->| ->]; auto.
Qed.

Lemma gcm_multiply_x_loop_spec (bs : list Z) (c : Z) :
  wf_bytes bs -> (c = 0 \/ c = 1) ->
  let '(res, c') := gcm_multiply_x_loop bs c in
  wf_bytes res /\ length res = length bs /\ (c' = 0 \/ c' = 1)
  /\ 2 * be_decode res + c' = c * 256 ^ Z.of_nat (length bs) + be_decode bs.
Proof.
  intros Hbs. revert c.
  induction Hbs as [|b bs Hb Hbs IH]; intros c Hc.
  - cbn. split; [constructor|]. split; [reflexivity|]. split; [exact Hc|lia].
  - cbn [gcm_multiply_x_loop].
    destruct (shift_byte c b Hc Hb) as [Hr Hl]. rewrite Hr, Hl.
    assert (Hc' : b mod 2 = 0 \/ b mod 2 = 1)
      by (pose proof (Z.mod_pos_bound b 2); lia).
    specialize (IH (b mod 2) Hc').
    destruct (gcm_multiply_x_loop bs (b mod 2)) as [res c'].
    destruct IH as (Hwf & Hlen & Hcc & Hval).
    split; [|split; [|split]].
    + constructor; [|exact Hwf]. unfold is_byte in *.
      pose proof (Z.div_pos b 2). pose proof (Z.div_lt_upper_bound b 2 128).
      lia.
    + simpl. now rewrite Hlen.
    + exact Hcc.
    + rewrite !be_decode_cons, Hlen, length_cons, Nat2Z.inj_succ,
        Z.pow_succ_r by lia.
      pose proof (Z.div_mod b 2). nia.
Qed.

Lemma be_decode_lxor_head (b e : Z) (rest : list Z) :
  wf_bytes rest ->
  be_decode (Z.lxor b e :: rest)
  = Z.lxor (be_decode (b :: rest)) (Z.shiftl e (8 * Z.of_nat (length rest))).
Proof.
  intros Hrest. pose proof (be_decode_range rest Hrest) as Hr.
  rewrite !be_decode_cons, Z.shiftl_mul_pow2 by lia.
  replace (256 ^ Z.of_nat (length rest))
    with (2 ^ (8 * Z.of_nat (length rest))) in *
    by (rewrite Z.pow_mul_r by lia; reflexivity).
  rewrite <- (Z.add_0_r (e * _)).
  rewrite lxor_add_mul_pow2 by lia. now rewrite Z.lxor_0_r.
Qed.

Lemma gcm_multiply_x_spec (B : gcm_block) :
  wf_block B ->
  wf_block (gcm_multiply_x B)
  /\ be_decode (gcm_multiply_x B) = mul_x_Z (be_decode B).
Proof.
  intros [Hlen HB]. unfold gcm_multiply_x, mul_x_Z.
  rewrite firstn_all2 by lia.
  pose proof (gcm_multiply_x_loop_spec B 0 HB (or_introl eq_refl)) as Hloop.
  pose proof (be_decode_range B HB) as HrB.
  destruct (gcm_multiply_x_loop B 0) as [res c].
  destruct Hloop as (Hwf & Hl & Hc & Hval).
  rewrite Z.shiftr_div_pow2 by lia. change (2 ^ 1) with 2.
  assert (Hodd : Z.odd (be_decode B) = negb (c =? 0)).
  { rewrite Zodd_mod. destruct Hc as [-> | ->].
    - replace (be_decode B mod 2) with 0; [reflexivity|].
      apply Z.mod_unique with (be_decode res); lia.
    - replace (be_decode B mod 2) with 1; [reflexivity|].
      apply Z.mod_unique with (be_decode res); lia. }
  assert (Hdiv : be_decode B / 2 = be_decode res).
  { symmetry. apply Z.div_unique with c; lia. }
  rewrite Hodd, Hdiv.
  destruct Hc as [-> | ->]; cbn [Z.eqb negb].
  - rewrite Z.lxor_0_r. repeat split; auto; lia.
  - destruct res as [|b0 rest]; [simpl in Hl; lia|].
    inversion Hwf as [|? ? Hb0 Hrest]; subst.
    split; [split|].
    + simpl in *. lia.
    + constructor; [|exact Hrest].
      unfold is_byte in *. apply (lxor_bound b0 GCM_POLY 8); unfold GCM_POLY; lia.
    + rewrite be_decode_lxor_head by exact Hrest.
      simpl in Hl. replace (length rest) with 15%nat by lia. reflexivity.
Qed.

Lemma gcm_multiply_x_iter (n : nat) (B : gcm_block) :
  wf_block B ->
  wf_block (Nat.iter n gcm_multiply_x B)
  /\ be_decode (Nat.iter n gcm_multiply_x B)
     = Nat.iter n mul_x_Z (be_decode B).
Proof.
  intros HB. induction n as [|n [IHwf IHval]]; [now split|].
  rewrite !Nat.iter_succ.
  destruct (gcm_multiply_x_spec _ IHwf) as [Hwf Hval].
  split; [exact Hwf|]. now rewrite Hval, IHval.
Qed.

Ltac xor_bits :=
  apply Z.bits_inj'; intros ?k _; rewrite ?Z.lxor_spec, ?Z.bits_0;
  repeat match goal with
         | |- context [Z.testbit ?a ?k] => destruct (Z.testbit a k)
         end;
  reflexivity.

Lemma mul_x_Z_lxor (a b : Z) :
  mul_x_Z (Z.lxor a b) = Z.lxor (mul_x_Z a) (mul_x_Z b).
Proof.
  unfold mul_x_Z. rewrite Z.shiftr_lxor.
  rewrite <- !Z.bit0_odd, Z.lxor_spec.
  set (P := Z.shiftl GCM_POLY 120).
  set (x := Z.shiftr a 1). set (y := Z.shiftr b 1).
  clearbody P x y.
  destruct (Z.testbit a 0), (Z.testbit b 0); cbn [xorb]; xor_bits.
Qed.

Lemma mul_x_Z_iter_lxor (n : nat) (a b : Z) :
  Nat.iter n mul_x_Z (Z.lxor a b)
  = Z.lxor (Nat.iter n mul_x_Z a) (Nat.iter n mul_x_Z b).
Proof.
  induction n as [|n IH]; [reflexivity|].
  rewrite !Nat.iter_succ. now rewrite IH, mul_x_Z_lxor.
Qed.

Lemma mul_x_Z_double (h : Z) : mul_x_Z (2 * h) = h.
Proof.
  unfold mul_x_Z. rewrite Z.odd_mul. cbn [Z.odd andb].
  rewrite Z.lxor_0_r, Z.shiftr_div_pow2 by lia.
  change (2 ^ 1) with 2. rewrite Z.mul_comm. apply Z.div_mul. lia.
Qed.

Lemma mul_x_Z_iter_pow2 (n : nat) (h : Z) :
  Nat.iter n mul_x_Z (2 ^ Z.of_nat n * h) = h.
Proof.
  induction n as [|n IH].
  - change (2 ^ Z.of_nat 0 * h = h). lia.
  - rewrite Nat.iter_succ_r.
    rewrite Nat2Z.inj_succ, Z.pow_succ_r by lia.
    rewrite <- Z.mul_assoc, mul_x_Z_double. exact IH.
Qed.

(** Eight multiplications by x shift the reading down by one byte and
    fold the displaced byte back in. *)
Lemma mul_x_Z_eight (v : Z) :
  Nat.iter 8 mul_x_Z v
  = Z.lxor (v / 256) (Nat.iter 8 mul_x_Z (v mod 256)).
Proof.
  pose proof (Z.mod_pos_bound v 256 ltac:(lia)) as Hm.
  assert (Hv : v = Z.lxor (2 ^ Z.of_nat 8 * (v / 256)) (v mod 256)).
  { change (2 ^ Z.of_nat 8) with 256.
    pose proof (lxor_add_mul_pow2 (v / 256) 0 0 (v mod 256) 8) as Hx.
    change (2 ^ 8) with 256 in Hx.
    rewrite Z.lxor_0_r, Z.lxor_0_l, Z.add_0_r in Hx.
    replace (0 * 256 + v mod 256) with (v mod 256) in Hx by lia.
    rewrite (Z.mul_comm 256), Hx by lia.
    pose proof (Z.div_mod v 256). lia. }
  rewrite Hv at 1. now rewrite mul_x_Z_iter_lxor, mul_x_Z_iter_pow2.
Qed.

Lemma gcm_reduce_table_length : length gcm_reduce_table = 256%nat.
Proof. reflexivity. Qed.

Definition reduce_entry_ok (m : Z) : bool :=
  let r := gcm_reduce_table !!! Z.to_nat m in
  (0 <=? r) && (r <? 2 ^ 16) && (Nat.iter 8 mul_x_Z m =? r * 256 ^ 14).

Lemma reduce_entries_ok : forallb reduce_entry_ok all_bytes = true.
Proof. vm_compute. reflexivity. Qed.

Lemma gcm_reduce_table_spec (m : Z) :
  is_byte m ->
  0 <= gcm_reduce_table !!! Z.to_nat m < 2 ^ 16
  /\ Nat.iter 8 mul_x_Z m = gcm_reduce_table !!! Z.to_nat m * 256 ^ 14.
Proof.
  intros Hm.
  pose proof (byte_cases _ reduce_entries_ok m Hm) as Hcheck.
  unfold reduce_entry_ok in Hcheck. cbv zeta in Hcheck.
  apply andb_true_iff in Hcheck as [Hcheck H3].
  apply andb_true_iff in Hcheck as [H1 H2].
  apply Z.leb_le in H1. apply Z.ltb_lt in H2. apply Z.eqb_eq in H3.
  split; [lia|exact H3].
Qed.

Lemma zip_with_lxor_zeros (xs : list Z) (n : nat) :
  length xs = n -> zip_with Z.lxor xs (replicate n 0) = xs.
Proof.
  revert n. induction xs as [|x xs IH]; intros n Hn.
  - now destruct n.
  - destruct n as [|n]; [discriminate|]. injection Hn as Hn.
    simpl. now rewrite Z.lxor_0_r, IH.
Qed.

Lemma be_decode_zeros (n : nat) : be_decode (replicate n 0) = 0.
Proof.
  induction n as [|n IH]; [reflexivity|].
  simpl replicate. rewrite be_decode_cons, IH. lia.
Qed.

Lemma block_last_byte (B : gcm_block) :
  wf_block B ->
  B = take 15 B ++ [B !!! 15%nat]
  /\ is_byte (B !!! 15%nat)
  /\ B !!! 15%nat = be_decode B mod 256
  /\ be_decode (take 15 B) = be_decode B / 256.
Proof.
  intros [Hlen HB].
  assert (Hsplit : B = take 15 B ++ [B !!! 15%nat]).
  { rewrite <- (take_drop 15 B) at 1. f_equal.
    do 16 (destruct B as [|? B]; [discriminate|]).
    destruct B; [reflexivity|discriminate]. }
  assert (Hb : is_byte (B !!! 15%nat)).
  { rewrite Hsplit in HB. apply Forall_app in HB as [_ HB].
    now inversion HB. }
  assert (Hval : be_decode B = be_decode (take 15 B) * 256 + B !!! 15%nat).
  { rewrite Hsplit at 1. rewrite be_decode_app.
    change (be_decode [B !!! 15%nat]) with (0 * 256 + B !!! 15%nat).
    change (256 ^ Z.of_nat (length [B !!! 15%nat])) with 256. lia. }
  unfold is_byte in Hb. repeat split; auto; try lia.
  - apply Z.mod_unique with (be_decode (take 15 B)); lia.
  - apply Z.div_unique with (B !!! 15%nat); lia.
Qed.

Lemma gcm_multiply_x_8_spec (g : gcm_statics) (B : gcm_block) :
  gcm_cached_reduce g = gcm_reduce_table ->
  wf_block B ->
  wf_block (gcm_multiply_x_8 g B)
  /\ be_decode (gcm_multiply_x_8 g B)
     = Z.lxor (be_decode B / 256)
         (gcm_reduce_table !!! Z.to_nat (be_decode B mod 256) * 256 ^ 14).
Proof.
  intros Hg HB. pose proof HB as [Hlen Hwf].
  destruct (block_last_byte B HB) as (Hsplit & Hb & Hmod & Hdiv).
  unfold gcm_multiply_x_8. rewrite Hg, <- Hmod, <- Hdiv.
  set (r := gcm_reduce_table !!! Z.to_nat (B !!! 15%nat)).
  destruct (gcm_reduce_table_spec _ Hb) as [Hr _]. fold r in Hr.
  set (shifted := 0 :: take 15 B).
  assert (Hsl : length shifted = 16%nat)
    by (unfold shifted; rewrite length_cons, length_take; lia).
  assert (Hswf : wf_bytes shifted).
  { unfold shifted. constructor; [unfold is_byte; lia|].
    now apply wf_bytes_take. }
  assert (Hzip : zip_with Z.lxor (take 2 shifted) (be_encode 2 r)
                   ++ drop 2 shifted
                 = zip_with Z.lxor shifted (be_encode 2 r ++ replicate 14 0)).
  { rewrite <- (take_drop 2 shifted) at 3.
    rewrite zip_with_app
      by (rewrite length_take, length_be_encode; lia).
    f_equal. rewrite zip_with_lxor_zeros; [reflexivity|].
    rewrite length_drop. lia. }
  rewrite Hzip.
  assert (Hewf : wf_bytes (be_encode 2 r ++ replicate 14 0)).
  { apply wf_bytes_app; [apply wf_be_encode|].
    apply Forall_replicate. unfold is_byte. lia. }
  split; [split|].
  - rewrite length_zip_with, Hsl, length_app, length_be_encode,
      length_replicate. reflexivity.
  - now apply wf_bytes_lxor.
  - rewrite be_decode_lxor; auto.
    replace (be_decode shifted) with (be_decode (take 15 B))
        by (unfold shifted; rewrite be_decode_cons; lia).
      rewrite be_decode_app, be_decode_encode, be_decode_zeros,
        length_replicate.
      change (256 ^ Z.of_nat 2) with (2 ^ 16).
      rewrite Z.mod_small by lia. change (Z.of_nat 14) with 14.
      now rewrite Z.add_0_r.
Qed.

(** C7.  Once [gcm_cache] has run, for whatever key, [gcm_multiply_x_8]
    maps every block to the block that eight successive applications of
    [gcm_multiply_x] produce. *)
Theorem gcm_multiply_x_8_eight_times (keyp : ptr) (H : gcm_block)
    (g : gcm_statics) (B : gcm_block) :
  statics_wf g ->
  wf_block B ->
  gcm_multiply_x_8 (gcm_cache keyp H g) B = Nat.iter 8 gcm_multiply_x B.
Proof.
  intros Hg HB.
  assert (Hred : gcm_cached_reduce (gcm_cache keyp H g) = gcm_reduce_table)
    by (now rewrite gcm_cache_tables).
  destruct (gcm_multiply_x_8_spec _ B Hred HB) as [[Hl8 Hwf8] Hval8].
  destruct (gcm_multiply_x_iter 8 B HB) as [[Hli Hwfi] Hvali].
  apply be_decode_inj; auto; [congruence|].
  rewrite Hval8, Hvali, mul_x_Z_eight. f_equal.
  symmetry. apply gcm_reduce_table_spec.
  unfold is_byte. apply Z.mod_pos_bound. lia.
Qed.

Lemma wf_hex_block (v : Z) : wf_block (hex_block v).
Proof. split; [apply length_be_encode|apply wf_be_encode]. Qed.

Lemma gcm_multiply_x_8_eight_times_witness :
  gcm_multiply_x_8 (gcm_cache 48 zero_block gcm_statics_bss)
    (hex_block 0x000102030405060708090a0b0c0d0eff)
  = Nat.iter 8 gcm_multiply_x (hex_block 0x000102030405060708090a0b0c0d0eff).
Proof.
  apply gcm_multiply_x_8_eight_times;
    [exact statics_wf_bss|apply wf_hex_block].
Defined.

Example gcm_multiply_x_8_example :
  gcm_multiply_x_8 (gcm_cache 48 zero_block gcm_statics_bss)
    (hex_block 0x000102030405060708090a0b0c0d0e01)
  = hex_block 0x01c20102030405060708090a0b0c0d0e.
Proof. vm_compute. reflexivity. Qed.

(** ** Multiplication by the hash key *)

(** Shoup's method over the tables held in the statics. *)
Definition shoup (g : gcm_statics) (poly : gcm_block) : gcm_block :=
  fold_left
    (fun res byte =>
       gcm_xor_block (gcm_cached_mult g !!! Z.to_nat byte)
         (gcm_multiply_x_8 g res))
    (rev (take 15 poly))
    (gcm_cached_mult g !!! Z.to_nat (poly !!! 15%nat)).

Lemma gcm_multiply_key_unfold (keyp : ptr) (H poly : gcm_block)
    (g : gcm_statics) :
  gcm_multiply_key keyp H poly g
  = let g' := if decide (gcm_cached_key g = Some keyp) then g
              else gcm_cache keyp H g in
    (shoup g' poly, g').
Proof. reflexivity. Qed.

(** The statics once the tables for the key [H] stored at [keyp] have
    been built. *)
Definition statics_at (keyp : ptr) (H : gcm_block) : gcm_statics :=
  mk_statics (Some keyp) (gcm_mult_table H) gcm_reduce_table.

(** The product of [poly] and the hash key [H]. *)
Definition gcm_mult_H (H poly : gcm_block) : gcm_block :=
  shoup (statics_at 0 H) poly.

(** The statics are consistent with the key [H] being stored at [keyp]:
    if the cache is attributed to [keyp], it holds the tables of [H]. *)
Definition statics_for (keyp : ptr) (H : gcm_block) (g : gcm_statics) : Prop :=
  statics_wf g
  /\ (gcm_cached_key g = Some keyp ->
      gcm_cached_mult g = gcm_mult_table H
      /\ gcm_cached_reduce g = gcm_reduce_table).

Lemma shoup_tables (g1 g2 : gcm_statics) (poly : gcm_block) :
  gcm_cached_mult g1 = gcm_cached_mult g2 ->
  gcm_cached_reduce g1 = gcm_cached_reduce g2 ->
  shoup g1 poly = shoup g2 poly.
Proof.
  intros Hm Hr. unfold shoup, gcm_multiply_x_8. now rewrite Hm, Hr.
Qed.

Lemma statics_wf_at (keyp : ptr) (H : gcm_block) :
  statics_wf (statics_at keyp H).
Proof.
  unfold statics_wf, statics_at. cbn [gcm_cached_mult gcm_cached_reduce].
  split; [apply gcm_mult_table_length|].
  split; [reflexivity|].
  split; [apply gcm_mult_table_0|reflexivity].
Qed.

Lemma statics_for_at (keyp : ptr) (H : gcm_block) :
  statics_for keyp H (statics_at keyp H).
Proof. split; [apply statics_wf_at|]. intros _. now split. Qed.

Lemma statics_for_cache (keyp : ptr) (H : gcm_block) (g : gcm_statics) :
  statics_wf g -> statics_for keyp H (gcm_cache keyp H g).
Proof.
  intros Hg. rewrite gcm_cache_tables by exact Hg. apply statics_for_at.
Qed.

Lemma gcm_multiply_key_at (keyp : ptr) (H poly : gcm_block) :
  gcm_multiply_key keyp H poly (statics_at keyp H)
  = (gcm_mult_H H poly, statics_at keyp H).
Proof.
  rewrite gcm_multiply_key_unfold.
  rewrite decide_True by reflexivity. cbv zeta. unfold gcm_mult_H.
  rewrite (shoup_tables (statics_at keyp H) (statics_at 0 H))
    by (cbn [gcm_cached_mult gcm_cached_reduce statics_at]; reflexivity).
  reflexivity.
Qed.

Lemma gcm_multiply_key_for (keyp : ptr) (H poly : gcm_block)
    (g : gcm_statics) :
  statics_for keyp H g ->
  fst (gcm_multiply_key keyp H poly g) = gcm_mult_H H poly
  /\ statics_for keyp H (snd (gcm_multiply_key keyp H poly g)).
Proof.
  intros [Hwf Hfor]. rewrite gcm_multiply_key_unfold. cbv zeta.
  destruct (decide (gcm_cached_key g = Some keyp)) as [Heq|Hne];
    cbn [fst snd].
  - destruct (Hfor Heq) as [Hm Hr]. split; [|now split].
    unfold gcm_mult_H. apply shoup_tables; [exact Hm|exact Hr].
  - rewrite gcm_cache_tables by exact Hwf.
    split; [|apply statics_for_at].
    unfold gcm_mult_H.
    apply shoup_tables; cbn [gcm_cached_mult gcm_cached_reduce statics_at];
      reflexivity.
Qed.

(** *** Well-formedness of products *)

Section table_fill_invariant.
Context {A : Type} `{Inhabited A}.
Variable f : nat -> A -> A.
Variable P : A -> Prop.
Hypothesis f_P : forall i e, P e -> P (f i e).

Lemma fill_Forall (ixs : list nat) (t : list A) :
  forallb (fun i => (other_of i <? length t)%nat) ixs = true ->
  Forall P t -> Forall P (fold_left (fill_step f) ixs t).
Proof.
  revert t. induction ixs as [|i ixs IH]; intros t Hix Ht; [exact Ht|].
  cbn [forallb] in Hix. apply andb_true_iff in Hix as [Hi Hix].
  apply Nat.ltb_lt in Hi. cbn [fold_left]. apply IH.
  - now rewrite fill_step_length.
  - unfold fill_step. apply Forall_insert; [exact Ht|].
    apply f_P. rewrite Forall_lookup in Ht.
    apply (Ht (other_of i)). now apply list_lookup_lookup_total_lt.
Qed.
End table_fill_invariant.

Lemma wf_gcm_xor_block (x y : gcm_block) :
  wf_block x -> wf_block y -> wf_block (gcm_xor_block x y).
Proof.
  intros [Hlx Hx] [Hly Hy]. unfold gcm_xor_block.
  rewrite !firstn_all2 by lia. split.
  - rewrite length_zip_with. lia.
  - now apply wf_bytes_lxor.
Qed.

Lemma others_in_range :
  forallb (fun i => (other_of i <? 256)%nat) (seq 1 255) = true.
Proof. vm_compute. reflexivity. Qed.

Lemma gcm_mult_table_wf (H : gcm_block) :
  wf_block H -> Forall wf_block (gcm_mult_table H).
Proof.
  intros HH. unfold gcm_mult_table. apply fill_Forall.
  - intros i e He. unfold mult_entry.
    destruct (Z.land _ _ =? 0); [now apply gcm_multiply_x_spec|].
    change (gcm_xor H e 16) with (gcm_xor_block e H).
    now apply wf_gcm_xor_block.
  - rewrite length_replicate. exact others_in_range.
  - apply Forall_replicate, wf_zero_block.
Qed.

Lemma gcm_mult_table_lookup_wf (H : gcm_block) (b : Z) :
  wf_block H -> is_byte b -> wf_block (gcm_mult_table H !!! Z.to_nat b).
Proof.
  intros HH Hb. pose proof (gcm_mult_table_wf H HH) as Hall.
  rewrite Forall_lookup in Hall. apply (Hall (Z.to_nat b)).
  apply list_lookup_lookup_total_lt.
  rewrite gcm_mult_table_length. unfold is_byte in Hb. lia.
Qed.

Lemma statics_at_mult (keyp : ptr) (H : gcm_block) :
  gcm_cached_mult (statics_at keyp H) = gcm_mult_table H.
Proof. reflexivity. Qed.

Lemma statics_at_reduce (keyp : ptr) (H : gcm_block) :
  gcm_cached_reduce (statics_at keyp H) = gcm_reduce_table.
Proof. reflexivity. Qed.

Lemma shoup_fold_wf (M : list gcm_block) (g : gcm_statics) (bs : list Z)
    (acc : gcm_block) :
  (forall b, is_byte b -> wf_block (M !!! Z.to_nat b)) ->
  gcm_cached_reduce g = gcm_reduce_table ->
  wf_bytes bs -> wf_block acc ->
  wf_block (fold_left
              (fun res byte =>
                 gcm_xor_block (M !!! Z.to_nat byte) (gcm_multiply_x_8 g res))
              bs acc).
Proof.
  intros HM Hr Hbs. revert acc.
  induction Hbs as [|b bs Hb _ IH]; intros acc Hacc; [exact Hacc|].
  cbn [fold_left]. apply IH.
  destruct (gcm_multiply_x_8_spec g acc Hr Hacc) as [Hw _].
  pose proof (HM b Hb) as Hmb.
  revert Hw Hmb. generalize (gcm_multiply_x_8 g acc) (M !!! Z.to_nat b).
  intros x y Hx Hy. now apply wf_gcm_xor_block.
Qed.

Lemma shoup_wf (g : gcm_statics) (H poly : gcm_block) :
  gcm_cached_mult g = gcm_mult_table H ->
  gcm_cached_reduce g = gcm_reduce_table ->
  wf_block H -> wf_block poly -> wf_block (shoup g poly).
Proof.
  intros Hm Hr HH Hpoly. unfold shoup. rewrite Hm.
  destruct (block_last_byte poly Hpoly) as (_ & Hb & _ & _).
  apply shoup_fold_wf.
  - intros b Hb'. now apply gcm_mult_table_lookup_wf.
  - exact Hr.
  - apply Forall_rev, wf_bytes_take, Hpoly.
  - now apply gcm_mult_table_lookup_wf.
Qed.

Lemma gcm_mult_H_wf (H poly : gcm_block) :
  wf_block H -> wf_block poly -> wf_block (gcm_mult_H H poly).
Proof.
  intros HH Hpoly. unfold gcm_mult_H.
  exact (shoup_wf (statics_at 0 H) H poly (statics_at_mult 0 H)
           (statics_at_reduce 0 H) HH Hpoly).
Qed.

(** ** The processing loop *)

Lemma gcm_process_loop_fuel (f1 f2 : nat) (context : ptr) (c : gcm_context)
    (src : option (list Z)) (dst : bool) (hsrc : hash_ptr) (n : nat)
    (out : list Z) (g : gcm_statics) :
  (n <= f1)%nat -> (n <= f2)%nat ->
  gcm_process_loop f1 context c src dst hsrc n out g
  = gcm_process_loop f2 context c src dst hsrc n out g.
Proof.
  revert f2 c src hsrc n out g.
  induction f1 as [|f1 IH]; intros f2 c src hsrc n out g H1 H2.
  - assert (n = 0%nat) as -> by lia. now destruct f2.
  - destruct f2 as [|f2].
    + assert (n = 0%nat) as -> by lia. reflexivity.
    + cbn [gcm_process_loop].
      destruct (Nat.eqb_spec n 0) as [|Hn]; [reflexivity|].
      set (frag_len := if (16 <? n)%nat then 16%nat else n).
      assert (Hf : (1 <= frag_len)%nat)
        by (unfold frag_len; destruct (16 <? n)%nat; lia).
      destruct (gcm_process_frag context c src dst hsrc frag_len g)
        as [[c' w] g'].
      apply IH; lia.
Qed.

(** The loop body and the loop with the statics left out: products with
    the hash key are taken from [gcm_mult_H]. *)
Definition process_frag_pure (c : gcm_context) (src : option (list Z))
    (dst : bool) (hsrc : hash_ptr) (frag_len : nat)
    : gcm_context * list Z :=
  let '(c, written) :=
    if dst then
      let c := set_ctr c (gcm_count (ctr c) 1) in
      let tmp := cipher_encrypt (raw_cipher c) (raw_ctx c) (ctr c) in
      (c, gcm_xor (default [] src) tmp frag_len)
    else (c, []) in
  let hfrag := match hsrc with
               | hash_is_dst => written
               | hash_input buf => buf
               end in
  let h := gcm_xor hfrag (hash c) frag_len ++ drop frag_len (hash c) in
  (set_hash c (gcm_mult_H (key c) h), written).

Fixpoint process_loop_pure (fuel : nat) (c : gcm_context)
    (src : option (list Z)) (dst : bool) (hsrc : hash_ptr) (n : nat)
    (out : list Z) : gcm_context * list Z :=
  match fuel with
  | O => (c, out)
  | S fuel' =>
      if (n =? 0)%nat then (c, out)
      else
        let frag_len := if (16 <? n)%nat then 16%nat else n in
        let '(c, written) := process_frag_pure c src dst hsrc frag_len in
        let src := if dst then drop frag_len <$> src else src in
        process_loop_pure fuel' c src dst (hash_advance frag_len hsrc)
          (n - frag_len) (out ++ written)
  end.

Lemma process_frag_pure_key (c : gcm_context) (src : option (list Z))
    (dst : bool) (hsrc : hash_ptr) (frag_len : nat) :
  let c' := fst (process_frag_pure c src dst hsrc frag_len) in
  key c' = key c /\ raw_cipher c' = raw_cipher c /\ raw_ctx c' = raw_ctx c
  /\ len c' = len c.
Proof. unfold process_frag_pure. destruct dst; cbn; auto. Qed.

Lemma gcm_process_frag_pure (context : ptr) (c : gcm_context)
    (src : option (list Z)) (dst : bool) (hsrc : hash_ptr) (frag_len : nat)
    (g : gcm_statics) :
  statics_for (key_addr context) (key c) g ->
  exists g',
    gcm_process_frag context c src dst hsrc frag_len g
    = (fst (process_frag_pure c src dst hsrc frag_len),
       snd (process_frag_pure c src dst hsrc frag_len), g')
    /\ statics_for (key_addr context) (key c) g'.
Proof.
  intros Hg. unfold gcm_process_frag, process_frag_pure.
  set (cw := if dst then _ else _).
  assert (Hk : key (fst cw) = key c) by (unfold cw; destruct dst; reflexivity).
  destruct cw as [c1 w]. cbn [fst] in Hk.
  set (h := _ ++ _). rewrite <- Hk in Hg.
  destruct (gcm_multiply_key_for (key_addr context) (key c1) h g Hg)
    as [Hm Hg'].
  destruct (gcm_multiply_key (key_addr context) (key c1) h g) as [h' g'].
  cbn [fst snd] in *. exists g'. rewrite Hm, <- Hk. now split.
Qed.

Lemma gcm_process_loop_pure (fuel : nat) (context : ptr) (c : gcm_context)
    (src : option (list Z)) (dst : bool) (hsrc : hash_ptr) (n : nat)
    (out : list Z) (g : gcm_statics) :
  statics_for (key_addr context) (key c) g ->
  exists g',
    gcm_process_loop fuel context c src dst hsrc n out g
    = (fst (process_loop_pure fuel c src dst hsrc n out),
       snd (process_loop_pure fuel c src dst hsrc n out), g')
    /\ statics_for (key_addr context) (key c) g'
    /\ key (fst (process_loop_pure fuel c src dst hsrc n out)) = key c.
Proof.
  revert c src hsrc n out g.
  induction fuel as [|fuel IH]; intros c src hsrc n out g Hg.
  - exists g. cbn. auto.
  - cbn [gcm_process_loop process_loop_pure].
    destruct (n =? 0)%nat; [exists g; cbn; auto|].
    set (frag_len := if (16 <? n)%nat then 16%nat else n).
    destruct (gcm_process_frag_pure context c src dst hsrc frag_len g Hg)
      as (g1 & Hfrag & Hg1).
    rewrite Hfrag.
    pose proof (process_frag_pure_key c src dst hsrc frag_len) as (Hk & _).
    destruct (process_frag_pure c src dst hsrc frag_len) as [c1 w].
    cbn [fst snd] in *. rewrite <- Hk in Hg1.
    destruct (IH c1 (if dst then drop frag_len <$> src else src)
                (hash_advance frag_len hsrc) (n - frag_len)%nat (out ++ w)
                g1 Hg1) as (g' & Hloop & Hg' & Hk').
    exists g'. rewrite Hloop. rewrite Hk in Hg', Hk'. auto.
Qed.

Definition hash_take (n : nat) (hsrc : hash_ptr) : hash_ptr :=
  match hsrc with
  | hash_is_dst => hash_is_dst
  | hash_input buf => hash_input (take n buf)
  end.

Definition src_advance (dst : bool) (n : nat) (src : option (list Z))
    : option (list Z) :=
  if dst then drop n <$> src else src.

Lemma process_loop_pure_fuel (f1 f2 : nat) (c : gcm_context)
    (src : option (list Z)) (dst : bool) (hsrc : hash_ptr) (n : nat)
    (out : list Z) :
  (n <= f1)%nat -> (n <= f2)%nat ->
  process_loop_pure f1 c src dst hsrc n out
  = process_loop_pure f2 c src dst hsrc n out.
Proof.
  revert f2 c src hsrc n out.
  induction f1 as [|f1 IH]; intros f2 c src hsrc n out H1 H2.
  - assert (n = 0%nat) as -> by lia. now destruct f2.
  - destruct f2 as [|f2].
    + assert (n = 0%nat) as -> by lia. reflexivity.
    + cbn [process_loop_pure].
      destruct (Nat.eqb_spec n 0) as [|Hn]; [reflexivity|].
      set (frag_len := if (16 <? n)%nat then 16%nat else n).
      assert (Hf : (1 <= frag_len)%nat)
        by (unfold frag_len; destruct (16 <? n)%nat; lia).
      destruct (process_frag_pure c src dst hsrc frag_len) as [c' w].
      apply IH; lia.
Qed.

(** A full block at the head of the input: one iteration on 16 bytes. *)
Lemma process_loop_pure_block (fuel : nat) (c : gcm_context)
    (src : option (list Z)) (dst : bool) (hsrc : hash_ptr) (n : nat)
    (out : list Z) :
  (16 + n <= fuel)%nat ->
  process_loop_pure fuel c src dst hsrc (16 + n) out
  = let '(c', w) := process_frag_pure c src dst hsrc 16 in
    process_loop_pure n c' (src_advance dst 16 src) dst
      (hash_advance 16 hsrc) n (out ++ w).
Proof.
  intros Hfuel. destruct fuel as [|fuel]; [lia|].
  cbn [process_loop_pure].
  destruct (Nat.eqb_spec (16 + n) 0) as [|_]; [lia|].
  assert (Hfrag : (if (16 <? 16 + n)%nat then 16%nat else (16 + n)%nat)
                  = 16%nat).
  { destruct (Nat.ltb_spec 16 (16 + n)); lia. }
  rewrite Hfrag.
  destruct (process_frag_pure c src dst hsrc 16) as [c' w].
  replace (16 + n - 16)%nat with n by lia.
  apply process_loop_pure_fuel; lia.
Qed.

(** An iteration reads only the first [frag_len] bytes of its inputs. *)
Lemma process_frag_pure_prefix (c : gcm_context) (src : option (list Z))
    (dst : bool) (hsrc : hash_ptr) (frag_len m : nat) :
  (frag_len <= m)%nat ->
  process_frag_pure c (take m <$> src) dst (hash_take m hsrc) frag_len
  = process_frag_pure c src dst hsrc frag_len.
Proof.
  intros Hm. unfold process_frag_pure.
  assert (Hsrc : forall tmp,
             gcm_xor (default [] (take m <$> src)) tmp frag_len
             = gcm_xor (default [] src) tmp frag_len).
  { intros tmp. unfold gcm_xor. destruct src as [s|]; cbn; [|reflexivity].
    now rewrite take_take, Nat.min_l by lia. }
  destruct dst.
  - rewrite Hsrc. destruct hsrc as [|buf]; cbn [hash_take]; [reflexivity|].
    unfold gcm_xor. now rewrite take_take, Nat.min_l by lia.
  - destruct hsrc as [|buf]; cbn [hash_take]; [reflexivity|].
    unfold gcm_xor. now rewrite take_take, Nat.min_l by lia.
Qed.

Lemma src_advance_take (dst : bool) (n m : nat) (src : option (list Z)) :
  src_advance dst n (take (n + m) <$> src)
  = (if dst then take m <$> src_advance dst n src else take (n + m) <$> src).
Proof.
  unfold src_advance. destruct dst; [|reflexivity].
  destruct src as [s|]; cbn; [|reflexivity].
  f_equal. symmetry. apply take_drop_commute.
Qed.

Lemma hash_advance_take (n m : nat) (hsrc : hash_ptr) :
  hash_advance n (hash_take (n + m) hsrc) = hash_take m (hash_advance n hsrc).
Proof.
  destruct hsrc as [|buf]; cbn; [reflexivity|].
  f_equal. symmetry. apply take_drop_commute.
Qed.

(** When [dst] is null the loop never looks at the bytes of [src]. *)
Lemma process_loop_pure_nodst (fuel : nat) (c : gcm_context)
    (src src' : option (list Z)) (hsrc : hash_ptr) (n : nat) (out : list Z) :
  process_loop_pure fuel c src false hsrc n out
  = process_loop_pure fuel c src' false hsrc n out.
Proof.
  revert c hsrc n out.
  induction fuel as [|fuel IH]; intros c hsrc n out; [reflexivity|].
  cbn [process_loop_pure]. destruct (n =? 0)%nat; [reflexivity|].
  unfold process_frag_pure at 1 2. apply IH.
Qed.

(** Splitting the input after [k] full blocks. *)
Lemma process_loop_pure_split (k : nat) (c : gcm_context)
    (src : option (list Z)) (dst : bool) (hsrc : hash_ptr) (m : nat)
    (out : list Z) :
  process_loop_pure (16 * k + m) c src dst hsrc (16 * k + m) out
  = let '(c1, out1) :=
      process_loop_pure (16 * k) c (take (16 * k) <$> src) dst
        (hash_take (16 * k) hsrc) (16 * k) out in
    process_loop_pure m c1 (src_advance dst (16 * k) src) dst
      (hash_advance (16 * k) hsrc) m out1.
Proof.
  revert c src hsrc out.
  induction k as [|k IH]; intros c src hsrc out.
  - cbn [Nat.mul Nat.add process_loop_pure].
    replace (src_advance dst 0 src) with src
      by (unfold src_advance; destruct dst, src; reflexivity).
    replace (hash_advance 0 hsrc) with hsrc by (now destruct hsrc).
    reflexivity.
  - replace (16 * S k + m)%nat with (16 + (16 * k + m))%nat by lia.
    replace (16 * S k)%nat with (16 + 16 * k)%nat by lia.
    rewrite !process_loop_pure_block by lia.
    rewrite (process_frag_pure_prefix c src dst hsrc 16 (16 + 16 * k))
      by lia.
    destruct (process_frag_pure c src dst hsrc 16) as [c' w].
    rewrite IH. rewrite hash_advance_take, src_advance_take.
    assert (Hfirst :
      process_loop_pure (16 * k) c'
        (if dst then take (16 * k) <$> src_advance dst 16 src
         else take (16 + 16 * k) <$> src) dst
        (hash_take (16 * k) (hash_advance 16 hsrc)) (16 * k) (out ++ w)
      = process_loop_pure (16 * k) c'
          (take (16 * k) <$> src_advance dst 16 src) dst
          (hash_take (16 * k) (hash_advance 16 hsrc)) (16 * k) (out ++ w)).
    { destruct dst; [reflexivity|apply process_loop_pure_nodst]. }
    rewrite Hfirst.
    destruct (process_loop_pure (16 * k) c' _ dst _ (16 * k) (out ++ w))
      as [c1 out1].
    assert (Hsrc : src_advance dst (16 * k) (src_advance dst 16 src)
                   = src_advance dst (16 + 16 * k) src).
    { unfold src_advance. destruct dst; [|reflexivity].
      destruct src as [s|]; cbn; [|reflexivity]. now rewrite drop_drop. }
    assert (Hh : hash_advance (16 * k) (hash_advance 16 hsrc)
                 = hash_advance (16 + 16 * k) hsrc).
    { destruct hsrc as [|buf]; cbn; [reflexivity|]. now rewrite drop_drop. }
    now rewrite Hsrc, Hh.
Qed.

(** The update of the total length that opens [gcm_process]. *)
Definition add_length (src : option (list Z)) (l : gcm_lengths) (n : nat)
    : gcm_lengths :=
  let bits := size_t (Z.of_nat n * 8) in
  match src with
  | Some _ => mk_lengths (add l) (u64 (data l + bits))
  | None => mk_lengths (u64 (add l + bits)) (data l)
  end.

Definition process_pure (c : gcm_context) (src : option (list Z))
    (dst : bool) (hsrc : hash_ptr) (n : nat) : gcm_context * list Z :=
  process_loop_pure n (set_len c (add_length src (len c) n)) src dst hsrc n [].

Lemma gcm_process_unfold (context : ptr) (c : gcm_context)
    (src : option (list Z)) (dst : bool) (hsrc : hash_ptr) (n : nat)
    (g : gcm_statics) :
  gcm_process context c src dst hsrc n g
  = gcm_process_loop n context (set_len c (add_length src (len c) n))
      src dst hsrc n [] g.
Proof. unfold gcm_process, add_length. now destruct src. Qed.

Lemma process_loop_pure_key (fuel : nat) (c : gcm_context)
    (src : option (list Z)) (dst : bool) (hsrc : hash_ptr) (n : nat)
    (out : list Z) :
  let c' := fst (process_loop_pure fuel c src dst hsrc n out) in
  key c' = key c /\ raw_cipher c' = raw_cipher c /\ raw_ctx c' = raw_ctx c
  /\ len c' = len c.
Proof.
  revert c src hsrc n out.
  induction fuel as [|fuel IH]; intros c src hsrc n out; [cbn; auto|].
  cbn [process_loop_pure]. destruct (n =? 0)%nat; [cbn; auto|].
  set (frag_len := if (16 <? n)%nat then 16%nat else n).
  pose proof (process_frag_pure_key c src dst hsrc frag_len)
    as (Hk & Hc & Hx & Hl).
  destruct (process_frag_pure c src dst hsrc frag_len) as [c1 w].
  cbn [fst] in Hk, Hc, Hx, Hl.
  rewrite <- Hk, <- Hc, <- Hx, <- Hl. apply IH.
Qed.

Lemma gcm_process_pure (context : ptr) (c : gcm_context)
    (src : option (list Z)) (dst : bool) (hsrc : hash_ptr) (n : nat)
    (g : gcm_statics) :
  statics_for (key_addr context) (key c) g ->
  exists g',
    gcm_process context c src dst hsrc n g
    = (fst (process_pure c src dst hsrc n),
       snd (process_pure c src dst hsrc n), g')
    /\ statics_for (key_addr context) (key c) g'
    /\ key (fst (process_pure c src dst hsrc n)) = key c.
Proof.
  intros Hg. rewrite gcm_process_unfold. unfold process_pure.
  apply (gcm_process_loop_pure n context
           (set_len c (add_length src (len c) n)) src dst hsrc n [] g Hg).
Qed.

(** The loop neither reads nor writes the length field. *)
Lemma process_frag_pure_set_len (c : gcm_context) (l : gcm_lengths)
    (src : option (list Z)) (dst : bool) (hsrc : hash_ptr) (frag_len : nat) :
  process_frag_pure (set_len c l) src dst hsrc frag_len
  = (set_len (fst (process_frag_pure c src dst hsrc frag_len)) l,
     snd (process_frag_pure c src dst hsrc frag_len)).
Proof. unfold process_frag_pure. destruct dst; reflexivity. Qed.

Lemma process_loop_pure_set_len (fuel : nat) (c : gcm_context)
    (l : gcm_lengths) (src : option (list Z)) (dst : bool) (hsrc : hash_ptr)
    (n : nat) (out : list Z) :
  process_loop_pure fuel (set_len c l) src dst hsrc n out
  = (set_len (fst (process_loop_pure fuel c src dst hsrc n out)) l,
     snd (process_loop_pure fuel c src dst hsrc n out)).
Proof.
  revert c src hsrc n out.
  induction fuel as [|fuel IH]; intros c src hsrc n out; [reflexivity|].
  cbn [process_loop_pure]. destruct (n =? 0)%nat; [reflexivity|].
  rewrite process_frag_pure_set_len.
  destruct (process_frag_pure c src dst hsrc _) as [c1 w]. cbn [fst snd].
  apply IH.
Qed.

(** The bytes written so far are only ever appended to. *)
Lemma process_loop_pure_out (fuel : nat) (c : gcm_context)
    (src : option (list Z)) (dst : bool) (hsrc : hash_ptr) (n : nat)
    (out : list Z) :
  process_loop_pure fuel c src dst hsrc n out
  = (fst (process_loop_pure fuel c src dst hsrc n []),
     out ++ snd (process_loop_pure fuel c src dst hsrc n [])).
Proof.
  revert c src hsrc n out.
  induction fuel as [|fuel IH]; intros c src hsrc n out.
  - cbn. now rewrite app_nil_r.
  - cbn [process_loop_pure]. destruct (n =? 0)%nat.
    + cbn. now rewrite app_nil_r.
    + destruct (process_frag_pure c src dst hsrc _) as [c1 w].
      rewrite IH. rewrite (IH _ _ _ _ ([] ++ w)). cbn [fst snd].
      now rewrite app_nil_l, app_assoc.
Qed.

Lemma add_length_add (src : option (list Z)) (l : gcm_lengths) (n m : nat) :
  add_length src (add_length src l n) m = add_length src l (n + m).
Proof.
  assert (Hsum : forall x,
    u64 (u64 (x + size_t (Z.of_nat n * 8)) + size_t (Z.of_nat m * 8))
    = u64 (x + size_t (Z.of_nat (n + m) * 8))).
  { intros x. unfold u64, size_t.
    set (A := Z.of_nat n * 8). set (B := Z.of_nat m * 8).
    replace (Z.of_nat (n + m) * 8) with (A + B) by (unfold A, B; lia).
    rewrite Z.add_mod_idemp_l, !Z.add_mod_idemp_r by lia.
    replace (x + A mod 2 ^ 64 + B) with (x + B + A mod 2 ^ 64) by lia.
    rewrite Z.add_mod_idemp_r by lia. f_equal. lia. }
  unfold add_length. destruct src; cbn [add data]; now rewrite Hsum.
Qed.

(** ** Calls *)

(** The four ways [gcm_process] is called: additional data (from
    [gcm_encrypt] or [gcm_decrypt] with a null [dst]), data whose output
    is hashed (from [gcm_encrypt], and from [gcm_decrypt] in place), data
    whose input is hashed (from [gcm_decrypt] with an output buffer of its
    own), and an initialisation vector (from [gcm_setiv]). *)
Inductive gcm_mode := mode_aad | mode_encrypt | mode_decrypt | mode_iv.

Definition mode_src (m : gcm_mode) (d : list Z) : option (list Z) :=
  match m with mode_aad => None | _ => Some d end.

Definition mode_dst (m : gcm_mode) : bool :=
  match m with mode_encrypt | mode_decrypt => true | _ => false end.

Definition mode_hash (m : gcm_mode) (d : list Z) : hash_ptr :=
  match m with mode_encrypt => hash_is_dst | _ => hash_input d end.

Definition call_pure (m : gcm_mode) (c : gcm_context) (d : list Z)
    : gcm_context * list Z :=
  process_pure c (mode_src m d) (mode_dst m) (mode_hash m d) (length d).

(** The way [gcm_encrypt] ([decrypt] false) and [gcm_decrypt] ([decrypt]
    true) call [gcm_process], by where [dst] points. *)
Definition crypt_mode (decrypt : bool) (dst : dst_ptr) : gcm_mode :=
  match dst with
  | dst_null => mode_aad
  | dst_buffer => if decrypt then mode_decrypt else mode_encrypt
  | dst_src => mode_encrypt
  end.

Lemma gcm_encrypt_pure (context : ptr) (c : gcm_context) (src : list Z)
    (dst : dst_ptr) (g : gcm_statics) :
  statics_for (key_addr context) (key c) g ->
  let m := crypt_mode false dst in
  exists g',
    gcm_encrypt context c src dst (length src) g
    = (fst (call_pure m c src), snd (call_pure m c src), g')
    /\ statics_for (key_addr context) (key c) g'
    /\ key (fst (call_pure m c src)) = key c.
Proof.
  intros Hg. unfold gcm_encrypt, call_pure.
  destruct dst; cbn [crypt_mode dst_given mode_src mode_dst mode_hash];
    now apply gcm_process_pure.
Qed.

Lemma gcm_decrypt_pure (context : ptr) (c : gcm_context) (src : list Z)
    (dst : dst_ptr) (g : gcm_statics) :
  statics_for (key_addr context) (key c) g ->
  let m := crypt_mode true dst in
  exists g',
    gcm_decrypt context c src dst (length src) g
    = (fst (call_pure m c src), snd (call_pure m c src), g')
    /\ statics_for (key_addr context) (key c) g'
    /\ key (fst (call_pure m c src)) = key c.
Proof.
  intros Hg. unfold gcm_decrypt, call_pure.
  destruct dst; cbn [crypt_mode dst_given mode_src mode_dst mode_hash];
    now apply gcm_process_pure.
Qed.

Lemma set_len_set_len (c : gcm_context) (l l' : gcm_lengths) :
  set_len (set_len c l) l' = set_len c l'.
Proof. reflexivity. Qed.

Lemma len_set_len (c : gcm_context) (l : gcm_lengths) : len (set_len c l) = l.
Proof. reflexivity. Qed.

Lemma add_length_mode (m : gcm_mode) (d d' : list Z) (l : gcm_lengths)
    (n : nat) :
  add_length (mode_src m d) l n = add_length (mode_src m d') l n.
Proof. now destruct m. Qed.

(** A call on [d1 ++ d2], where [d1] is a whole number of blocks, does
    what a call on [d1] followed by a call on [d2] does. *)
Lemma call_pure_app (m : gcm_mode) (c : gcm_context) (d1 d2 : list Z) :
  (length d1 mod 16 = 0)%nat ->
  call_pure m c (d1 ++ d2)
  = let '(c1, o1) := call_pure m c d1 in
    let '(c2, o2) := call_pure m c1 d2 in
    (c2, o1 ++ o2).
Proof.
  intros Hal.
  assert (Hk : exists k, length d1 = (16 * k)%nat).
  { exists (length d1 / 16)%nat.
    pose proof (Nat.div_mod_eq (length d1) 16). lia. }
  destruct Hk as [k Hk].
  unfold call_pure, process_pure.
  rewrite length_app, Hk, !process_loop_pure_set_len.
  rewrite process_loop_pure_split.
  assert (Hsrc1 : take (16 * k) <$> mode_src m (d1 ++ d2) = mode_src m d1).
  { rewrite <- Hk. destruct m; cbn [mode_src fmap option_fmap option_map];
      try reflexivity; now rewrite take_app_length. }
  assert (Hh1 : hash_take (16 * k) (mode_hash m (d1 ++ d2)) = mode_hash m d1).
  { rewrite <- Hk. destruct m; cbn [mode_hash hash_take];
      try reflexivity; now rewrite take_app_length. }
  assert (Hsrc2 : forall c' n out,
    process_loop_pure n c'
      (src_advance (mode_dst m) (16 * k) (mode_src m (d1 ++ d2)))
      (mode_dst m) (mode_hash m d2) n out
    = process_loop_pure n c' (mode_src m d2) (mode_dst m) (mode_hash m d2)
        n out).
  { intros c' n out. rewrite <- Hk.
    destruct m; cbn [mode_dst mode_src src_advance fmap option_fmap
                       option_map];
      try reflexivity; try apply process_loop_pure_nodst;
      now rewrite drop_app_length. }
  assert (Hh2 : hash_advance (16 * k) (mode_hash m (d1 ++ d2))
                = mode_hash m d2).
  { rewrite <- Hk. destruct m; cbn [mode_hash hash_advance];
      try reflexivity; now rewrite drop_app_length. }
  rewrite Hsrc1, Hh1, Hh2.
  destruct (process_loop_pure (16 * k) c (mode_src m d1) (mode_dst m)
              (mode_hash m d1) (16 * k) []) as [c1 o1] eqn:H1.
  cbn [fst snd]. rewrite Hsrc2.
  rewrite len_set_len, set_len_set_len.
  rewrite (process_loop_pure_out _ c1 _ _ _ _ o1).
  cbn [fst snd].
  pose proof (process_loop_pure_key (16 * k) c (mode_src m d1) (mode_dst m)
                (mode_hash m d1) (16 * k) []) as (_ & _ & _ & Hl).
  rewrite H1 in Hl. cbn [fst] in Hl.
  rewrite (add_length_mode m d2 d1), add_length_add.
  now rewrite (add_length_mode m (d1 ++ d2) d1).
Qed.

(** ** Hash, tag and set-up with the statics left out *)

Definition hash_pure (c : gcm_context) : gcm_block :=
  gcm_mult_H (key c) (gcm_xor_block (hash c) (lengths_block (len c))).

Definition tag_pure (c : gcm_context) : gcm_block :=
  gcm_xor_block
    (cipher_encrypt (raw_cipher c) (raw_ctx c)
       (gcm_count (ctr c) (tag_offset (len c))))
    (hash_pure c).

Definition setiv_pure (c : gcm_context) (iv : list Z) : gcm_context :=
  let c := mk_context zero_block zero_lengths initial_counter (key c)
             (raw_cipher c) (raw_ctx c) in
  if (length iv =? 12)%nat then set_ctr c (iv ++ [0; 0; 0; 1])
  else
    let c := fst (call_pure mode_iv c iv) in
    mk_context zero_block zero_lengths (hash_pure c) (key c)
      (raw_cipher c) (raw_ctx c).

Definition setkey_pure (k : list Z) (cipher : cipher_algorithm)
    : Z * gcm_context :=
  let '(rc, rctx) := cipher_setkey cipher k in
  if negb (rc =? 0) then
    (rc, mk_context zero_block zero_lengths zero_block zero_block cipher rctx)
  else
    (0, mk_context zero_block zero_lengths initial_counter
          (cipher_encrypt cipher rctx zero_block) cipher rctx).

Lemma gcm_hash_pure (context : ptr) (c : gcm_context) (g : gcm_statics) :
  statics_for (key_addr context) (key c) g ->
  exists g',
    gcm_hash context c g = (hash_pure c, g')
    /\ statics_for (key_addr context) (key c) g'.
Proof.
  intros Hg. unfold gcm_hash, hash_pure.
  fold (lengths_block (len c)).
  set (h := gcm_xor_block (hash c) (lengths_block (len c))).
  destruct (gcm_multiply_key_for (key_addr context) (key c) h g Hg)
    as [Hm Hg'].
  destruct (gcm_multiply_key (key_addr context) (key c) h g) as [t g'].
  cbn [fst snd] in *. exists g'. now rewrite Hm.
Qed.

Lemma gcm_tag_pure (context : ptr) (c : gcm_context) (g : gcm_statics) :
  statics_for (key_addr context) (key c) g ->
  exists g',
    gcm_tag context c g = (tag_pure c, c, g')
    /\ statics_for (key_addr context) (key c) g'.
Proof.
  intros Hg. rewrite gcm_tag_unfold. cbv zeta. unfold tag_pure, hash_pure.
  set (h := gcm_xor_block (hash c) (lengths_block (len c))).
  destruct (gcm_multiply_key_for (key_addr context) (key c) h g Hg)
    as [Hm Hg'].
  exists (snd (gcm_multiply_key (key_addr context) (key c) h g)).
  now rewrite Hm.
Qed.

Lemma gcm_setiv_pure (context : ptr) (c : gcm_context) (iv : list Z)
    (g : gcm_statics) :
  statics_for (key_addr context) (key c) g ->
  exists g',
    gcm_setiv context c iv (length iv) g = (setiv_pure c iv, g')
    /\ statics_for (key_addr context) (key c) g'
    /\ key (setiv_pure c iv) = key c
    /\ raw_cipher (setiv_pure c iv) = raw_cipher c
    /\ raw_ctx (setiv_pure c iv) = raw_ctx c.
Proof.
  intros Hg. unfold gcm_setiv, setiv_pure.
  destruct (Nat.eqb_spec (length iv) 12) as [H12|H12].
  - exists g. rewrite firstn_all. cbn [set_ctr ctr key raw_cipher raw_ctx].
    rewrite H12. split; [reflexivity|]. split; [exact Hg|].
    repeat split; reflexivity.
  - set (c0 := set_ctr _ _).
    change (mk_context zero_block zero_lengths initial_counter (key c)
              (raw_cipher c) (raw_ctx c)) with c0.
    assert (Hg0 : statics_for (key_addr context) (key c0) g) by exact Hg.
    destruct (gcm_process_pure context c0 (Some iv) false (hash_input iv)
                (length iv) g Hg0) as (g1 & Hp & Hg1 & Hk1).
    rewrite Hp.
    pose proof (process_loop_pure_key (length iv)
                  (set_len c0 (add_length (Some iv) (len c0) (length iv)))
                  (Some iv) false (hash_input iv) (length iv) [])
      as (_ & Hc & Hx & _).
    fold (process_pure c0 (Some iv) false (hash_input iv) (length iv)) in Hc, Hx.
    change (process_pure c0 (Some iv) false (hash_input iv) (length iv))
      with (call_pure mode_iv c0 iv) in *.
    set (c1 := fst (call_pure mode_iv c0 iv)) in *.
    cbv beta iota zeta. rewrite <- Hk1 in Hg1.
    destruct (gcm_hash_pure context c1 g1 Hg1) as (g2 & Hh & Hg2).
    rewrite Hh. exists g2. cbn [set_ctr ctr key raw_cipher raw_ctx].
    rewrite Hk1 in Hg2 |- *. rewrite Hc, Hx.
    split; [reflexivity|]. split; [exact Hg2|]. repeat split; reflexivity.
Qed.

Lemma gcm_setkey_pure (context : ptr) (k : list Z) (cipher : cipher_algorithm)
    (g : gcm_statics) :
  statics_wf g ->
  exists g',
    gcm_setkey context k cipher g
    = (fst (setkey_pure k cipher), snd (setkey_pure k cipher), g')
    /\ (fst (setkey_pure k cipher) = 0 ->
        statics_for (key_addr context) (key (snd (setkey_pure k cipher))) g').
Proof.
  intros Hg. unfold gcm_setkey, setkey_pure.
  destruct (cipher_setkey cipher k) as [rc rctx].
  destruct (rc =? 0) eqn:Hrc; cbn [negb fst snd].
  - eexists. split; [reflexivity|]. intros _.
    cbn [key set_ctr]. now apply statics_for_cache.
  - exists g. split; [reflexivity|]. intros ->. discriminate.
Qed.

(** ** Sessions *)

(** One call of [gcm_encrypt] or [gcm_decrypt] on the buffer [call_src],
    with its whole length; [call_dst] tells whether [dst] is an output
    buffer, one that does not overlap [call_src], or null. *)
Record gcm_call := mk_call {
  call_decrypt : bool;
  call_src : list Z;
  call_dst : bool
}.

Definition call_dst_ptr (cl : gcm_call) : dst_ptr :=
  if call_dst cl then dst_buffer else dst_null.

Definition run_call (context : ptr) (c : gcm_context) (cl : gcm_call)
    (g : gcm_statics) : gcm_context * list Z * gcm_statics :=
  if call_decrypt cl
  then gcm_decrypt context c (call_src cl) (call_dst_ptr cl)
         (length (call_src cl)) g
  else gcm_encrypt context c (call_src cl) (call_dst_ptr cl)
         (length (call_src cl)) g.

(** Successive calls on one context; the outputs are listed per call. *)
Fixpoint run_calls (context : ptr) (c : gcm_context) (cls : list gcm_call)
    (g : gcm_statics) : gcm_context * list (list Z) * gcm_statics :=
  match cls with
  | [] => (c, [], g)
  | cl :: rest =>
      let '(c, out, g) := run_call context c cl g in
      let '(c, outs, g) := run_calls context c rest g in
      (c, out :: outs, g)
  end.

Definition call_mode (cl : gcm_call) : gcm_mode :=
  if call_dst cl
  then (if call_decrypt cl then mode_decrypt else mode_encrypt)
  else mode_aad.

Fixpoint calls_pure (c : gcm_context) (cls : list gcm_call)
    : gcm_context * list (list Z) :=
  match cls with
  | [] => (c, [])
  | cl :: rest =>
      let '(c, out) := call_pure (call_mode cl) c (call_src cl) in
      let '(c, outs) := calls_pure c rest in
      (c, out :: outs)
  end.

Lemma run_call_pure (context : ptr) (c : gcm_context) (cl : gcm_call)
    (g : gcm_statics) :
  statics_for (key_addr context) (key c) g ->
  exists g',
    run_call context c cl g
    = (fst (call_pure (call_mode cl) c (call_src cl)),
       snd (call_pure (call_mode cl) c (call_src cl)), g')
    /\ statics_for (key_addr context) (key c) g'
    /\ key (fst (call_pure (call_mode cl) c (call_src cl))) = key c.
Proof.
  intros Hg. unfold run_call, call_mode, call_dst_ptr.
  destruct cl as [dec src dst]. cbn [call_decrypt call_src call_dst].
  destruct dec.
  - destruct (gcm_decrypt_pure context c src
                (if dst then dst_buffer else dst_null) g Hg)
      as (g' & H1 & H2 & H3).
    exists g'. destruct dst; auto.
  - destruct (gcm_encrypt_pure context c src
                (if dst then dst_buffer else dst_null) g Hg)
      as (g' & H1 & H2 & H3).
    exists g'. destruct dst; auto.
Qed.

Lemma run_calls_pure (context : ptr) (c : gcm_context) (cls : list gcm_call)
    (g : gcm_statics) :
  statics_for (key_addr context) (key c) g ->
  exists g',
    run_calls context c cls g
    = (fst (calls_pure c cls), snd (calls_pure c cls), g')
    /\ statics_for (key_addr context) (key c) g'
    /\ key (fst (calls_pure c cls)) = key c.
Proof.
  revert c g. induction cls as [|cl rest IH]; intros c g Hg.
  - exists g. cbn. auto.
  - cbn [run_calls calls_pure].
    destruct (run_call_pure context c cl g Hg) as (g1 & H1 & Hg1 & Hk1).
    rewrite H1.
    destruct (call_pure (call_mode cl) c (call_src cl)) as [c1 o1].
    cbn [fst snd] in *. rewrite <- Hk1 in Hg1.
    destruct (IH c1 g1 Hg1) as (g2 & H2 & Hg2 & Hk2).
    rewrite H2. destruct (calls_pure c1 rest) as [c2 os].
    cbn [fst snd] in *. exists g2. rewrite Hk1 in Hg2, Hk2. auto.
Qed.

Lemma calls_pure_app (c : gcm_context) (l1 l2 : list gcm_call) :
  calls_pure c (l1 ++ l2)
  = let '(c1, os1) := calls_pure c l1 in
    let '(c2, os2) := calls_pure c1 l2 in
    (c2, os1 ++ os2).
Proof.
  revert c. induction l1 as [|cl l1 IH]; intros c.
  - cbn. now destruct (calls_pure c l2).
  - cbn [calls_pure app].
    destruct (call_pure (call_mode cl) c (call_src cl)) as [c1 o1].
    rewrite IH. destruct (calls_pure c1 l1) as [c2 os1].
    now destruct (calls_pure c2 l2).
Qed.

(** The calls that deliver the fragments [frags] one after the other. *)
Definition frag_calls (decrypt dst : bool) (frags : list (list Z))
    : list gcm_call :=
  map (fun f => mk_call decrypt f dst) frags.

(** Every fragment but the last is a whole number of 16-byte blocks. *)
Fixpoint aligned (frags : list (list Z)) : Prop :=
  match frags with
  | [] => True
  | [_] => True
  | f :: rest => (length f mod 16 = 0)%nat /\ aligned rest
  end.

Definition wf_lengths (l : gcm_lengths) : Prop :=
  0 <= add l < 2 ^ 64 /\ 0 <= data l < 2 ^ 64.

Lemma call_pure_nil (m : gcm_mode) (c : gcm_context) :
  wf_lengths (len c) -> call_pure m c [] = (c, []).
Proof.
  intros [Ha Hd]. unfold call_pure, process_pure. cbn [length process_loop_pure].
  f_equal. unfold add_length, size_t, u64.
  change (Z.of_nat 0 * 8) with 0. rewrite Zmod_0_l, !Z.add_0_r.
  rewrite !Z.mod_small by assumption.
  destruct c as [h [a d] y k rc rx]. now destruct m.
Qed.

Lemma calls_pure_frags (dec dst : bool) (c : gcm_context) (f : list Z)
    (frags : list (list Z)) :
  aligned (f :: frags) ->
  let m := call_mode (mk_call dec f dst) in
  let r := calls_pure c (frag_calls dec dst (f :: frags)) in
  fst r = fst (call_pure m c (concat (f :: frags)))
  /\ concat (snd r) = snd (call_pure m c (concat (f :: frags))).
Proof.
  revert c f. induction frags as [|f' frags IH]; intros c f Hal m r.
  - unfold r. cbn [frag_calls map calls_pure concat call_src].
    rewrite app_nil_r. fold m.
    destruct (call_pure m c f) as [c1 o1]. cbn. now rewrite app_nil_r.
  - destruct Hal as [Hf Hal]. unfold r.
    change (frag_calls dec dst (f :: f' :: frags))
      with (mk_call dec f dst :: frag_calls dec dst (f' :: frags)).
    cbn [calls_pure call_src]. fold m.
    change (concat (f :: f' :: frags)) with (f ++ concat (f' :: frags)).
    rewrite call_pure_app by exact Hf.
    destruct (call_pure m c f) as [c1 o1].
    specialize (IH c1 f' Hal). cbv zeta in IH.
    change (call_mode (mk_call dec f' dst)) with m in IH.
    destruct (calls_pure c1 (frag_calls dec dst (f' :: frags))) as [c2 os].
    destruct (call_pure m c1 (concat (f' :: frags))) as [c2' o2].
    cbn [fst snd concat] in *. destruct IH as [-> ->]. auto.
Qed.

Lemma calls_pure_frags_any (dec dst : bool) (c : gcm_context)
    (frags : list (list Z)) :
  wf_lengths (len c) -> aligned frags ->
  let m := call_mode (mk_call dec [] dst) in
  let r := calls_pure c (frag_calls dec dst frags) in
  fst r = fst (call_pure m c (concat frags))
  /\ concat (snd r) = snd (call_pure m c (concat frags)).
Proof.
  intros Hl Hal. destruct frags as [|f frags].
  - cbn [frag_calls map calls_pure concat fst snd].
    now rewrite call_pure_nil.
  - exact (calls_pure_frags dec dst c f frags Hal).
Qed.

Lemma wf_lengths_add_length (src : option (list Z)) (l : gcm_lengths)
    (n : nat) :
  wf_lengths l -> wf_lengths (add_length src l n).
Proof.
  intros [Ha Hd]. unfold add_length, wf_lengths, u64.
  destruct src; cbn [add data]; split; auto; apply Z.mod_pos_bound; lia.
Qed.

Lemma call_pure_len (m : gcm_mode) (c : gcm_context) (d : list Z) :
  len (fst (call_pure m c d)) = add_length (mode_src m d) (len c) (length d).
Proof.
  unfold call_pure, process_pure.
  pose proof (process_loop_pure_key (length d)
                (set_len c (add_length (mode_src m d) (len c) (length d)))
                (mode_src m d) (mode_dst m) (mode_hash m d) (length d) [])
    as (_ & _ & _ & Hl).
  exact Hl.
Qed.

(** A toy cipher for worked examples: the key schedule is the key itself
    (keys other than 16 bytes are refused with code 22) and a block is
    encrypted by XOR with the key. *)
Definition xor_cipher : cipher_algorithm :=
  {| setkey := fun k => (if (length k =? 16)%nat then 0 else 22, k);
     encrypt := fun ctx b => hex_block (Z.lxor (be_decode ctx) (be_decode b)) |}.

Definition demo_key : list Z :=
  [1; 2; 3; 4; 5; 6; 7; 8; 9; 10; 11; 12; 13; 14; 15; 16].

(** Context and statics after [gcm_setkey] with [demo_key] and
    [gcm_setiv] with twelve zero bytes, for a context at address 0. *)
Definition demo_session : gcm_context * gcm_statics :=
  let '(_, c, g) := gcm_setkey 0 demo_key xor_cipher gcm_statics_bss in
  gcm_setiv 0 c (replicate 12 0) 12 g.

Example demo_session_ctr :
  ctr (fst demo_session) = replicate 12 0 ++ [0; 0; 0; 1]
  /\ key (fst demo_session) = demo_key.
Proof. vm_compute. split; reflexivity. Qed.

(** C3, as stated, fails: two data bytes delivered in two one-byte calls
    are each XORed with the first byte of a fresh keystream block, so the
    ciphertext differs from that of a single two-byte call. *)
Lemma gcm_fragmentation_counterexample :
  concat (snd (fst (run_calls 0 (fst demo_session)
                      (frag_calls false true [[0]; [0]])
                      (snd demo_session))))
  <> concat (snd (fst (run_calls 0 (fst demo_session)
                         [mk_call false (concat [[0]; [0]]) true]
                         (snd demo_session)))).
Proof. vm_compute. discriminate. Qed.

Example gcm_fragmentation_counterexample_values :
  concat (snd (fst (run_calls 0 (fst demo_session)
                      (frag_calls false true [[0]; [0]])
                      (snd demo_session)))) = [1; 1]
  /\ concat (snd (fst (run_calls 0 (fst demo_session)
                         [mk_call false [0; 0] true]
                         (snd demo_session)))) = [1; 2].
Proof. vm_compute. split; reflexivity. Qed.

(** C3, amended.  When every fragment but the last of the additional
    data, and every fragment but the last of the data, is a whole number
    of 16-byte blocks, delivering the fragments in successive calls gives
    the same ciphertext (or plaintext), the same context and the same tag
    as delivering each input in a single call. *)
Theorem gcm_fragmentation_aligned (context : ptr) (c : gcm_context)
    (g : gcm_statics) (dec : bool) (aads datas : list (list Z)) :
  statics_for (key_addr context) (key c) g ->
  wf_lengths (len c) ->
  aligned aads -> aligned datas ->
  let r1 := run_calls context c
              (frag_calls dec false aads ++ frag_calls dec true datas) g in
  let r2 := run_calls context c
              [mk_call dec (concat aads) false;
               mk_call dec (concat datas) true] g in
  concat (snd (fst r1)) = concat (snd (fst r2))
  /\ fst (fst r1) = fst (fst r2)
  /\ fst (fst (gcm_tag context (fst (fst r1)) (snd r1)))
     = fst (fst (gcm_tag context (fst (fst r2)) (snd r2))).
Proof.
  intros Hg Hl Ha Hd r1 r2.
  destruct (run_calls_pure context c
              (frag_calls dec false aads ++ frag_calls dec true datas) g Hg)
    as (g1 & H1 & Hg1 & Hk1).
  destruct (run_calls_pure context c
              [mk_call dec (concat aads) false;
               mk_call dec (concat datas) true] g Hg)
    as (g2 & H2 & Hg2 & Hk2).
  unfold r1, r2. rewrite H1, H2. cbn [fst snd].
  assert (Hpure :
    fst (calls_pure c (frag_calls dec false aads ++ frag_calls dec true datas))
    = fst (calls_pure c [mk_call dec (concat aads) false;
                         mk_call dec (concat datas) true])
    /\ concat (snd (calls_pure c (frag_calls dec false aads
                                   ++ frag_calls dec true datas)))
       = concat (snd (calls_pure c [mk_call dec (concat aads) false;
                                    mk_call dec (concat datas) true]))).
  { rewrite calls_pure_app. cbn [calls_pure call_src].
    pose proof (calls_pure_frags_any dec false c aads Hl Ha) as [Hc1 Ho1].
    cbv zeta in Hc1, Ho1.
    change (call_mode (mk_call dec [] false))
      with (call_mode (mk_call dec (concat aads) false)) in Hc1, Ho1.
    pose proof (call_pure_len (call_mode (mk_call dec (concat aads) false))
                  c (concat aads)) as Hlen.
    destruct (calls_pure c (frag_calls dec false aads)) as [ca osa].
    destruct (call_pure (call_mode (mk_call dec (concat aads) false)) c
                (concat aads)) as [ca' oa].
    cbn [fst snd] in Hc1, Ho1, Hlen. subst ca' oa.
    assert (Hla : wf_lengths (len ca))
      by (rewrite Hlen; now apply wf_lengths_add_length).
    pose proof (calls_pure_frags_any dec true ca datas Hla Hd) as [Hc2 Ho2].
    cbv zeta in Hc2, Ho2.
    change (call_mode (mk_call dec [] true))
      with (call_mode (mk_call dec (concat datas) true)) in Hc2, Ho2.
    destruct (calls_pure ca (frag_calls dec true datas)) as [cd osd].
    destruct (call_pure (call_mode (mk_call dec (concat datas) true)) ca
                (concat datas)) as [cd' od].
    cbn [fst snd] in Hc2, Ho2 |- *. subst cd' od.
    split; [reflexivity|].
    rewrite concat_app. cbn [concat]. now rewrite app_nil_r. }
  destruct Hpure as [Hc Ho]. split; [exact Ho|]. split; [exact Hc|].
  rewrite <- Hk1 in Hg1. rewrite <- Hk2 in Hg2.
  destruct (gcm_tag_pure context _ g1 Hg1) as (g1' & Ht1 & _).
  destruct (gcm_tag_pure context _ g2 Hg2) as (g2' & Ht2 & _).
  rewrite Ht1, Ht2. cbn [fst]. now rewrite Hc.
Qed.

(** ** Encryption followed by decryption *)

(** The cipher writes a well-formed 16-byte block whatever it is given. *)
Definition cipher_wf (cipher : cipher_algorithm) : Prop :=
  forall ctx b, wf_block (cipher_encrypt cipher ctx b).

Lemma zip_with_lxor_cancel (xs ys : list Z) :
  (length xs <= length ys)%nat ->
  zip_with Z.lxor (zip_with Z.lxor xs ys) ys = xs.
Proof.
  revert ys. induction xs as [|x xs IH]; intros ys Hlen; [reflexivity|].
  destruct ys as [|y ys]; [simpl in Hlen; lia|].
  simpl in *. rewrite IH by lia.
  now rewrite Z.lxor_assoc, Z.lxor_nilpotent, Z.lxor_0_r.
Qed.

Lemma gcm_xor_length (s t : list Z) (n : nat) :
  (n <= length s)%nat -> (n <= length t)%nat -> length (gcm_xor s t n) = n.
Proof.
  intros Hs Ht. unfold gcm_xor. rewrite length_zip_with, !length_take. lia.
Qed.

(** One iteration: decrypting what an encrypting iteration wrote gives
    back what it read, and leaves the same context. *)
Lemma process_frag_pure_inverse (c : gcm_context) (p x : list Z)
    (frag_len : nat) :
  cipher_wf (raw_cipher c) ->
  (frag_len <= 16)%nat -> (frag_len <= length p)%nat ->
  let r := process_frag_pure c (Some p) true hash_is_dst frag_len in
  length (snd r) = frag_len
  /\ process_frag_pure c (Some (snd r ++ x)) true (hash_input (snd r ++ x))
       frag_len
     = (fst r, take frag_len p).
Proof.
  intros Hciph Hf Hp r. unfold r, process_frag_pure. cbn [fst snd default].
  set (c1 := set_ctr c (gcm_count (ctr c) 1)).
  set (tmp := cipher_encrypt (raw_cipher c1) (raw_ctx c1) (ctr c1)).
  assert (Htmp : length tmp = 16%nat) by apply Hciph.
  set (w := gcm_xor p tmp frag_len).
  assert (Hw : length w = frag_len)
    by (apply gcm_xor_length; lia).
  assert (Hwx : forall t, gcm_xor (w ++ x) t frag_len = gcm_xor w t frag_len).
  { intros t. unfold gcm_xor.
    rewrite take_app_length' by (symmetry; exact Hw).
    now rewrite (firstn_all2 w) by lia. }
  split; [exact Hw|]. rewrite !Hwx. f_equal.
  unfold w, gcm_xor at 1 2.
  rewrite firstn_all2 by (rewrite length_zip_with, !length_take; lia).
  apply zip_with_lxor_cancel. rewrite !length_take. lia.
Qed.

Lemma process_loop_pure_inverse (fuel : nat) (c : gcm_context) (p : list Z)
    (n : nat) :
  cipher_wf (raw_cipher c) ->
  (n <= fuel)%nat -> (n <= length p)%nat ->
  let r := process_loop_pure fuel c (Some p) true hash_is_dst n [] in
  length (snd r) = n
  /\ process_loop_pure fuel c (Some (snd r)) true (hash_input (snd r)) n []
     = (fst r, take n p).
Proof.
  revert c p n. induction fuel as [|fuel IH]; intros c p n Hciph Hfuel Hp r.
  - assert (n = 0%nat) as -> by lia. now split.
  - unfold r. cbn [process_loop_pure].
    destruct (Nat.eqb_spec n 0) as [->|Hn]; [now split|].
    set (f := if (16 <? n)%nat then 16%nat else n).
    assert (Hf : (1 <= f <= 16)%nat /\ (f <= n)%nat).
    { unfold f. destruct (Nat.ltb_spec 16 n); lia. }
    pose proof (process_frag_pure_key c (Some p) true hash_is_dst f)
      as (_ & Hc1 & _).
    destruct (process_frag_pure c (Some p) true hash_is_dst f) as [c1 w]
      eqn:Hfrag.
    cbn [fst] in Hc1.
    cbn [src_advance fmap option_fmap option_map hash_advance app].
    rewrite (process_loop_pure_out fuel c1 _ _ _ _ w).
    cbn [fst snd].
    assert (Hciph1 : cipher_wf (raw_cipher c1)) by now rewrite Hc1.
    specialize (IH c1 (drop f p) (n - f)%nat Hciph1 ltac:(lia)
                  ltac:(rewrite length_drop; lia)).
    cbv zeta in IH. destruct IH as [IHlen IHdec].
    set (r' := process_loop_pure fuel c1 (Some (drop f p)) true hash_is_dst
                 (n - f) []) in *.
    pose proof (process_frag_pure_inverse c p (snd r') f Hciph
                  ltac:(lia) ltac:(lia)) as Hinv.
    cbv zeta in Hinv. rewrite Hfrag in Hinv. cbn [fst snd] in Hinv.
    destruct Hinv as [Hw Hinv].
    split; [rewrite length_app; lia|].
    rewrite Hinv.
    cbn [src_advance fmap option_fmap option_map hash_advance app].
    rewrite drop_app_length' by (symmetry; exact Hw).
    rewrite (process_loop_pure_out fuel c1 _ _ _ _ (take f p)).
    rewrite IHdec. cbn [fst snd]. f_equal.
    rewrite take_take_drop. f_equal. lia.
Qed.

Lemma call_pure_inverse (c : gcm_context) (p : list Z) :
  cipher_wf (raw_cipher c) ->
  let r := call_pure mode_encrypt c p in
  call_pure mode_decrypt c (snd r) = (fst r, p).
Proof.
  intros Hciph r. unfold r, call_pure, process_pure.
  cbn [mode_src mode_dst mode_hash].
  set (c0 := set_len c (add_length (Some p) (len c) (length p))).
  assert (Hciph0 : cipher_wf (raw_cipher c0)) by exact Hciph.
  pose proof (process_loop_pure_inverse (length p) c0 p (length p) Hciph0
                ltac:(lia) ltac:(lia)) as Hinv.
  cbv zeta in Hinv. destruct Hinv as [Hlen Hinv].
  rewrite Hlen.
  replace (set_len c (add_length (Some _) (len c) (length p))) with c0
    by reflexivity.
  rewrite Hinv. now rewrite firstn_all.
Qed.

Lemma call_pure_key (m : gcm_mode) (c : gcm_context) (d : list Z) :
  key (fst (call_pure m c d)) = key c
  /\ raw_cipher (fst (call_pure m c d)) = raw_cipher c
  /\ raw_ctx (fst (call_pure m c d)) = raw_ctx c.
Proof.
  unfold call_pure, process_pure.
  pose proof (process_loop_pure_key (length d)
                (set_len c (add_length (mode_src m d) (len c) (length d)))
                (mode_src m d) (mode_dst m) (mode_hash m d) (length d) [])
    as (Hk & Hc & Hx & _).
  auto.
Qed.

Lemma process_loop_pure_nodst_out (fuel : nat) (c : gcm_context)
    (src : option (list Z)) (hsrc : hash_ptr) (n : nat) (out : list Z) :
  snd (process_loop_pure fuel c src false hsrc n out) = out.
Proof.
  revert c src hsrc n out.
  induction fuel as [|fuel IH]; intros c src hsrc n out; [reflexivity|].
  cbn [process_loop_pure]. destruct (n =? 0)%nat; [reflexivity|].
  unfold process_frag_pure. rewrite IH. apply app_nil_r.
Qed.

Lemma call_pure_aad_out (c : gcm_context) (d : list Z) :
  snd (call_pure mode_aad c d) = [].
Proof. apply process_loop_pure_nodst_out. Qed.

(** A whole session: key, initialisation vector, calls, tag. *)
Definition gcm_session (context : ptr) (k : list Z) (cipher : cipher_algorithm)
    (iv : list Z) (cls : list gcm_call) (g : gcm_statics)
    : Z * list (list Z) * gcm_block :=
  let '(rc, c, g) := gcm_setkey context k cipher g in
  let '(c, g) := gcm_setiv context c iv (length iv) g in
  let '(c, outs, g) := run_calls context c cls g in
  let '(t, _, _) := gcm_tag context c g in
  (rc, outs, t).

Definition session_pure (k : list Z) (cipher : cipher_algorithm)
    (iv : list Z) (cls : list gcm_call) : gcm_context * list (list Z) :=
  calls_pure (setiv_pure (snd (setkey_pure k cipher)) iv) cls.

Lemma gcm_session_pure (context : ptr) (k : list Z) (cipher : cipher_algorithm)
    (iv : list Z) (cls : list gcm_call) (g : gcm_statics) :
  statics_wf g ->
  fst (cipher_setkey cipher k) = 0 ->
  gcm_session context k cipher iv cls g
  = (0, snd (session_pure k cipher iv cls),
     tag_pure (fst (session_pure k cipher iv cls))).
Proof.
  intros Hg Hrc. unfold gcm_session, session_pure.
  destruct (gcm_setkey_pure context k cipher g Hg) as (g1 & H1 & Hg1).
  assert (Hrc' : fst (setkey_pure k cipher) = 0).
  { unfold setkey_pure. destruct (cipher_setkey cipher k) as [rc rctx].
    cbn [fst] in Hrc. subst rc. reflexivity. }
  specialize (Hg1 Hrc'). rewrite H1, Hrc'.
  set (c1 := snd (setkey_pure k cipher)) in *.
  destruct (gcm_setiv_pure context c1 iv g1 Hg1)
    as (g2 & H2 & Hg2 & Hk2 & _).
  rewrite H2. rewrite <- Hk2 in Hg2.
  destruct (run_calls_pure context _ cls g2 Hg2) as (g3 & H3 & Hg3 & Hk3).
  rewrite H3. rewrite <- Hk3 in Hg3.
  destruct (gcm_tag_pure context _ g3 Hg3) as (g4 & H4 & _).
  now rewrite H4.
Qed.

(** The calls of an encrypting session, one per entry [(src, dst)]; the
    calls of the matching decrypting session, which is handed the
    ciphertexts [outs]; and the output expected from the latter. *)
Definition encrypt_calls (ops : list (list Z * bool)) : list gcm_call :=
  map (fun op : list Z * bool => mk_call false (fst op) (snd op)) ops.

Definition decrypt_calls (ops : list (list Z * bool)) (outs : list (list Z))
    : list gcm_call :=
  zip_with
    (fun (op : list Z * bool) out =>
       mk_call true (if snd op then out else fst op) (snd op))
    ops outs.

Definition plaintexts (ops : list (list Z * bool)) : list (list Z) :=
  map (fun op : list Z * bool => if snd op then fst op else []) ops.

Lemma calls_pure_inverse (c : gcm_context) (ops : list (list Z * bool)) :
  cipher_wf (raw_cipher c) ->
  let r := calls_pure c (encrypt_calls ops) in
  calls_pure c (decrypt_calls ops (snd r)) = (fst r, plaintexts ops).
Proof.
  revert c. induction ops as [|[s d] ops IH]; intros c Hciph r;
    [reflexivity|].
  unfold r. cbn [encrypt_calls map calls_pure call_src fst snd].
  change (call_mode (mk_call false s d))
    with (if d then mode_encrypt else mode_aad).
  pose proof (call_pure_key (if d then mode_encrypt else mode_aad) c s)
    as (_ & Hc1 & _).
  pose proof (call_pure_inverse c s Hciph) as Hinv. cbv zeta in Hinv.
  pose proof (call_pure_aad_out c s) as Haad.
  destruct (call_pure (if d then mode_encrypt else mode_aad) c s) as [c1 o1]
    eqn:Hcall.
  cbn [fst] in Hc1.
  assert (Hciph1 : cipher_wf (raw_cipher c1)) by now rewrite Hc1.
  specialize (IH c1 Hciph1). cbv zeta in IH.
  fold (encrypt_calls ops).
  destruct (calls_pure c1 (encrypt_calls ops)) as [c2 os].
  cbn [fst snd decrypt_calls zip_with calls_pure call_src] in *.
  fold (decrypt_calls ops os).
  change (call_mode (mk_call true (if d then o1 else s) d))
    with (if d then mode_decrypt else mode_aad).
  destruct d.
  - rewrite Hcall in Hinv. cbn [fst snd] in Hinv. rewrite Hinv, IH.
    reflexivity.
  - rewrite Hcall in Haad |- *. cbn [snd] in Haad. subst o1.
    rewrite IH. reflexivity.
Qed.

(** C2.  At test case 2 of the GCM specification, decrypting the
    ciphertext gives the plaintext back wherever [dst] points, and the
    tag of the encrypting session when [dst] is a buffer of its own.
    Decrypted in place, the same ciphertext leaves another tag: the hash
    has absorbed the plaintext that [gcm_xor] had just written over the
    ciphertext. *)
Theorem gcm_decrypt_in_place_tag :
  test_case_2_decrypt dst_buffer = (replicate 16 0, snd test_case_2)
  /\ test_case_2_decrypt dst_src
     = (replicate 16 0, hex_block 0xfe8ca0c488db40b85f5f0ab993bb61e0)
  /\ snd test_case_2 = hex_block 0xab6e47d42cec13bdf53a67b21257bddf
  /\ snd (test_case_2_decrypt dst_src) <> snd test_case_2.
Proof.
  split; [vm_compute; reflexivity|].
  split; [vm_compute; reflexivity|].
  split; [vm_compute; reflexivity|].
  vm_compute. discriminate.
Qed.

(** X27.  When every call that has an output buffer writes to a buffer
    of its own ([run_call] passes [dst_buffer]), and [gcm_setkey] has
    accepted the key, a decrypting session with the same key,
    initialisation vector and additional data, fed the ciphertext of an
    encrypting session call by call, writes the original plaintext, and
    [gcm_tag] yields the same tag in both sessions. *)
Theorem gcm_roundtrip (cipher : cipher_algorithm) (k iv : list Z)
    (ops : list (list Z * bool)) (context context' : ptr)
    (g g' : gcm_statics) :
  cipher_wf cipher ->
  statics_wf g -> statics_wf g' ->
  fst (cipher_setkey cipher k) = 0 ->
  let enc := gcm_session context k cipher iv (encrypt_calls ops) g in
  let dec := gcm_session context' k cipher iv
               (decrypt_calls ops (snd (fst enc))) g' in
  snd (fst dec) = plaintexts ops /\ snd dec = snd enc.
Proof.
  intros Hciph Hg Hg' Hrc enc dec. unfold dec, enc.
  rewrite (gcm_session_pure context) by assumption. cbn [fst snd].
  rewrite (gcm_session_pure context') by assumption. cbn [fst snd].
  unfold session_pure.
  set (c := setiv_pure (snd (setkey_pure k cipher)) iv).
  assert (Hc : cipher_wf (raw_cipher c)).
  { unfold c, setiv_pure, setkey_pure.
    destruct (cipher_setkey cipher k) as [rc rctx].
    cbn [fst] in Hrc. subst rc. cbn [Z.eqb negb snd key raw_cipher raw_ctx].
    destruct (length iv =? 12)%nat; [exact Hciph|].
    cbn [raw_cipher].
    now rewrite (proj1 (proj2 (call_pure_key mode_iv _ iv))). }
  rewrite (calls_pure_inverse c ops Hc). now split.
Qed.

(** ** The counter over a session *)

Lemma gcm_count_count (y : gcm_block) (a b : Z) :
  length y = 16%nat ->
  gcm_count (gcm_count y a) b = gcm_count y (a + b).
Proof.
  intros Hy. unfold gcm_count at 1 3.
  assert (Ht : length (take 12 y) = 12%nat) by (rewrite length_take; lia).
  unfold gcm_count.
  rewrite take_app_length', drop_app_length' by (symmetry; exact Ht).
  rewrite be32_to_cpu_to_be32. f_equal. f_equal. unfold u32.
  rewrite Z.mod_mod, Z.add_mod_idemp_l by lia. f_equal. lia.
Qed.

Lemma gcm_count_zero (y : gcm_block) (d : Z) :
  wf_block y -> u32 d = 0 -> gcm_count y d = y.
Proof.
  intros [Hlen Hy] Hd. unfold gcm_count.
  assert (Hv : wf_bytes (drop 12 y)) by now apply wf_bytes_drop.
  assert (Hl : length (drop 12 y) = 4%nat) by (rewrite length_drop; lia).
  pose proof (be_decode_range _ Hv) as Hr. rewrite Hl in Hr.
  unfold be32_to_cpu. rewrite (firstn_all2 (drop 12 y)) by lia.
  assert (Hsum : u32 (be_decode (drop 12 y) + d) = be_decode (drop 12 y)).
  { unfold u32 in *. rewrite <- Z.add_mod_idemp_r, Hd, Z.add_0_r by lia.
    apply Z.mod_small. change (256 ^ Z.of_nat 4) with (2 ^ 32) in Hr. lia. }
  rewrite Hsum. unfold cpu_to_be32.
  pose proof (be_encode_decode _ Hv) as He. rewrite Hl in He.
  rewrite He. apply take_drop.
Qed.

(** Number of loop iterations, hence of counter increments, for [n]
    bytes of data. *)
Definition count_blocks (n : nat) : nat := ((n + 15) / 16)%nat.

Lemma count_blocks_step (n : nat) :
  (0 < n)%nat ->
  count_blocks n
  = S (count_blocks (n - (if (16 <? n)%nat then 16 else n))).
Proof.
  intros Hn. unfold count_blocks. destruct (Nat.ltb_spec 16 n) as [Hlt|Hge].
  - replace (n + 15)%nat with ((n - 16 + 15) + 1 * 16)%nat by lia.
    rewrite Nat.div_add by lia. lia.
  - replace (n - n + 15)%nat with 15%nat by lia.
    change (15 / 16)%nat with 0%nat.
    assert (H1 : (16 <= n + 15 < 32)%nat) by lia.
    pose proof (Nat.div_mod_eq (n + 15) 16).
    pose proof (Nat.mod_upper_bound (n + 15) 16). lia.
Qed.

Lemma process_loop_pure_ctr (fuel : nat) (c : gcm_context)
    (src : option (list Z)) (dst : bool) (hsrc : hash_ptr) (n : nat)
    (out : list Z) :
  wf_block (ctr c) -> (n <= fuel)%nat ->
  ctr (fst (process_loop_pure fuel c src dst hsrc n out))
  = if dst then gcm_count (ctr c) (Z.of_nat (count_blocks n)) else ctr c.
Proof.
  revert c src hsrc n out.
  induction fuel as [|fuel IH]; intros c src hsrc n out Hy Hfuel.
  - assert (n = 0%nat) as -> by lia. cbn [process_loop_pure fst].
    destruct dst; [|reflexivity]. symmetry. now apply gcm_count_zero.
  - cbn [process_loop_pure].
    destruct (Nat.eqb_spec n 0) as [->|Hn].
    + cbn [fst]. destruct dst; [|reflexivity].
      symmetry. now apply gcm_count_zero.
    + rewrite (count_blocks_step n) by lia.
      set (f := if (16 <? n)%nat then 16%nat else n).
      assert (Hf : (1 <= f)%nat) by (unfold f; destruct (16 <? n)%nat; lia).
      assert (Hc1 : ctr (fst (process_frag_pure c src dst hsrc f))
                    = if dst then gcm_count (ctr c) 1 else ctr c).
      { unfold process_frag_pure. destruct dst; reflexivity. }
      destruct (process_frag_pure c src dst hsrc f) as [c1 w].
      cbn [fst] in Hc1.
      rewrite IH; [|rewrite Hc1; destruct dst; auto using gcm_count_wf|lia].
      rewrite Hc1. destruct dst; [|reflexivity].
      rewrite gcm_count_count by apply Hy. f_equal. lia.
Qed.

Lemma call_pure_ctr (m : gcm_mode) (c : gcm_context) (d : list Z) :
  wf_block (ctr c) ->
  ctr (fst (call_pure m c d))
  = if mode_dst m then gcm_count (ctr c) (Z.of_nat (count_blocks (length d)))
    else ctr c.
Proof.
  intros Hy. unfold call_pure, process_pure.
  now rewrite process_loop_pure_ctr.
Qed.

(** Counter increments and data bytes over a list of calls. *)
Definition calls_blocks (cls : list gcm_call) : nat :=
  foldr (fun cl acc =>
           ((if call_dst cl then count_blocks (length (call_src cl)) else 0)
            + acc)%nat) 0%nat cls.

Definition calls_data_bytes (cls : list gcm_call) : nat :=
  foldr (fun cl acc =>
           ((if call_dst cl then length (call_src cl) else 0) + acc)%nat)
    0%nat cls.

Lemma u64_add_size (x a b : Z) :
  u64 (u64 (x + size_t a) + b) = u64 (x + (a + b)).
Proof.
  unfold u64, size_t. rewrite Z.add_mod_idemp_l by lia.
  replace (x + a mod 2 ^ 64 + b) with (x + b + a mod 2 ^ 64) by lia.
  rewrite Z.add_mod_idemp_r by lia. f_equal. lia.
Qed.

Lemma calls_pure_ctr (c : gcm_context) (cls : list gcm_call) :
  wf_block (ctr c) ->
  ctr (fst (calls_pure c cls))
  = gcm_count (ctr c) (Z.of_nat (calls_blocks cls))
  /\ u64 (data (len (fst (calls_pure c cls))))
     = u64 (data (len c) + Z.of_nat (calls_data_bytes cls) * 8).
Proof.
  revert c. induction cls as [|cl cls IH]; intros c Hy.
  - cbn. rewrite Z.add_0_r. split; [|reflexivity].
    symmetry. now apply gcm_count_zero.
  - cbn [calls_pure calls_blocks calls_data_bytes foldr].
    fold (calls_blocks cls). fold (calls_data_bytes cls).
    pose proof (call_pure_ctr (call_mode cl) c (call_src cl) Hy) as Hc1.
    pose proof (call_pure_len (call_mode cl) c (call_src cl)) as Hl1.
    destruct (call_pure (call_mode cl) c (call_src cl)) as [c1 o1].
    cbn [fst] in Hc1, Hl1.
    assert (Hy1 : wf_block (ctr c1)).
    { rewrite Hc1. destruct (mode_dst _); auto using gcm_count_wf. }
    destruct (IH c1 Hy1) as [IHc IHl].
    destruct (calls_pure c1 cls) as [c2 os]. cbn [fst] in *.
    rewrite IHc, IHl, Hc1, Hl1. clear IHc IHl Hc1 Hl1.
    unfold call_mode, add_length.
    destruct (call_dst cl); [destruct (call_decrypt cl)|];
      cbn [mode_dst mode_src data];
      try (rewrite gcm_count_count by apply Hy);
      try rewrite u64_add_size;
      (split; f_equal; lia).
Qed.

(** ** GHASH *)

(** GHASH as the specification words it: Y starts at zero and, for each
    128-bit block B of the input, becomes (Y xor B) times H.  [blocks]
    cuts a byte string, whose length is a multiple of 16, into blocks;
    [zero_pad] is the run of zero bytes that fills the last block. *)
Definition ghash_step (H Y B : gcm_block) : gcm_block :=
  gcm_mult_H H (gcm_xor_block Y B).

Definition blocks (bs : list Z) : list gcm_block :=
  map (fun i => take 16 (drop (16 * i) bs)) (seq 0 (length bs / 16)).

Definition zero_pad (bs : list Z) : list Z :=
  replicate ((16 - length bs mod 16) mod 16) 0.

Definition GHASH (H : gcm_block) (bs : list Z) : gcm_block :=
  fold_left (ghash_step H) (blocks bs) zero_block.

Lemma blocks_cons (b rest : list Z) :
  length b = 16%nat -> blocks (b ++ rest) = b :: blocks rest.
Proof.
  intros Hb. unfold blocks. rewrite length_app, Hb.
  replace ((16 + length rest) / 16)%nat with (S (length rest / 16)).
  2:{ replace (16 + length rest)%nat with (length rest + 1 * 16)%nat by lia.
      rewrite Nat.div_add by lia. lia. }
  cbn [seq map]. f_equal.
  - rewrite Nat.mul_0_r, drop_0, take_app_length' by (symmetry; exact Hb).
    reflexivity.
  - rewrite <- seq_shift, map_map. apply map_ext. intros i.
    replace (16 * S i)%nat with (length b + 16 * i)%nat by lia.
    now rewrite drop_app_add.
Qed.

Lemma blocks_step (buf : list Z) (n : nat) :
  (0 < n <= length buf)%nat ->
  let f := if (16 <? n)%nat then 16%nat else n in
  take n buf ++ zero_pad (take n buf)
  = (take f buf ++ replicate (16 - f) 0)
      ++ (take (n - f) (drop f buf)
            ++ zero_pad (take (n - f) (drop f buf))).
Proof.
  intros Hn f. unfold f, zero_pad.
  rewrite !length_take, length_drop.
  destruct (Nat.ltb_spec 16 n) as [Hlt|Hge].
  - cbn [Nat.sub replicate]. rewrite app_nil_r, app_assoc, take_take_drop.
    replace (16 + (n - 16))%nat with n by lia.
    replace (n `min` length buf)%nat with n by lia.
    replace ((n - 16) `min` (length buf - 16))%nat with (n - 16)%nat by lia.
    f_equal. f_equal.
    replace n with ((n - 16) + 1 * 16)%nat at 1 by lia.
    now rewrite Nat.Div0.mod_add.
  - replace (n - n)%nat with 0%nat by lia.
    replace (n `min` length buf)%nat with n by lia.
    cbn [take Nat.min].
    change ((16 - 0 mod 16) mod 16)%nat with 0%nat.
    cbn [replicate]. rewrite !app_nil_r. f_equal. f_equal.
    destruct (Nat.eq_dec n 16%nat) as [->|Hne]; [reflexivity|].
    rewrite (Nat.mod_small n 16%nat) by lia. apply Nat.mod_small. lia.
Qed.

(** XOR of a fragment into the head of Y is XOR with the fragment padded
    with zeros. *)
Lemma gcm_xor_padded (buf Y : list Z) (f : nat) :
  length Y = 16%nat -> (f <= 16)%nat -> (f <= length buf)%nat ->
  gcm_xor buf Y f ++ drop f Y
  = gcm_xor_block Y (take f buf ++ replicate (16 - f) 0).
Proof.
  intros HY Hf Hbuf. unfold gcm_xor, gcm_xor_block.
  assert (Hpl : length (take f buf ++ replicate (16 - f) 0) = 16%nat)
    by (rewrite length_app, length_take, length_replicate; lia).
  rewrite (firstn_all2 (take f buf ++ _)) by (rewrite Hpl; lia).
  rewrite (take_ge Y 16%nat) by (rewrite HY; lia).
  rewrite <- (take_drop f Y) at 3.
  rewrite zip_with_app by (rewrite !length_take; lia).
  f_equal.
  assert (Hd : length (drop f Y) = (16 - f)%nat)
    by (rewrite length_drop; lia).
  revert Hd. generalize (drop f Y) (16 - f)%nat. clear.
  intros l n. revert l. induction n as [|n IH]; intros [|y l] Hl;
    try discriminate; [reflexivity|].
  cbn. f_equal. apply IH. now injection Hl.
Qed.

Lemma wf_padded_fragment (buf : list Z) (f : nat) :
  wf_bytes buf -> (f <= 16)%nat -> (f <= length buf)%nat ->
  wf_block (take f buf ++ replicate (16 - f) 0).
Proof.
  intros Hbuf Hf Hl. split.
  - rewrite length_app, length_take, length_replicate. lia.
  - apply wf_bytes_app; [now apply wf_bytes_take|].
    apply Forall_replicate. unfold is_byte. lia.
Qed.

Lemma ghash_step_wf (H Y B : gcm_block) :
  wf_block H -> wf_block Y -> wf_block B -> wf_block (ghash_step H Y B).
Proof.
  intros HH HY HB. unfold ghash_step.
  apply gcm_mult_H_wf; [exact HH|now apply wf_gcm_xor_block].
Qed.

(** Without an output buffer the loop absorbs the input into the hash,
    block by block, the last block padded with zeros. *)
Lemma process_loop_pure_ghash (fuel : nat) (c : gcm_context)
    (src : option (list Z)) (buf : list Z) (n : nat) (out : list Z) :
  wf_block (key c) -> wf_block (hash c) -> wf_bytes buf ->
  (n <= fuel)%nat -> (n <= length buf)%nat ->
  let c' := fst (process_loop_pure fuel c src false (hash_input buf) n out) in
  hash c'
  = fold_left (ghash_step (key c))
      (blocks (take n buf ++ zero_pad (take n buf))) (hash c)
  /\ wf_block (hash c').
Proof.
  revert c src buf n out.
  induction fuel as [|fuel IH]; intros c src buf n out HH HY Hbuf Hfuel Hn c'.
  - assert (n = 0%nat) as -> by lia. unfold c'. cbn. auto.
  - unfold c'. cbn [process_loop_pure].
    destruct (Nat.eqb_spec n 0) as [->|Hn0]; [cbn; auto|].
    rewrite blocks_step by lia. cbv zeta.
    set (f := if (16 <? n)%nat then 16%nat else n).
    assert (Hf : (1 <= f <= 16)%nat /\ (f <= n)%nat).
    { unfold f. destruct (Nat.ltb_spec 16 n); lia. }
    pose proof (wf_padded_fragment buf f Hbuf ltac:(lia) ltac:(lia)) as HB.
    rewrite blocks_cons by apply HB. cbn [fold_left].
    unfold process_frag_pure. cbn [hash_advance src_advance].
    rewrite gcm_xor_padded by (try apply HY; lia).
    fold (ghash_step (key c) (hash c) (take f buf ++ replicate (16 - f) 0)).
    set (Y' := ghash_step (key c) (hash c) _).
    assert (HY' : wf_block Y') by now apply ghash_step_wf.
    apply (IH (set_hash c Y') src (drop f buf) (n - f)%nat (out ++ [])
             HH HY' (wf_bytes_drop _ _ Hbuf) ltac:(lia)
             ltac:(rewrite length_drop; lia)).
Qed.

Lemma blocks_app (xs ys : list Z) :
  (length xs mod 16 = 0)%nat -> blocks (xs ++ ys) = blocks xs ++ blocks ys.
Proof.
  intros Hal.
  assert (Hk : exists k, length xs = (16 * k)%nat).
  { exists (length xs / 16)%nat.
    pose proof (Nat.div_mod_eq (length xs) 16). lia. }
  destruct Hk as [k Hk]. clear Hal. revert xs Hk.
  induction k as [|k IH]; intros xs Hk.
  - destruct xs; [reflexivity|discriminate].
  - assert (Ht : length (take 16 xs) = 16%nat) by (rewrite length_take; lia).
    assert (Hr : length (drop 16 xs) = (16 * k)%nat)
      by (rewrite length_drop; lia).
    pose proof (take_drop 16 xs) as Hx.
    revert Ht Hr Hx. generalize (take 16 xs) (drop 16 xs).
    intros b r Ht Hr <-.
    rewrite <- app_assoc.
    rewrite (blocks_cons b (r ++ ys)), (blocks_cons b r) by exact Ht.
    rewrite IH by exact Hr. reflexivity.
Qed.

Lemma blocks_one (b : list Z) : length b = 16%nat -> blocks b = [b].
Proof.
  intros Hb. rewrite <- (app_nil_r b) at 1. now rewrite blocks_cons.
Qed.

Lemma zero_pad_aligned (bs : list Z) :
  (length (bs ++ zero_pad bs) mod 16 = 0)%nat.
Proof.
  unfold zero_pad. rewrite length_app, length_replicate.
  pose proof (Nat.div_mod_eq (length bs) 16) as Hdm.
  pose proof (Nat.mod_upper_bound (length bs) 16 ltac:(lia)) as Hlt.
  destruct (Nat.eq_dec (length bs mod 16)%nat 0%nat) as [H0|H0].
  - rewrite H0. change ((16 - 0) mod 16)%nat with 0%nat.
    now rewrite Nat.add_0_r.
  - rewrite (Nat.mod_small (16 - _)%nat) by lia.
    replace (length bs + (16 - length bs mod 16))%nat
      with ((length bs / 16 + 1) * 16)%nat by lia.
    apply Nat.Div0.mod_mul.
Qed.

Lemma be_encode_mod (n : nat) (v : Z) :
  be_encode n (v mod 256 ^ Z.of_nat n) = be_encode n v.
Proof.
  rewrite (Z.div_mod v (256 ^ Z.of_nat n)) at 2 by lia.
  rewrite (Z.mul_comm _ (v / _)). now rewrite be_encode_add_mul.
Qed.

Lemma wf_lengths_block (l : gcm_lengths) : wf_block (lengths_block l).
Proof.
  unfold lengths_block, cpu_to_be64. split.
  - now rewrite length_app, !length_be_encode.
  - apply wf_bytes_app; apply wf_be_encode.
Qed.

(** The context after [gcm_setiv]'s hashing of a vector that is not 12
    bytes long. *)
Lemma setiv_pure_hashed (c : gcm_context) (iv : list Z) :
  length iv <> 12%nat -> wf_bytes iv -> wf_block (key c) ->
  ctr (setiv_pure c iv)
  = GHASH (key c)
      (iv ++ zero_pad iv
          ++ cpu_to_be64 0 ++ cpu_to_be64 (Z.of_nat (length iv) * 8))
  /\ wf_block (ctr (setiv_pure c iv)).
Proof.
  intros H12 Hiv HH. unfold setiv_pure.
  destruct (Nat.eqb_spec (length iv) 12) as [|_]; [contradiction|].
  set (c0 := mk_context zero_block zero_lengths initial_counter (key c)
               (raw_cipher c) (raw_ctx c)).
  cbn [ctr key]. unfold hash_pure.
  pose proof (call_pure_key mode_iv c0 iv) as (Hk & _).
  pose proof (call_pure_len mode_iv c0 iv) as Hl.
  assert (Hh : hash (fst (call_pure mode_iv c0 iv))
               = fold_left (ghash_step (key c)) (blocks (iv ++ zero_pad iv))
                   zero_block
               /\ wf_block (hash (fst (call_pure mode_iv c0 iv)))).
  { unfold call_pure, process_pure. cbn [mode_src mode_dst mode_hash].
    pose proof (process_loop_pure_ghash (length iv)
                  (set_len c0 (add_length (Some iv) (len c0) (length iv)))
                  (Some iv) iv (length iv) [] HH wf_zero_block Hiv
                  ltac:(lia) ltac:(lia)) as Hg.
    cbv zeta in Hg. rewrite firstn_all in Hg. exact Hg. }
  destruct Hh as [Hh Hwf].
  set (c1 := fst (call_pure mode_iv c0 iv)) in *.
  rewrite Hk. cbn [key c0].
  fold (ghash_step (key c) (hash c1) (lengths_block (len c1))).
  split.
  - unfold GHASH. rewrite app_assoc.
    rewrite blocks_app by apply zero_pad_aligned.
    rewrite fold_left_app, <- Hh.
    rewrite blocks_one
      by (unfold cpu_to_be64; now rewrite length_app, !length_be_encode).
    cbn [fold_left]. apply (f_equal (ghash_step (key c) (hash c1))).
    rewrite Hl. unfold lengths_block, add_length.
    cbn [mode_src add data c0 len zero_lengths].
    apply (f_equal (app (cpu_to_be64 0))).
    unfold cpu_to_be64, u64, size_t.
    rewrite Z.add_0_l, Z.mod_mod by lia.
    apply (be_encode_mod 8).
  - apply ghash_step_wf; [exact HH|exact Hwf|apply wf_lengths_block].
Qed.


(** ** The tag of a session *)





Lemma tag_offset_cancel_Z (d L : Z) :
  0 <= L ->
  d mod 2 ^ 64 = (L * 8) mod 2 ^ 64 ->
  ((L + 15) / 16 + ((- d) mod 2 ^ 64 / 128) mod 2 ^ 32) mod 2 ^ 32 = 0.
Proof.
  intros HL Hd.
  change (2 ^ 64) with 18446744073709551616 in *.
  change (2 ^ 32) with 4294967296 in *.
  Z.div_mod_to_equations. lia.
Qed.

Lemma tag_offset_cancel (l : gcm_lengths) (n : nat) :
  u64 (data l) = u64 (Z.of_nat n * 8) ->
  u32 (Z.of_nat (count_blocks n) + tag_offset l) = 0.
Proof.
  intros Hd. unfold tag_offset, count_blocks, u32, u64 in *.
  rewrite Nat2Z.inj_div, Nat2Z.inj_add.
  apply tag_offset_cancel_Z; [lia|exact Hd].
Qed.


Lemma setiv_pure_frame (c : gcm_context) (iv : list Z) :
  len (setiv_pure c iv) = zero_lengths
  /\ hash (setiv_pure c iv) = zero_block
  /\ key (setiv_pure c iv) = key c
  /\ raw_cipher (setiv_pure c iv) = raw_cipher c
  /\ raw_ctx (setiv_pure c iv) = raw_ctx c.
Proof.
  unfold setiv_pure. destruct (length iv =? 12)%nat; [now cbn|].
  cbn [len hash key raw_cipher raw_ctx].
  pose proof (call_pure_key mode_iv
                (mk_context zero_block zero_lengths initial_counter (key c)
                   (raw_cipher c) (raw_ctx c)) iv) as (Hk & Hc & Hx).
  auto.
Qed.

Lemma setiv_pure_ctr_wf (c : gcm_context) (iv : list Z) :
  wf_bytes iv -> wf_block (key c) -> wf_block (ctr (setiv_pure c iv)).
Proof.
  intros Hiv HH. destruct (Nat.eq_dec (length iv) 12%nat) as [H12|H12].
  - unfold setiv_pure. rewrite H12. cbn [Nat.eqb set_ctr ctr]. split.
    + rewrite length_app, H12. reflexivity.
    + apply wf_bytes_app; [exact Hiv|].
      repeat constructor; unfold is_byte; lia.
  - now apply setiv_pure_hashed.
Qed.


(** ** Worked instances *)

Lemma cipher_wf_xor : cipher_wf xor_cipher.
Proof. intros ctx b. apply wf_hex_block. Qed.

Lemma demo_session_statics :
  statics_for (key_addr 0) (key (fst demo_session)) (snd demo_session).
Proof.
  split; [repeat split; vm_compute; reflexivity|].
  intros _. split; vm_compute; reflexivity.
Qed.

Lemma demo_session_lengths : wf_lengths (len (fst demo_session)).
Proof.
  replace (len (fst demo_session)) with zero_lengths
    by (vm_compute; reflexivity).
  unfold wf_lengths, zero_lengths. cbn [add data]. lia.
Qed.

Lemma demo_session_key : wf_block (key (fst demo_session)).
Proof.
  replace (key (fst demo_session)) with demo_key by (vm_compute; reflexivity).
  split; [reflexivity|]. repeat constructor; unfold is_byte; lia.
Qed.

Definition demo_block : list Z := replicate 16 0xab.

Lemma gcm_fragmentation_aligned_witness :
  concat (snd (fst (run_calls 0 (fst demo_session)
                      (frag_calls false false [demo_block; [1; 2; 3]]
                         ++ frag_calls false true
                              [demo_block; demo_block; [5]])
                      (snd demo_session))))
  = concat (snd (fst (run_calls 0 (fst demo_session)
                        [mk_call false (concat [demo_block; [1; 2; 3]]) false;
                         mk_call false
                           (concat [demo_block; demo_block; [5]]) true]
                        (snd demo_session)))).
Proof.
  pose proof (gcm_fragmentation_aligned 0 (fst demo_session)
                (snd demo_session) false [demo_block; [1; 2; 3]]
                [demo_block; demo_block; [5]]
                demo_session_statics demo_session_lengths) as H.
  cbv zeta in H. apply H; repeat split; reflexivity.
Defined.

Lemma gcm_roundtrip_witness :
  snd (fst (gcm_session 48 demo_key xor_cipher [1; 2; 3]
              (decrypt_calls [([7; 7], false); (demo_block ++ [9], true)]
                 (snd (fst (gcm_session 0 demo_key xor_cipher [1; 2; 3]
                              (encrypt_calls
                                 [([7; 7], false); (demo_block ++ [9], true)])
                              gcm_statics_bss))))
              gcm_statics_bss))
  = [[]; demo_block ++ [9]].
Proof.
  pose proof (gcm_roundtrip xor_cipher demo_key [1; 2; 3]
                [([7; 7], false); (demo_block ++ [9], true)] 0 48
                gcm_statics_bss gcm_statics_bss cipher_wf_xor
                statics_wf_bss statics_wf_bss eq_refl) as H.
  cbv zeta in H. exact (proj1 H).
Defined.


(** With a hashed vector the counter field is not 1. *)
Example gcm_setiv_hashed_counter :
  drop 12 (ctr (fst (gcm_setiv 0 (fst demo_session) [1; 2; 3] 3
                       (snd demo_session))))
  = [232; 221; 33; 209].
Proof. vm_compute. reflexivity. Qed.

Definition demo_calls : list gcm_call :=
  [mk_call false [1; 2; 3] false;
   mk_call false demo_block true;
   mk_call false [9; 9] true].



Example gcm_tag_spec_values :
  let c3 := fst (fst (run_calls 0 (fst demo_session) demo_calls
                        (snd demo_session))) in
  ctr c3 = replicate 12 0 ++ [0; 0; 0; 3]
  /\ len c3 = mk_lengths 24 144
  /\ tag_offset (len c3) = 0xfffffffe
  /\ gcm_count (ctr c3) (tag_offset (len c3)) = replicate 12 0 ++ [0; 0; 0; 1].
Proof. vm_compute. repeat split; reflexivity. Qed.

(** ** Well-formedness of the hash over a session *)

(** The buffers handed to the loop hold bytes, and at least [n] of them. *)
Definition inputs_ok (src : option (list Z)) (dst : bool) (hsrc : hash_ptr)
    (n : nat) : Prop :=
  (dst = true ->
   exists s, src = Some s /\ wf_bytes s /\ (n <= length s)%nat)
  /\ match hsrc with
     | hash_is_dst => dst = true
     | hash_input buf => wf_bytes buf /\ (n <= length buf)%nat
     end.

Lemma wf_bytes_gcm_xor (s t : list Z) (n : nat) :
  wf_bytes s -> wf_bytes t -> wf_bytes (gcm_xor s t n).
Proof.
  intros Hs Ht. unfold gcm_xor.
  apply wf_bytes_lxor; now apply wf_bytes_take.
Qed.

Lemma process_frag_pure_wf (c : gcm_context) (src : option (list Z))
    (dst : bool) (hsrc : hash_ptr) (f n : nat) :
  cipher_wf (raw_cipher c) -> wf_block (key c) -> wf_block (hash c) ->
  (f <= 16)%nat -> (f <= n)%nat -> inputs_ok src dst hsrc n ->
  wf_block (hash (fst (process_frag_pure c src dst hsrc f))).
Proof.
  intros Hciph HH HY Hf Hfn [Hsrc Hhash]. unfold process_frag_pure.
  set (c1 := set_ctr c (gcm_count (ctr c) 1)).
  set (tmp := cipher_encrypt (raw_cipher c1) (raw_ctx c1) (ctr c1)).
  assert (Htmp : wf_block tmp) by apply Hciph.
  assert (Hgoal : forall hfrag c',
            hash c' = hash c -> key c' = key c ->
            wf_bytes hfrag -> (f <= length hfrag)%nat ->
            wf_block (gcm_mult_H (key c')
                        (gcm_xor hfrag (hash c') f ++ drop f (hash c')))).
  { intros hfrag c' -> -> Hw Hl.
    rewrite gcm_xor_padded by (try apply HY; lia).
    apply gcm_mult_H_wf; [exact HH|].
    apply wf_gcm_xor_block; [exact HY|now apply wf_padded_fragment]. }
  destruct dst.
  - destruct (Hsrc eq_refl) as (s & -> & Hs & Hls).
    cbn [default from_option fst hash set_hash]. unfold id.
    assert (Hw : wf_bytes (gcm_xor s tmp f))
      by (apply wf_bytes_gcm_xor; [exact Hs|apply Htmp]).
    assert (Hl : length (gcm_xor s tmp f) = f)
      by (apply gcm_xor_length; [lia|destruct Htmp as [-> _]; lia]).
    destruct hsrc as [|buf].
    + apply Hgoal; [reflexivity|reflexivity|exact Hw|lia].
    + destruct Hhash as [Hb Hlb].
      apply Hgoal; [reflexivity|reflexivity|exact Hb|lia].
  - destruct hsrc as [|buf]; [discriminate|].
    destruct Hhash as [Hb Hlb]. cbn [fst hash set_hash].
    apply Hgoal; [reflexivity|reflexivity|exact Hb|lia].
Qed.

Lemma inputs_ok_advance (src : option (list Z)) (dst : bool)
    (hsrc : hash_ptr) (f n : nat) :
  (f <= n)%nat -> inputs_ok src dst hsrc n ->
  inputs_ok (if dst then drop f <$> src else src) dst (hash_advance f hsrc)
    (n - f).
Proof.
  intros Hf [Hsrc Hhash]. split.
  - intros ->. destruct (Hsrc eq_refl) as (s & -> & Hs & Hl).
    exists (drop f s). cbn. split; [reflexivity|].
    split; [now apply wf_bytes_drop|rewrite length_drop; lia].
  - destruct hsrc as [|buf]; [exact Hhash|]. destruct Hhash as [Hb Hl].
    cbn. split; [now apply wf_bytes_drop|rewrite length_drop; lia].
Qed.

Lemma process_loop_pure_wf (fuel : nat) (c : gcm_context)
    (src : option (list Z)) (dst : bool) (hsrc : hash_ptr) (n : nat)
    (out : list Z) :
  cipher_wf (raw_cipher c) -> wf_block (key c) -> wf_block (hash c) ->
  inputs_ok src dst hsrc n ->
  wf_block (hash (fst (process_loop_pure fuel c src dst hsrc n out))).
Proof.
  revert c src hsrc n out.
  induction fuel as [|fuel IH]; intros c src hsrc n out Hciph HH HY Hin;
    [exact HY|].
  cbn [process_loop_pure].
  destruct (Nat.eqb_spec n 0) as [|Hn]; [exact HY|].
  set (f := if (16 <? n)%nat then 16%nat else n).
  assert (Hf : (f <= 16)%nat /\ (f <= n)%nat).
  { unfold f. destruct (Nat.ltb_spec 16 n); lia. }
  pose proof (process_frag_pure_wf c src dst hsrc f n Hciph HH HY
                (proj1 Hf) (proj2 Hf) Hin) as HY1.
  pose proof (process_frag_pure_key c src dst hsrc f) as (Hk & Hc & _).
  destruct (process_frag_pure c src dst hsrc f) as [c1 w].
  cbn [fst] in *. apply IH.
  - now rewrite Hc.
  - now rewrite Hk.
  - exact HY1.
  - apply inputs_ok_advance; [apply Hf|exact Hin].
Qed.

Lemma call_pure_wf (m : gcm_mode) (c : gcm_context) (d : list Z) :
  cipher_wf (raw_cipher c) -> wf_block (key c) -> wf_block (hash c) ->
  wf_bytes d ->
  wf_block (hash (fst (call_pure m c d))).
Proof.
  intros Hciph HH HY Hd. unfold call_pure, process_pure.
  apply process_loop_pure_wf; auto.
  destruct m; (split; [intros Hdst; try discriminate; eauto|]);
    cbn [mode_hash mode_dst]; auto.
Qed.

(** Every buffer passed to a call holds bytes. *)
Definition calls_wf (cls : list gcm_call) : Prop :=
  Forall (fun cl => wf_bytes (call_src cl)) cls.

Lemma calls_pure_wf (c : gcm_context) (cls : list gcm_call) :
  cipher_wf (raw_cipher c) -> wf_block (key c) -> wf_block (hash c) ->
  calls_wf cls ->
  wf_block (hash (fst (calls_pure c cls))).
Proof.
  intros Hciph HH HY Hcls. revert c Hciph HH HY.
  induction Hcls as [|cl cls Hcl _ IH]; intros c Hciph HH HY; [exact HY|].
  cbn [calls_pure].
  pose proof (call_pure_wf (call_mode cl) c (call_src cl) Hciph HH HY Hcl)
    as HY1.
  pose proof (call_pure_key (call_mode cl) c (call_src cl)) as (Hk & Hc & _).
  destruct (call_pure (call_mode cl) c (call_src cl)) as [c1 o1].
  cbn [fst] in *.
  specialize (IH c1 ltac:(now rewrite Hc) ltac:(now rewrite Hk) HY1).
  now destruct (calls_pure c1 cls).
Qed.

(** * Further properties *)

(** ** Bit reversal *)

Definition gcm_reverse_ok (etyb0 b : Z) : bool :=
  let r := gcm_reverse_from etyb0 b in
  (0 <=? r) && (r <? 256)
  && forallb (fun k => Bool.eqb (Z.testbit r k) (Z.testbit b (7 - k)))
       [0; 1; 2; 3; 4; 5; 6; 7]
  && (r =? gcm_reverse b)
  && (gcm_reverse r =? b).

Lemma gcm_reverse_all_ok :
  forallb (fun e => forallb (gcm_reverse_ok e) all_bytes) all_bytes = true.
Proof. vm_compute. reflexivity. Qed.

(** X1.  [gcm_reverse] returns the byte whose bit [k] is bit [7 - k] of
    its argument, whatever value the local [etyb] holds on entry; applied
    twice it gives the argument back. *)
Theorem gcm_reverse_bits (etyb0 b k : Z) :
  is_byte etyb0 -> is_byte b -> 0 <= k < 8 ->
  is_byte (gcm_reverse_from etyb0 b)
  /\ Z.testbit (gcm_reverse_from etyb0 b) k = Z.testbit b (7 - k)
  /\ gcm_reverse_from etyb0 b = gcm_reverse b
  /\ gcm_reverse (gcm_reverse b) = b.
Proof.
  intros He Hb Hk.
  pose proof (byte_cases _ gcm_reverse_all_ok etyb0 He) as Hall.
  pose proof (byte_cases _ Hall b Hb) as Hok.
  unfold gcm_reverse_ok in Hok. cbv zeta in Hok.
  apply andb_true_iff in Hok as [Hok Hinv].
  apply andb_true_iff in Hok as [Hok Hsame].
  apply andb_true_iff in Hok as [Hrange Hbits].
  apply andb_true_iff in Hrange as [H0 H256].
  apply Z.leb_le in H0. apply Z.ltb_lt in H256.
  apply Z.eqb_eq in Hsame, Hinv.
  rewrite forallb_forall in Hbits.
  split; [unfold is_byte; lia|]. split.
  - apply eqb_prop, Hbits.
    assert (Hcases : k = 0 \/ k = 1 \/ k = 2 \/ k = 3 \/ k = 4 \/ k = 5
                     \/ k = 6 \/ k = 7) by lia.
    cbn [In]. intuition auto.
  - split; [exact Hsame|]. rewrite <- Hsame. exact Hinv.
Qed.

Lemma gcm_reverse_bits_witness :
  is_byte (gcm_reverse_from 0xff 0x12)
  /\ Z.testbit (gcm_reverse_from 0xff 0x12) 3 = Z.testbit 0x12 (7 - 3)
  /\ gcm_reverse_from 0xff 0x12 = gcm_reverse 0x12
  /\ gcm_reverse (gcm_reverse 0x12) = 0x12.
Proof.
  apply (gcm_reverse_bits 0xff 0x12 3); unfold is_byte; lia.
Defined.

(** ** The product in GF(2^128) *)

(** The coefficients of the polynomial a byte, or a block, stands for,
    lowest power of x first: bit 7 of byte 0 is the coefficient of x^0. *)
Definition byte_bits (b : Z) : list bool :=
  map (fun k => Z.testbit b (7 - Z.of_nat k)) (seq 0 8).

Definition block_bits (B : gcm_block) : list bool := flat_map byte_bits B.

(** The product of [H] and the polynomial with coefficients [bits], by
    Horner's rule: one [gcm_multiply_x] per coefficient. *)
Fixpoint gcm_product (H : gcm_block) (bits : list bool) : gcm_block :=
  match bits with
  | [] => zero_block
  | b :: rest =>
      gcm_xor_block (if b then H else zero_block)
        (gcm_multiply_x (gcm_product H rest))
  end.

(** The same on big-endian readings. *)
Fixpoint product_Z (h : Z) (bits : list bool) : Z :=
  match bits with
  | [] => 0
  | b :: rest => Z.lxor (mul_x_Z (product_Z h rest)) (if b then h else 0)
  end.

Lemma product_Z_cons (h : Z) (b : bool) (rest : list bool) :
  product_Z h (b :: rest)
  = Z.lxor (mul_x_Z (product_Z h rest)) (if b then h else 0).
Proof. reflexivity. Qed.

Lemma be_decode_zero_block : be_decode zero_block = 0.
Proof. reflexivity. Qed.

Lemma be_decode_gcm_xor_block (x y : gcm_block) :
  wf_block x -> wf_block y ->
  be_decode (gcm_xor_block x y) = Z.lxor (be_decode y) (be_decode x).
Proof.
  intros [Hlx Hx] [Hly Hy]. unfold gcm_xor_block.
  rewrite !firstn_all2 by lia. apply be_decode_lxor; auto. lia.
Qed.

Lemma gcm_product_spec (H : gcm_block) (bits : list bool) :
  wf_block H ->
  wf_block (gcm_product H bits)
  /\ be_decode (gcm_product H bits) = product_Z (be_decode H) bits.
Proof.
  intros HH. induction bits as [|b bits [IHwf IHval]].
  - split; [apply wf_zero_block|reflexivity].
  - cbn [gcm_product product_Z].
    destruct (gcm_multiply_x_spec _ IHwf) as [Hwf Hval].
    assert (Hb : wf_block (if b then H else zero_block))
      by (destruct b; [exact HH|apply wf_zero_block]).
    split; [now apply wf_gcm_xor_block|].
    rewrite be_decode_gcm_xor_block by assumption.
    rewrite Hval, IHval. now destruct b.
Qed.

Lemma mul_x_Z_iter_0 (n : nat) : Nat.iter n mul_x_Z 0 = 0.
Proof.
  induction n as [|n IH]; [reflexivity|].
  rewrite Nat.iter_succ, IH. reflexivity.
Qed.

Lemma product_Z_app (h : Z) (l1 l2 : list bool) :
  product_Z h (l1 ++ l2)
  = Z.lxor (product_Z h l1) (Nat.iter (length l1) mul_x_Z (product_Z h l2)).
Proof.
  induction l1 as [|b l1 IH]; [reflexivity|].
  cbn [app product_Z length]. rewrite Nat.iter_succ, IH, mul_x_Z_lxor.
  set (p := mul_x_Z (product_Z h l1)).
  set (q := mul_x_Z (Nat.iter (length l1) mul_x_Z (product_Z h l2))).
  set (r := if b then h else 0). clearbody p q r. xor_bits.
Qed.

Lemma product_Z_zeros (h : Z) (n : nat) : product_Z h (replicate n false) = 0.
Proof.
  induction n as [|n IH]; [reflexivity|].
  cbn [replicate product_Z]. now rewrite IH.
Qed.

Lemma product_Z_snoc_false (h : Z) (l : list bool) :
  product_Z h (l ++ [false]) = product_Z h l.
Proof.
  rewrite product_Z_app.
  change (product_Z h [false]) with 0.
  now rewrite mul_x_Z_iter_0, Z.lxor_0_r.
Qed.

(** *** The entries of the multiplication table *)

Section table_fill_spec.
Context {A : Type} `{Inhabited A}.
Variable f : nat -> A -> A.
Variable R : nat -> A -> Prop.

Lemma fill_spec (ixs known : list nat) (t : list A) :
  length t = 256%nat ->
  (forall i e, In i ixs -> R (other_of i) e -> R (this_of i) (f i e)) ->
  (forall j, In j known -> R j (t !!! j)) ->
  deps_ok ixs known = true ->
  forall j, (j < 256)%nat -> R j (fold_left (fill_step f) ixs t !!! j).
Proof.
  revert known t.
  induction ixs as [|i ixs IH]; intros known t Hlen Hstep Hk Hok j Hj.
  - cbn [fold_left]. cbn [deps_ok] in Hok. rewrite forallb_forall in Hok.
    apply Hk, existsb_eqb_In, Hok, in_seq. lia.
  - cbn [deps_ok] in Hok.
    apply andb_true_iff in Hok as [Hok Hrest].
    apply andb_true_iff in Hok as [Hother Hthis].
    apply existsb_eqb_In in Hother. apply Nat.ltb_lt in Hthis.
    cbn [fold_left]. apply (IH (this_of i :: known)).
    + now rewrite fill_step_length.
    + intros i' e Hi'. apply Hstep. now right.
    + intros j' Hj'. unfold fill_step.
      destruct (decide (j' = this_of i)) as [->|Hne].
      * rewrite list_lookup_total_insert_eq by lia.
        apply Hstep; [now left|now apply Hk].
      * rewrite list_lookup_total_insert_ne by congruence.
        destruct Hj' as [Hj'|Hj']; [congruence|now apply Hk].
    + exact Hrest.
    + exact Hj.
Qed.
End table_fill_spec.

(** How the coefficients of the entry written in iteration [i] relate to
    those of the entry it is computed from. *)
Definition entry_bits_ok (i : nat) : bool :=
  let this := byte_bits (Z.of_nat (this_of i)) in
  let other := byte_bits (Z.of_nat (other_of i)) in
  if Z.land (gcm_reverse (Z.of_nat i)) 0x80 =? 0
  then bool_decide (this = false :: take 7 other)
       && bool_decide (other = take 7 other ++ [false])
  else bool_decide (this = true :: drop 1 other)
       && bool_decide (other = false :: drop 1 other).

Lemma entries_bits_ok : forallb entry_bits_ok (seq 1 255) = true.
Proof. vm_compute. reflexivity. Qed.

Lemma mult_entry_spec (H : gcm_block) (i : nat) (e : gcm_block) :
  wf_block H -> In i (seq 1 255) ->
  wf_block e
  /\ be_decode e = product_Z (be_decode H) (byte_bits (Z.of_nat (other_of i))) ->
  wf_block (mult_entry H i e)
  /\ be_decode (mult_entry H i e)
     = product_Z (be_decode H) (byte_bits (Z.of_nat (this_of i))).
Proof.
  intros HH Hi [He Hval].
  pose proof entries_bits_ok as Hall. rewrite forallb_forall in Hall.
  specialize (Hall i Hi). unfold entry_bits_ok in Hall. cbv zeta in Hall.
  unfold mult_entry.
  revert Hval Hall.
  generalize (byte_bits (Z.of_nat (this_of i)))
    (byte_bits (Z.of_nat (other_of i))).
  intros this other Hval Hall.
  destruct (Z.land (gcm_reverse (Z.of_nat i)) 128 =? 0).
  - apply andb_true_iff in Hall as [Hthis Hother].
    apply bool_decide_eq_true in Hthis, Hother.
    destruct (gcm_multiply_x_spec e He) as [Hwf Hx].
    split; [exact Hwf|].
    rewrite Hx, Hval, Hthis, Hother at 1.
    rewrite product_Z_snoc_false, product_Z_cons.
    now rewrite Z.lxor_0_r.
  - apply andb_true_iff in Hall as [Hthis Hother].
    apply bool_decide_eq_true in Hthis, Hother.
    change (gcm_xor H e 16) with (gcm_xor_block e H).
    split; [now apply wf_gcm_xor_block|].
    rewrite be_decode_gcm_xor_block by assumption.
    rewrite Hval, Hthis, Hother at 1. rewrite !product_Z_cons.
    rewrite Z.lxor_0_r. apply Z.lxor_comm.
Qed.

Lemma gcm_mult_table_spec (H : gcm_block) (b : Z) :
  wf_block H -> is_byte b ->
  be_decode (gcm_mult_table H !!! Z.to_nat b)
  = product_Z (be_decode H) (byte_bits b).
Proof.
  intros HH Hb. unfold is_byte in Hb.
  pose proof (fill_spec (mult_entry H)
                (fun j e => wf_block e
                   /\ be_decode e
                      = product_Z (be_decode H) (byte_bits (Z.of_nat j)))
                (seq 1 255) [0%nat] (replicate 256 zero_block)) as Hfill.
  cbv beta in Hfill.
  destruct (Hfill (length_replicate _ _)) with (j := Z.to_nat b)
    as [_ Hval]; try lia.
  - intros i e Hi. now apply mult_entry_spec.
  - intros j [<-|[]]. split; [apply wf_zero_block|].
    change (replicate 256 zero_block !!! 0%nat) with zero_block.
    rewrite be_decode_zero_block. symmetry.
    exact (product_Z_zeros (be_decode H) 8).
  - exact deps_ok_cache.
  - rewrite Z2Nat.id in Hval by lia. exact Hval.
Qed.

(** *** Shoup's method *)

Lemma gcm_multiply_x_8_Z (g : gcm_statics) (B : gcm_block) :
  gcm_cached_reduce g = gcm_reduce_table -> wf_block B ->
  wf_block (gcm_multiply_x_8 g B)
  /\ be_decode (gcm_multiply_x_8 g B) = Nat.iter 8 mul_x_Z (be_decode B).
Proof.
  intros Hg HB. destruct (gcm_multiply_x_8_spec g B Hg HB) as [Hwf Hval].
  split; [exact Hwf|]. rewrite Hval, mul_x_Z_eight. f_equal.
  symmetry. apply gcm_reduce_table_spec.
  unfold is_byte. apply Z.mod_pos_bound. lia.
Qed.

Lemma shoup_fold_Z (h : Z) (M : list gcm_block) (g : gcm_statics)
    (bs : list Z) (acc : gcm_block) (bits : list bool) :
  (forall b, is_byte b ->
     wf_block (M !!! Z.to_nat b)
     /\ be_decode (M !!! Z.to_nat b) = product_Z h (byte_bits b)) ->
  gcm_cached_reduce g = gcm_reduce_table ->
  wf_bytes bs -> wf_block acc -> be_decode acc = product_Z h bits ->
  be_decode (fold_left
               (fun res byte =>
                  gcm_xor_block (M !!! Z.to_nat byte) (gcm_multiply_x_8 g res))
               bs acc)
  = product_Z h (flat_map byte_bits (rev bs) ++ bits).
Proof.
  intros HM Hr Hbs. revert acc bits.
  induction Hbs as [|b bs Hb _ IH]; intros acc bits Hacc Hval; [exact Hval|].
  cbn [fold_left rev]. rewrite flat_map_app. cbn [flat_map].
  rewrite app_nil_r, <- app_assoc.
  destruct (gcm_multiply_x_8_Z g acc Hr Hacc) as [Hw8 Hv8].
  destruct (HM b Hb) as [Hwm Hvm].
  set (x := gcm_multiply_x_8 g acc) in *.
  set (y := M !!! Z.to_nat b).
  assert (Hwy : wf_block y) by exact Hwm.
  assert (Hvy : be_decode y = product_Z h (byte_bits b)) by exact Hvm.
  clearbody x y. clear Hwm Hvm. rename Hw8 into Hwx, Hv8 into Hvx.
  apply IH.
  - now apply wf_gcm_xor_block.
  - rewrite be_decode_gcm_xor_block by assumption.
    rewrite Hvx, Hvy, Hval, product_Z_app. apply Z.lxor_comm.
Qed.

Lemma shoup_Z (g : gcm_statics) (H poly : gcm_block) :
  gcm_cached_mult g = gcm_mult_table H ->
  gcm_cached_reduce g = gcm_reduce_table ->
  wf_block H -> wf_block poly ->
  be_decode (shoup g poly) = product_Z (be_decode H) (block_bits poly).
Proof.
  intros Hm Hr HH Hpoly. unfold shoup. rewrite Hm.
  destruct (block_last_byte poly Hpoly) as (Hsplit & Hb & _ & _).
  assert (HM : forall b, is_byte b ->
            wf_block (gcm_mult_table H !!! Z.to_nat b)
            /\ be_decode (gcm_mult_table H !!! Z.to_nat b)
               = product_Z (be_decode H) (byte_bits b)).
  { intros b Hb'. split; [now apply gcm_mult_table_lookup_wf|].
    now apply gcm_mult_table_spec. }
  rewrite (shoup_fold_Z (be_decode H) (gcm_mult_table H) g
             (rev (take 15 poly)) _ (byte_bits (poly !!! 15%nat)) HM Hr).
  - rewrite rev_involutive. f_equal. unfold block_bits.
    rewrite Hsplit at 3. rewrite flat_map_app. cbn [flat_map].
    now rewrite app_nil_r.
  - apply Forall_rev, wf_bytes_take, Hpoly.
  - now apply HM.
  - now apply HM.
Qed.

Lemma gcm_mult_H_Z (H poly : gcm_block) :
  wf_block H -> wf_block poly ->
  be_decode (gcm_mult_H H poly) = product_Z (be_decode H) (block_bits poly).
Proof.
  intros HH Hpoly. unfold gcm_mult_H.
  exact (shoup_Z (statics_at 0 H) H poly (statics_at_mult 0 H)
           (statics_at_reduce 0 H) HH Hpoly).
Qed.

Lemma gcm_mult_H_product (H poly : gcm_block) :
  wf_block H -> wf_block poly ->
  gcm_mult_H H poly = gcm_product H (block_bits poly).
Proof.
  intros HH Hpoly.
  destruct (gcm_product_spec H (block_bits poly) HH) as [[Hl Hw] Hv].
  destruct (gcm_mult_H_wf H poly HH Hpoly) as [Hl' Hw'].
  apply be_decode_inj; auto; [congruence|].
  now rewrite Hv, gcm_mult_H_Z.
Qed.

(** *** Linearity *)

Lemma byte_bits_length (b : Z) : length (byte_bits b) = 8%nat.
Proof. reflexivity. Qed.

Lemma byte_bits_lxor (a b : Z) :
  byte_bits (Z.lxor a b) = zip_with xorb (byte_bits a) (byte_bits b).
Proof. unfold byte_bits. cbn [map seq zip_with]. now rewrite !Z.lxor_spec. Qed.

Lemma block_bits_lxor (xs ys : list Z) :
  length xs = length ys ->
  block_bits (zip_with Z.lxor xs ys)
  = zip_with xorb (block_bits xs) (block_bits ys).
Proof.
  revert ys. induction xs as [|x xs IH]; intros [|y ys] Hl;
    try discriminate; [reflexivity|].
  injection Hl as Hl. unfold block_bits in *.
  cbn [zip_with flat_map].
  rewrite zip_with_app by now rewrite !byte_bits_length.
  now rewrite byte_bits_lxor, IH.
Qed.

Lemma product_Z_xorb (h : Z) (l1 l2 : list bool) :
  length l1 = length l2 ->
  product_Z h (zip_with xorb l1 l2)
  = Z.lxor (product_Z h l1) (product_Z h l2).
Proof.
  revert l2. induction l1 as [|b1 l1 IH]; intros [|b2 l2] Hl;
    try discriminate; [reflexivity|].
  injection Hl as Hl. cbn [zip_with]. rewrite !product_Z_cons.
  rewrite IH, mul_x_Z_lxor by exact Hl.
  set (p := mul_x_Z (product_Z h l1)). set (q := mul_x_Z (product_Z h l2)).
  clearbody p q. destruct b1, b2; cbn [xorb]; xor_bits.
Qed.

Lemma block_bits_length (B : gcm_block) :
  length (block_bits B) = (8 * length B)%nat.
Proof.
  unfold block_bits. induction B as [|b B IH]; [reflexivity|].
  cbn [flat_map]. rewrite length_app, byte_bits_length, IH.
  cbn [length]. lia.
Qed.

Lemma gcm_mult_H_lxor (H A B : gcm_block) :
  wf_block H -> wf_block A -> wf_block B ->
  gcm_mult_H H (gcm_xor_block A B)
  = gcm_xor_block (gcm_mult_H H A) (gcm_mult_H H B).
Proof.
  intros HH HA HB.
  pose proof (wf_gcm_xor_block A B HA HB) as HAB.
  pose proof (gcm_mult_H_wf H A HH HA) as HmA.
  pose proof (gcm_mult_H_wf H B HH HB) as HmB.
  pose proof (gcm_mult_H_wf H _ HH HAB) as [Hl1 Hw1].
  pose proof (wf_gcm_xor_block _ _ HmA HmB) as [Hl2 Hw2].
  apply be_decode_inj; [exact Hw1|exact Hw2|congruence|].
  rewrite be_decode_gcm_xor_block by assumption.
  rewrite !gcm_mult_H_Z by assumption.
  destruct HA as [HlA _], HB as [HlB _].
  unfold gcm_xor_block. rewrite !firstn_all2 by lia.
  rewrite block_bits_lxor by lia.
  apply product_Z_xorb. rewrite !block_bits_length. lia.
Qed.

Lemma gcm_mult_H_zero (H : gcm_block) :
  wf_block H -> gcm_mult_H H zero_block = zero_block.
Proof.
  intros HH.
  pose proof (gcm_mult_H_wf H zero_block HH wf_zero_block) as [Hl Hw].
  apply be_decode_inj; [exact Hw|apply wf_zero_block|exact Hl|].
  rewrite gcm_mult_H_Z by (auto using wf_zero_block).
  exact (product_Z_zeros (be_decode H) 128).
Qed.

Lemma gcm_multiply_x_lxor (A B : gcm_block) :
  wf_block A -> wf_block B ->
  gcm_multiply_x (gcm_xor_block A B)
  = gcm_xor_block (gcm_multiply_x A) (gcm_multiply_x B).
Proof.
  intros HA HB.
  pose proof (wf_gcm_xor_block A B HA HB) as HAB.
  destruct (gcm_multiply_x_spec _ HA) as [HwA HvA].
  destruct (gcm_multiply_x_spec _ HB) as [HwB HvB].
  destruct (gcm_multiply_x_spec _ HAB) as [[Hl1 Hw1] Hv].
  pose proof (wf_gcm_xor_block _ _ HwA HwB) as [Hl2 Hw2].
  apply be_decode_inj; auto; [congruence|].
  rewrite Hv, !be_decode_gcm_xor_block by assumption.
  now rewrite mul_x_Z_lxor, HvA, HvB.
Qed.

(** ** Field arithmetic: what the functions compute *)

Definition demo_H : gcm_block :=
  hex_block 0x66e94bd4ef8a2c3b884cfa59ca342b2e.

Definition demo_B : gcm_block :=
  hex_block 0x0388dace60b6a392f328c2b971b2fe78.

(** X2.  [gcm_multiply_x] shifts the 128-bit big-endian reading of the
    block one bit to the right and, when the bit shifted out is set, XORs
    0xe1 into the most significant byte; the result is again a block of
    sixteen bytes. *)
Theorem gcm_multiply_x_shift (B : gcm_block) :
  wf_block B ->
  wf_block (gcm_multiply_x B)
  /\ be_decode (gcm_multiply_x B)
     = Z.lxor (Z.shiftr (be_decode B) 1)
         (if Z.odd (be_decode B) then Z.shiftl GCM_POLY 120 else 0).
Proof. intros HB. exact (gcm_multiply_x_spec B HB). Qed.

Lemma gcm_multiply_x_shift_witness :
  wf_block (gcm_multiply_x demo_B)
  /\ be_decode (gcm_multiply_x demo_B)
     = Z.lxor (Z.shiftr (be_decode demo_B) 1)
         (if Z.odd (be_decode demo_B) then Z.shiftl GCM_POLY 120 else 0).
Proof. apply (gcm_multiply_x_shift demo_B). apply wf_hex_block. Defined.

(** X3.  [gcm_multiply_x] is linear: it maps the XOR of two blocks to the
    XOR of their images. *)
Theorem gcm_multiply_x_linear (A B : gcm_block) :
  wf_block A -> wf_block B ->
  gcm_multiply_x (gcm_xor_block A B)
  = gcm_xor_block (gcm_multiply_x A) (gcm_multiply_x B).
Proof. intros HA HB. now apply gcm_multiply_x_lxor. Qed.

Lemma gcm_multiply_x_linear_witness :
  gcm_multiply_x (gcm_xor_block demo_H demo_B)
  = gcm_xor_block (gcm_multiply_x demo_H) (gcm_multiply_x demo_B).
Proof. apply (gcm_multiply_x_linear demo_H demo_B); apply wf_hex_block. Defined.

(** X4.  The entry [gcm_cache] leaves at index [i] of the multiplication
    table is the product of the hash key and the polynomial P(i) whose
    coefficients are the bits of [i], most significant bit first. *)
Theorem gcm_cache_mult_entry (keyp : ptr) (H : gcm_block) (g : gcm_statics)
    (i : Z) :
  statics_wf g -> wf_block H -> is_byte i ->
  gcm_cached_mult (gcm_cache keyp H g) !!! Z.to_nat i
  = gcm_product H (byte_bits i).
Proof.
  intros Hg HH Hi. rewrite gcm_cache_tables by exact Hg.
  cbn [gcm_cached_mult].
  destruct (gcm_product_spec H (byte_bits i) HH) as [[Hl Hw] Hv].
  destruct (gcm_mult_table_lookup_wf H i HH Hi) as [Hl' Hw'].
  apply be_decode_inj; auto; [congruence|].
  now rewrite Hv, gcm_mult_table_spec.
Qed.

Lemma gcm_cache_mult_entry_witness :
  gcm_cached_mult (gcm_cache 48 demo_H gcm_statics_bss) !!! Z.to_nat 0xa5
  = gcm_product demo_H (byte_bits 0xa5).
Proof.
  apply (gcm_cache_mult_entry 48 demo_H gcm_statics_bss 0xa5).
  - exact statics_wf_bss.
  - apply wf_hex_block.
  - unfold is_byte. lia.
Defined.

Definition reduce_product_ok (i : Z) : bool :=
  bool_decide
    (be_encode 2 (gcm_reduce_table !!! Z.to_nat i) ++ replicate 14 0
     = gcm_product (GCM_POLY :: replicate 15 0) (byte_bits i)).

Lemma reduce_products_ok : forallb reduce_product_ok all_bytes = true.
Proof. vm_compute. reflexivity. Qed.

(** X5.  The entry [gcm_cache] leaves at index [i] of the reduction
    table, as the two most significant bytes of a block, is the product
    of x^128 (the block 0xe1, 0, ..., 0) and P(i), whatever the key. *)
Theorem gcm_cache_reduce_entry (keyp : ptr) (H : gcm_block)
    (g : gcm_statics) (i : Z) :
  statics_wf g -> is_byte i ->
  be_encode 2 (gcm_cached_reduce (gcm_cache keyp H g) !!! Z.to_nat i)
    ++ replicate 14 0
  = gcm_product (GCM_POLY :: replicate 15 0) (byte_bits i).
Proof.
  intros Hg Hi. rewrite gcm_cache_tables by exact Hg.
  cbn [gcm_cached_reduce].
  pose proof (byte_cases _ reduce_products_ok i Hi) as Hok.
  unfold reduce_product_ok in Hok.
  now apply bool_decide_eq_true in Hok.
Qed.

Lemma gcm_cache_reduce_entry_witness :
  be_encode 2 (gcm_cached_reduce (gcm_cache 48 demo_H gcm_statics_bss)
                 !!! Z.to_nat 0xa5)
    ++ replicate 14 0
  = gcm_product (GCM_POLY :: replicate 15 0) (byte_bits 0xa5).
Proof.
  apply (gcm_cache_reduce_entry 48 demo_H gcm_statics_bss 0xa5).
  - exact statics_wf_bss.
  - unfold is_byte. lia.
Defined.

(** X6.  [gcm_cache] rebuilds both tables from the key alone: the tables
    it leaves do not depend on what the tables held before, and the
    reduction table does not depend on the key either. *)
Theorem gcm_cache_rebuild (keyp keyp' : ptr) (H H' : gcm_block)
    (g g' : gcm_statics) :
  statics_wf g -> statics_wf g' ->
  gcm_cache keyp H g = gcm_cache keyp H g'
  /\ gcm_cached_key (gcm_cache keyp H g) = Some keyp
  /\ gcm_cached_reduce (gcm_cache keyp H g)
     = gcm_cached_reduce (gcm_cache keyp' H' g')
  /\ statics_wf (gcm_cache keyp H g).
Proof.
  intros Hg Hg'. rewrite !gcm_cache_tables by assumption.
  split; [reflexivity|]. split; [reflexivity|]. split; [reflexivity|].
  apply statics_wf_at.
Qed.

Lemma gcm_cache_rebuild_witness :
  gcm_cache 48 demo_H gcm_statics_bss
  = gcm_cache 48 demo_H (gcm_cache 112 demo_B gcm_statics_bss)
  /\ gcm_cached_key (gcm_cache 48 demo_H gcm_statics_bss) = Some 48
  /\ gcm_cached_reduce (gcm_cache 48 demo_H gcm_statics_bss)
     = gcm_cached_reduce
         (gcm_cache 112 demo_B (gcm_cache 112 demo_B gcm_statics_bss))
  /\ statics_wf (gcm_cache 48 demo_H gcm_statics_bss).
Proof.
  apply (gcm_cache_rebuild 48 112 demo_H demo_B gcm_statics_bss
           (gcm_cache 112 demo_B gcm_statics_bss)).
  - exact statics_wf_bss.
  - apply gcm_cache_wf. exact statics_wf_bss.
Defined.

(** X7.  With a coherent cache, [gcm_multiply_key] returns the product in
    GF(2^128) of the hash key and its argument: the XOR, over the set
    coefficients x^k of the argument, of the key multiplied k times by x
    with [gcm_multiply_x]. *)
Theorem gcm_multiply_key_product (keyp : ptr) (H B : gcm_block)
    (g : gcm_statics) :
  statics_for keyp H g -> wf_block H -> wf_block B ->
  fst (gcm_multiply_key keyp H B g) = gcm_product H (block_bits B).
Proof.
  intros Hg HH HB.
  destruct (gcm_multiply_key_for keyp H B g Hg) as [-> _].
  now apply gcm_mult_H_product.
Qed.

Lemma gcm_multiply_key_product_witness :
  fst (gcm_multiply_key 48 demo_H demo_B gcm_statics_bss)
  = gcm_product demo_H (block_bits demo_B).
Proof.
  apply (gcm_multiply_key_product 48 demo_H demo_B gcm_statics_bss).
  - split; [exact statics_wf_bss|]. intros Hk. discriminate Hk.
  - apply wf_hex_block.
  - apply wf_hex_block.
Defined.

(** X8.  Multiplication by the hash key distributes over XOR, and the
    product of the key and the zero block is the zero block. *)
Theorem gcm_multiply_key_linear (keyp : ptr) (H A B : gcm_block)
    (g : gcm_statics) :
  statics_for keyp H g -> wf_block H -> wf_block A -> wf_block B ->
  fst (gcm_multiply_key keyp H (gcm_xor_block A B) g)
  = gcm_xor_block (fst (gcm_multiply_key keyp H A g))
      (fst (gcm_multiply_key keyp H B g))
  /\ fst (gcm_multiply_key keyp H zero_block g) = zero_block.
Proof.
  intros Hg HH HA HB.
  destruct (gcm_multiply_key_for keyp H (gcm_xor_block A B) g Hg) as [-> _].
  destruct (gcm_multiply_key_for keyp H A g Hg) as [-> _].
  destruct (gcm_multiply_key_for keyp H B g Hg) as [-> _].
  destruct (gcm_multiply_key_for keyp H zero_block g Hg) as [-> _].
  split; [now apply gcm_mult_H_lxor|now apply gcm_mult_H_zero].
Qed.

Lemma gcm_multiply_key_linear_witness :
  fst (gcm_multiply_key 48 demo_H (gcm_xor_block demo_B demo_H)
         gcm_statics_bss)
  = gcm_xor_block (fst (gcm_multiply_key 48 demo_H demo_B gcm_statics_bss))
      (fst (gcm_multiply_key 48 demo_H demo_H gcm_statics_bss))
  /\ fst (gcm_multiply_key 48 demo_H zero_block gcm_statics_bss) = zero_block.
Proof.
  apply (gcm_multiply_key_linear 48 demo_H demo_B demo_H gcm_statics_bss).
  - split; [exact statics_wf_bss|]. intros Hk. discriminate Hk.
  - apply wf_hex_block.
  - apply wf_hex_block.
  - apply wf_hex_block.
Defined.

Lemma statics_for_eq (keyp : ptr) (H : gcm_block) (g : gcm_statics) :
  statics_for keyp H g -> gcm_cached_key g = Some keyp ->
  g = statics_at keyp H.
Proof.
  intros [_ Hfor] Hk. destruct (Hfor Hk) as [Hm Hr].
  destruct g as [k m r]. cbn [gcm_cached_key gcm_cached_mult
                              gcm_cached_reduce] in *.
  subst. reflexivity.
Qed.

(** X9.  The product [gcm_multiply_key] returns does not depend on who
    owns the cache: whether the tables are already those of this key, or
    belong to a key stored elsewhere and are rebuilt first, the result is
    the same, and afterwards the statics are those [gcm_cache] leaves for
    this key. *)
Theorem gcm_multiply_key_cache (keyp keyp' : ptr) (H B : gcm_block)
    (g g' : gcm_statics) :
  statics_for keyp H g -> statics_for keyp' H g' ->
  fst (gcm_multiply_key keyp H B g) = fst (gcm_multiply_key keyp' H B g')
  /\ snd (gcm_multiply_key keyp H B g) = gcm_cache keyp H g.
Proof.
  intros Hg Hg'.
  destruct (gcm_multiply_key_for keyp H B g Hg) as [-> _].
  destruct (gcm_multiply_key_for keyp' H B g' Hg') as [-> _].
  split; [reflexivity|].
  rewrite gcm_multiply_key_unfold. cbv zeta. cbn [snd].
  rewrite (gcm_cache_tables keyp H g) by apply Hg.
  destruct (decide (gcm_cached_key g = Some keyp)) as [Hk|Hk];
    [|reflexivity].
  now apply statics_for_eq.
Qed.

Lemma gcm_multiply_key_cache_witness :
  fst (gcm_multiply_key 48 demo_H demo_B (gcm_cache 112 demo_B gcm_statics_bss))
  = fst (gcm_multiply_key 48 demo_H demo_B (gcm_cache 48 demo_H gcm_statics_bss))
  /\ snd (gcm_multiply_key 48 demo_H demo_B
            (gcm_cache 112 demo_B gcm_statics_bss))
     = gcm_cache 48 demo_H (gcm_cache 112 demo_B gcm_statics_bss).
Proof.
  apply (gcm_multiply_key_cache 48 48 demo_H demo_B
           (gcm_cache 112 demo_B gcm_statics_bss)
           (gcm_cache 48 demo_H gcm_statics_bss)).
  - split; [apply gcm_cache_wf, statics_wf_bss|].
    intros Hk. vm_compute in Hk. discriminate Hk.
  - apply statics_for_cache, statics_wf_bss.
Defined.

(** ** The counter *)

Lemma gcm_count_mod (y : gcm_block) (a b : Z) :
  u32 a = u32 b -> gcm_count y a = gcm_count y b.
Proof.
  intros Hab. unfold gcm_count. do 2 f_equal. unfold u32 in *.
  rewrite <- (Z.add_mod_idemp_r _ a), <- (Z.add_mod_idemp_r _ b) by lia.
  now rewrite Hab.
Qed.

(** X10.  Counter increments add up, only the increment modulo 2^32
    matters, and an increment by a multiple of 2^32 leaves the block as
    it was. *)
Theorem gcm_count_compose (y : gcm_block) (a b : Z) :
  wf_block y ->
  gcm_count (gcm_count y a) b = gcm_count y (a + b)
  /\ gcm_count y (a + b * 2 ^ 32) = gcm_count y a
  /\ gcm_count y (b * 2 ^ 32) = y.
Proof.
  intros Hy. split; [apply gcm_count_count, Hy|]. split.
  - apply gcm_count_mod. unfold u32. apply Z.mod_add. lia.
  - apply gcm_count_zero; [exact Hy|].
    unfold u32. apply Z.mod_mul. lia.
Qed.

Lemma gcm_count_compose_witness :
  gcm_count (gcm_count demo_B 0xffffffff) 2 = gcm_count demo_B (0xffffffff + 2)
  /\ gcm_count demo_B (0xffffffff + 2 * 2 ^ 32) = gcm_count demo_B 0xffffffff
  /\ gcm_count demo_B (2 * 2 ^ 32) = demo_B.
Proof. apply (gcm_count_compose demo_B 0xffffffff 2). apply wf_hex_block. Defined.

(** ** Counter mode *)

(** The key stream that follows the counter block [y]: the encryptions
    of [y + 1], [y + 2], ..., one block each. *)
Fixpoint keystream (cipher : cipher_algorithm) (rctx : list Z)
    (y : gcm_block) (k : nat) : list Z :=
  match k with
  | O => []
  | S k' =>
      cipher_encrypt cipher rctx (gcm_count y 1)
        ++ keystream cipher rctx (gcm_count y 1) k'
  end.

Lemma keystream_length (cipher : cipher_algorithm) (rctx : list Z)
    (y : gcm_block) (k : nat) :
  cipher_wf cipher -> length (keystream cipher rctx y k) = (16 * k)%nat.
Proof.
  intros Hc. revert y. induction k as [|k IH]; intros y; [reflexivity|].
  cbn [keystream]. rewrite length_app, IH.
  destruct (Hc rctx (gcm_count y 1)) as [-> _]. lia.
Qed.

Lemma keystream_wf (cipher : cipher_algorithm) (rctx : list Z)
    (y : gcm_block) (k : nat) :
  cipher_wf cipher -> wf_bytes (keystream cipher rctx y k).
Proof.
  intros Hc. revert y. induction k as [|k IH]; intros y; [constructor|].
  cbn [keystream]. apply wf_bytes_app; [apply Hc|apply IH].
Qed.

Lemma zip_with_take_r (xs ys : list Z) :
  zip_with Z.lxor xs (take (length xs) ys) = zip_with Z.lxor xs ys.
Proof.
  revert ys. induction xs as [|x xs IH]; intros [|y ys]; try reflexivity.
  cbn. now rewrite IH.
Qed.

Lemma count_blocks_bound (n : nat) : (n <= 16 * count_blocks n)%nat.
Proof.
  unfold count_blocks. pose proof (Nat.div_mod_eq (n + 15) 16).
  pose proof (Nat.mod_upper_bound (n + 15) 16). lia.
Qed.

Lemma process_loop_pure_stream (fuel : nat) (c : gcm_context) (s : list Z)
    (hsrc : hash_ptr) (n : nat) (out : list Z) :
  cipher_wf (raw_cipher c) -> (n <= fuel)%nat -> (n <= length s)%nat ->
  snd (process_loop_pure fuel c (Some s) true hsrc n out)
  = out ++ zip_with Z.lxor (take n s)
             (keystream (raw_cipher c) (raw_ctx c) (ctr c) (count_blocks n)).
Proof.
  revert c s hsrc n out.
  induction fuel as [|fuel IH]; intros c s hsrc n out Hc Hfuel Hs.
  - assert (n = 0%nat) as -> by lia. cbn. now rewrite app_nil_r.
  - cbn [process_loop_pure].
    destruct (Nat.eqb_spec n 0) as [->|Hn]; [cbn; now rewrite app_nil_r|].
    rewrite (count_blocks_step n) by lia. cbn [keystream].
    set (f := if (16 <? n)%nat then 16%nat else n).
    assert (Hf : (1 <= f <= 16)%nat /\ (f <= n)%nat).
    { unfold f. destruct (Nat.ltb_spec 16 n); lia. }
    unfold process_frag_pure. cbn [default from_option]. unfold id.
    cbn [raw_cipher raw_ctx ctr set_ctr].
    set (tmp := cipher_encrypt (raw_cipher c) (raw_ctx c)
                  (gcm_count (ctr c) 1)).
    assert (Htmp : length tmp = 16%nat) by apply Hc.
    cbn [fmap option_fmap option_map].
    rewrite IH; [|exact Hc|lia|rewrite length_drop; lia].
    cbn [raw_cipher raw_ctx ctr set_ctr set_hash].
    fold tmp. rewrite <- app_assoc. f_equal.
    set (ks := keystream (raw_cipher c) (raw_ctx c) (gcm_count (ctr c) 1)
                 (count_blocks (n - f))).
    unfold gcm_xor.
    replace (take n s) with (take f s ++ take (n - f) (drop f s))
      by (rewrite take_take_drop; f_equal; lia).
    assert (Hlf : length (take f s) = f) by (rewrite length_take; lia).
    unfold f in *. destruct (Nat.ltb_spec 16 n) as [Hlt|Hge].
    + rewrite (firstn_all2 tmp) by lia.
      rewrite zip_with_app by lia. reflexivity.
    + unfold ks. replace (n - n)%nat with 0%nat in * by lia.
      change (count_blocks 0) with 0%nat. cbn [keystream take zip_with].
      rewrite !app_nil_r.
      rewrite <- (zip_with_take_r (take n s) tmp). now rewrite Hlf.
Qed.

Lemma call_pure_stream (m : gcm_mode) (c : gcm_context) (d : list Z) :
  cipher_wf (raw_cipher c) -> mode_dst m = true ->
  snd (call_pure m c d)
  = zip_with Z.lxor d
      (keystream (raw_cipher c) (raw_ctx c) (ctr c)
         (count_blocks (length d))).
Proof.
  intros Hc Hm. unfold call_pure, process_pure. rewrite Hm.
  assert (Hs : mode_src m d = Some d) by (destruct m; try discriminate; auto).
  rewrite Hs, process_loop_pure_stream; [|exact Hc|lia|lia].
  now rewrite firstn_all.
Qed.

(** ** What the hash covers *)

(** The hash [Y] after the bytes [bs] have been absorbed under the key
    [H], the last block padded with zeros. *)
Definition absorb (H Y : gcm_block) (bs : list Z) : gcm_block :=
  fold_left (ghash_step H) (blocks (bs ++ zero_pad bs)) Y.

Lemma process_loop_pure_absorb (fuel : nat) (c : gcm_context)
    (src : option (list Z)) (dst : bool) (buf : list Z) (n : nat)
    (out : list Z) :
  wf_block (key c) -> wf_block (hash c) -> wf_bytes buf ->
  (n <= fuel)%nat -> (n <= length buf)%nat ->
  hash (fst (process_loop_pure fuel c src dst (hash_input buf) n out))
  = absorb (key c) (hash c) (take n buf).
Proof.
  unfold absorb. revert c src buf n out.
  induction fuel as [|fuel IH]; intros c src buf n out HH HY Hbuf Hfuel Hn.
  - assert (n = 0%nat) as -> by lia. reflexivity.
  - cbn [process_loop_pure].
    destruct (Nat.eqb_spec n 0) as [->|Hn0]; [reflexivity|].
    rewrite blocks_step by lia. cbv zeta.
    set (f := if (16 <? n)%nat then 16%nat else n).
    assert (Hf : (1 <= f <= 16)%nat /\ (f <= n)%nat).
    { unfold f. destruct (Nat.ltb_spec 16 n); lia. }
    pose proof (wf_padded_fragment buf f Hbuf ltac:(lia) ltac:(lia)) as HB.
    rewrite blocks_cons by apply HB. cbn [fold_left].
    pose proof (gcm_xor_padded buf (hash c) f ltac:(apply HY) ltac:(lia)
                  ltac:(lia)) as Hpad.
    set (Y' := ghash_step (key c) (hash c)
                 (take f buf ++ replicate (16 - f) 0)).
    assert (HY' : wf_block Y') by now apply ghash_step_wf.
    assert (Hfrag : exists c1 w,
              process_frag_pure c src dst (hash_input buf) f = (c1, w)
              /\ key c1 = key c /\ hash c1 = Y').
    { unfold process_frag_pure. destruct dst.
      - eexists _, _. split; [reflexivity|].
        cbn [key hash set_hash set_ctr]. rewrite Hpad. now split.
      - eexists _, _. split; [reflexivity|].
        cbn [key hash set_hash]. rewrite Hpad. now split. }
    destruct Hfrag as (c1 & w & -> & Hk1 & Hh1).
    cbn [hash_advance]. rewrite <- Hk1, <- Hh1.
    apply IH; [now rewrite Hk1|now rewrite Hh1|now apply wf_bytes_drop|lia|].
    rewrite length_drop. lia.
Qed.

Lemma call_pure_absorb_input (m : gcm_mode) (c : gcm_context) (d : list Z) :
  m <> mode_encrypt ->
  wf_block (key c) -> wf_block (hash c) -> wf_bytes d ->
  hash (fst (call_pure m c d)) = absorb (key c) (hash c) d.
Proof.
  intros Hm HH HY Hd. unfold call_pure, process_pure.
  assert (Hh : mode_hash m d = hash_input d) by now destruct m.
  rewrite Hh, process_loop_pure_absorb; auto.
  now rewrite firstn_all.
Qed.

Lemma call_pure_absorb_output (c : gcm_context) (d : list Z) :
  cipher_wf (raw_cipher c) ->
  wf_block (key c) -> wf_block (hash c) -> wf_bytes d ->
  hash (fst (call_pure mode_encrypt c d))
  = absorb (key c) (hash c) (snd (call_pure mode_encrypt c d)).
Proof.
  intros Hc HH HY Hd.
  pose proof (call_pure_inverse c d Hc) as Hinv. cbv zeta in Hinv.
  apply (f_equal fst) in Hinv. cbn [fst] in Hinv. rewrite <- Hinv.
  apply call_pure_absorb_input; [discriminate|exact HH|exact HY|].
  rewrite call_pure_stream by auto.
  apply wf_bytes_lxor; [exact Hd|now apply keystream_wf].
Qed.

(** ** One call of [gcm_encrypt] or [gcm_decrypt] *)

(** What holds of a context and the statics between calls: the cipher
    writes blocks, the three blocks of the context are blocks, the two
    bit counts fit in 64 bits, and the cache is coherent with the hash
    key of the context. *)
Definition context_wf (c : gcm_context) : Prop :=
  cipher_wf (raw_cipher c) /\ wf_block (key c) /\ wf_block (hash c)
  /\ wf_block (ctr c) /\ wf_lengths (len c).

Definition state_ok (context : ptr) (c : gcm_context) (g : gcm_statics)
    : Prop :=
  context_wf c /\ statics_for (key_addr context) (key c) g.

Lemma demo_session_cipher : raw_cipher (fst demo_session) = xor_cipher.
Proof. reflexivity. Qed.

Lemma demo_session_hash : hash (fst demo_session) = zero_block.
Proof. vm_compute. reflexivity. Qed.

Lemma demo_session_counter : ctr (fst demo_session) = hex_block 1.
Proof. vm_compute. reflexivity. Qed.

Lemma demo_session_ok : state_ok 0 (fst demo_session) (snd demo_session).
Proof.
  split; [|exact demo_session_statics].
  split; [|split; [exact demo_session_key|split; [|split]]].
  - rewrite demo_session_cipher. exact cipher_wf_xor.
  - rewrite demo_session_hash. exact wf_zero_block.
  - rewrite demo_session_counter. apply wf_hex_block.
  - exact demo_session_lengths.
Qed.

Lemma wf_demo_bytes : wf_bytes (demo_block ++ [1; 2; 3]).
Proof. repeat constructor; unfold is_byte; lia. Qed.

(** X11.  With an output buffer, [gcm_encrypt] and [gcm_decrypt] both
    write the input XORed with the key stream: the encryptions of the
    counter blocks that follow the current one, one per 16 bytes, the
    last one used only as far as the input reaches.  The output is as
    long as the input. *)
Theorem gcm_data_keystream (context : ptr) (c : gcm_context) (src : list Z)
    (dec : bool) (g : gcm_statics) :
  cipher_wf (raw_cipher c) ->
  statics_for (key_addr context) (key c) g ->
  let out := snd (fst (run_call context c (mk_call dec src true) g)) in
  out = zip_with Z.lxor src
          (keystream (raw_cipher c) (raw_ctx c) (ctr c)
             (count_blocks (length src)))
  /\ length out = length src.
Proof.
  intros Hc Hg out.
  destruct (run_call_pure context c (mk_call dec src true) g Hg)
    as (g' & Hrun & _).
  unfold out. rewrite Hrun. cbn [fst snd call_src].
  assert (Hout : snd (call_pure (call_mode (mk_call dec src true)) c src)
                 = zip_with Z.lxor src
                     (keystream (raw_cipher c) (raw_ctx c) (ctr c)
                        (count_blocks (length src)))).
  { apply call_pure_stream; [exact Hc|now destruct dec]. }
  rewrite Hout. split; [reflexivity|].
  rewrite length_zip_with, keystream_length by exact Hc.
  pose proof (count_blocks_bound (length src)). lia.
Qed.

Lemma gcm_data_keystream_witness :
  let out := snd (fst (run_call 0 (fst demo_session)
                         (mk_call true (demo_block ++ [1; 2; 3]) true)
                         (snd demo_session))) in
  out = zip_with Z.lxor (demo_block ++ [1; 2; 3])
          (keystream (raw_cipher (fst demo_session))
             (raw_ctx (fst demo_session)) (ctr (fst demo_session))
             (count_blocks (length (demo_block ++ [1; 2; 3]))))
  /\ length out = length (demo_block ++ [1; 2; 3]).
Proof.
  apply (gcm_data_keystream 0 (fst demo_session) (demo_block ++ [1; 2; 3])
           true (snd demo_session)).
  - apply demo_session_ok.
  - apply demo_session_ok.
Defined.

(** X12.  Every call absorbs into the hash, block by block and with the
    last block padded with zeros, the bytes [gcm_process] finds behind
    its [hash] pointer.  For [gcm_encrypt] these are the bytes written,
    or the input when there is no output buffer.  For [gcm_decrypt] they
    are the input, the ciphertext, when the output buffer is null or a
    buffer of its own; when the call decrypts in place they are the bytes
    just written, the plaintext. *)
Theorem gcm_call_hash (context : ptr) (c : gcm_context) (src : list Z)
    (dst : dst_ptr) (g : gcm_statics) :
  state_ok context c g -> wf_bytes src ->
  let e := gcm_encrypt context c src dst (length src) g in
  let d := gcm_decrypt context c src dst (length src) g in
  hash (fst (fst e))
  = absorb (key c) (hash c) (if dst_given dst then snd (fst e) else src)
  /\ hash (fst (fst d))
     = absorb (key c) (hash c)
         (match dst with dst_src => snd (fst d) | _ => src end).
Proof.
  intros [(Hc & HH & HY & _) Hg] Hsrc e d.
  destruct (gcm_encrypt_pure context c src dst g Hg) as (g1 & He & _).
  destruct (gcm_decrypt_pure context c src dst g Hg) as (g2 & Hd & _).
  unfold e, d. rewrite He, Hd. cbn [fst snd].
  destruct dst; cbn [crypt_mode dst_given]; split;
    solve [ apply call_pure_absorb_input; auto; discriminate
          | now apply call_pure_absorb_output ].
Qed.

Lemma gcm_call_hash_witness :
  let src := demo_block ++ [1; 2; 3] in
  let e := gcm_encrypt 0 (fst demo_session) src dst_src (length src)
             (snd demo_session) in
  let d := gcm_decrypt 0 (fst demo_session) src dst_src (length src)
             (snd demo_session) in
  hash (fst (fst e))
  = absorb (key (fst demo_session)) (hash (fst demo_session))
      (if dst_given dst_src then snd (fst e) else src)
  /\ hash (fst (fst d))
     = absorb (key (fst demo_session)) (hash (fst demo_session))
         (match dst_src with dst_src => snd (fst d) | _ => src end).
Proof.
  exact (gcm_call_hash 0 (fst demo_session) (demo_block ++ [1; 2; 3])
           dst_src (snd demo_session) demo_session_ok wf_demo_bytes).
Defined.

Lemma u64_add_size_t (x a : Z) : u64 (x + size_t a) = (x + a) mod 2 ^ 64.
Proof. unfold u64, size_t. now rewrite Z.add_mod_idemp_r by lia. Qed.

(** X13.  A call with an output buffer advances the counter by one for
    every 16 bytes, or part of 16 bytes, of input and adds eight times
    the length, modulo 2^64, to the data bit count; a call without one
    leaves the counter alone, writes nothing, and adds to the bit count
    of the additional data instead.  The hash key and the cipher are not
    touched. *)
Theorem gcm_call_counts (context : ptr) (c : gcm_context) (cl : gcm_call)
    (g : gcm_statics) :
  wf_block (ctr c) -> statics_for (key_addr context) (key c) g ->
  let r := run_call context c cl g in
  let c' := fst (fst r) in
  let n := length (call_src cl) in
  ctr c' = (if call_dst cl
            then gcm_count (ctr c) (Z.of_nat (count_blocks n))
            else ctr c)
  /\ len c' = (if call_dst cl
               then mk_lengths (add (len c))
                      ((data (len c) + Z.of_nat n * 8) mod 2 ^ 64)
               else mk_lengths ((add (len c) + Z.of_nat n * 8) mod 2 ^ 64)
                      (data (len c)))
  /\ key c' = key c /\ raw_cipher c' = raw_cipher c
  /\ raw_ctx c' = raw_ctx c
  /\ (call_dst cl = false -> snd (fst r) = []).
Proof.
  intros Hy Hg r c' n.
  destruct (run_call_pure context c cl g Hg) as (g' & Hrun & _).
  unfold c', r. rewrite Hrun. cbn [fst snd].
  pose proof (call_pure_ctr (call_mode cl) c (call_src cl) Hy) as Hctr.
  pose proof (call_pure_len (call_mode cl) c (call_src cl)) as Hlen.
  pose proof (call_pure_key (call_mode cl) c (call_src cl)) as (Hk & Hc & Hx).
  rewrite Hctr, Hlen. unfold call_mode, add_length, n in *.
  destruct (call_dst cl); [destruct (call_decrypt cl)|];
    cbn [mode_dst mode_src]; rewrite u64_add_size_t;
    repeat split; auto; try discriminate.
  intros _. apply call_pure_aad_out.
Qed.

Lemma gcm_call_counts_witness :
  let r := run_call 0 (fst demo_session)
             (mk_call false (demo_block ++ [1; 2; 3]) true)
             (snd demo_session) in
  ctr (fst (fst r)) = gcm_count (ctr (fst demo_session)) 2
  /\ len (fst (fst r)) = mk_lengths 0 152.
Proof.
  pose proof (gcm_call_counts 0 (fst demo_session)
                (mk_call false (demo_block ++ [1; 2; 3]) true)
                (snd demo_session)
                ltac:(apply demo_session_ok) ltac:(apply demo_session_ok))
    as H.
  cbv zeta in H. destruct H as (Hctr & Hlen & _).
  split; [exact Hctr|]. rewrite Hlen. vm_compute. reflexivity.
Defined.

(** X14.  A call of length zero changes nothing: the context and the
    statics come back as they were and nothing is written, whatever the
    buffer arguments. *)
Theorem gcm_call_empty (context : ptr) (c : gcm_context) (src : list Z)
    (dst : dst_ptr) (g : gcm_statics) :
  wf_lengths (len c) ->
  gcm_encrypt context c src dst 0 g = (c, [], g)
  /\ gcm_decrypt context c src dst 0 g = (c, [], g).
Proof.
  intros [Ha Hd].
  assert (Hproc : forall s b h,
            gcm_process context c s b h 0 g = (c, [], g)).
  { intros s b h. rewrite gcm_process_unfold. cbn [gcm_process_loop].
    f_equal. f_equal. unfold add_length, size_t, u64.
    change (Z.of_nat 0 * 8) with 0. rewrite Zmod_0_l, !Z.add_0_r.
    rewrite !Z.mod_small by assumption.
    destruct c as [h0 [a d] y k rc rx]. now destruct s. }
  unfold gcm_encrypt, gcm_decrypt.
  destruct dst; cbn [dst_given]; rewrite !Hproc; auto.
Qed.

Lemma gcm_call_empty_witness :
  gcm_encrypt 0 (fst demo_session) [1; 2; 3] dst_buffer 0 (snd demo_session)
  = (fst demo_session, [], snd demo_session)
  /\ gcm_decrypt 0 (fst demo_session) [1; 2; 3] dst_buffer 0
       (snd demo_session)
     = (fst demo_session, [], snd demo_session).
Proof.
  apply (gcm_call_empty 0 (fst demo_session) [1; 2; 3] dst_buffer
           (snd demo_session)).
  exact demo_session_lengths.
Defined.

(** X15.  The state between calls is an invariant of [gcm_encrypt] and
    [gcm_decrypt]: given bytes, a call leaves the blocks of the context
    well formed, the bit counts within 64 bits and the cache coherent
    with the hash key, and the bytes it writes are bytes. *)
Theorem gcm_call_state_ok (context : ptr) (c : gcm_context) (cl : gcm_call)
    (g : gcm_statics) :
  state_ok context c g -> wf_bytes (call_src cl) ->
  let r := run_call context c cl g in
  state_ok context (fst (fst r)) (snd r) /\ wf_bytes (snd (fst r)).
Proof.
  intros [(Hc & HH & HY & Hy & Hl) Hg] Hsrc r.
  destruct (run_call_pure context c cl g Hg) as (g' & Hrun & Hg' & Hk).
  unfold r. rewrite Hrun. cbn [fst snd].
  pose proof (call_pure_ctr (call_mode cl) c (call_src cl) Hy) as Hctr.
  pose proof (call_pure_len (call_mode cl) c (call_src cl)) as Hlen.
  pose proof (call_pure_key (call_mode cl) c (call_src cl)) as (_ & Hc' & _).
  pose proof (call_pure_wf (call_mode cl) c (call_src cl) Hc HH HY Hsrc)
    as HY'.
  split; [split; [|now rewrite Hk]|].
  - split; [now rewrite Hc'|]. split; [now rewrite Hk|].
    split; [exact HY'|]. split.
    + rewrite Hctr. destruct (mode_dst _); [now apply gcm_count_wf|exact Hy].
    + rewrite Hlen. now apply wf_lengths_add_length.
  - destruct (mode_dst (call_mode cl)) eqn:Hm.
    + rewrite call_pure_stream by assumption.
      apply wf_bytes_lxor; [exact Hsrc|now apply keystream_wf].
    + assert (Hmode : call_mode cl = mode_aad).
      { unfold call_mode in *.
        destruct (call_dst cl); [destruct (call_decrypt cl)|];
          try discriminate; reflexivity. }
      rewrite Hmode, call_pure_aad_out. constructor.
Qed.

Lemma gcm_call_state_ok_witness :
  let r := run_call 0 (fst demo_session)
             (mk_call true (demo_block ++ [1; 2; 3]) true)
             (snd demo_session) in
  state_ok 0 (fst (fst r)) (snd r) /\ wf_bytes (snd (fst r)).
Proof.
  apply (gcm_call_state_ok 0 (fst demo_session)
           (mk_call true (demo_block ++ [1; 2; 3]) true) (snd demo_session)).
  - exact demo_session_ok.
  - exact wf_demo_bytes.
Defined.

(** X16.  The result of a call does not depend on who owns the cache:
    with the tables of this context's key already in place, or with the
    cache left by a context at another address, the context and the
    output are the same. *)
Theorem gcm_call_cache (context : ptr) (c : gcm_context) (cl : gcm_call)
    (g g' : gcm_statics) :
  statics_for (key_addr context) (key c) g ->
  statics_for (key_addr context) (key c) g' ->
  fst (run_call context c cl g) = fst (run_call context c cl g').
Proof.
  intros Hg Hg'.
  destruct (run_call_pure context c cl g Hg) as (g1 & -> & _).
  destruct (run_call_pure context c cl g' Hg') as (g2 & -> & _).
  reflexivity.
Qed.

Lemma gcm_call_cache_witness :
  fst (run_call 0 (fst demo_session)
         (mk_call false (demo_block ++ [1; 2; 3]) true) (snd demo_session))
  = fst (run_call 0 (fst demo_session)
           (mk_call false (demo_block ++ [1; 2; 3]) true)
           (gcm_cache 1000 demo_B gcm_statics_bss)).
Proof.
  apply (gcm_call_cache 0 (fst demo_session)
           (mk_call false (demo_block ++ [1; 2; 3]) true) (snd demo_session)
           (gcm_cache 1000 demo_B gcm_statics_bss)).
  - exact demo_session_statics.
  - split; [apply gcm_cache_wf, statics_wf_bss|].
    intros Hk. vm_compute in Hk. discriminate Hk.
Defined.

(** ** Set-up and tag *)

Lemma state_ok_setiv (context : ptr) (c : gcm_context) (iv : list Z)
    (g : gcm_statics) :
  cipher_wf (raw_cipher c) -> wf_block (key c) ->
  statics_for (key_addr context) (key c) g -> wf_bytes iv ->
  let r := gcm_setiv context c iv (length iv) g in
  state_ok context (fst r) (snd r).
Proof.
  intros Hc HH Hg Hiv r.
  destruct (gcm_setiv_pure context c iv g Hg) as (g' & Hs & Hg' & Hk & Hc' & _).
  unfold r. rewrite Hs. cbn [fst snd].
  destruct (setiv_pure_frame c iv) as (Hl & Hh & _).
  split; [|now rewrite Hk].
  split; [now rewrite Hc'|]. split; [now rewrite Hk|].
  split; [rewrite Hh; exact wf_zero_block|].
  split; [now apply setiv_pure_ctr_wf|].
  rewrite Hl. unfold wf_lengths, zero_lengths. cbn [add data]. lia.
Qed.

(** X17.  A successful [gcm_setkey], from any statics whose tables have
    256 entries with entry 0 zero, establishes the state between calls,
    and [gcm_setiv] with any vector of bytes establishes it again. *)
Theorem gcm_setup_state_ok (context : ptr) (k iv : list Z)
    (cipher : cipher_algorithm) (g : gcm_statics) :
  cipher_wf cipher -> statics_wf g -> fst (cipher_setkey cipher k) = 0 ->
  wf_bytes iv ->
  let s1 := gcm_setkey context k cipher g in
  let s2 := gcm_setiv context (snd (fst s1)) iv (length iv) (snd s1) in
  state_ok context (snd (fst s1)) (snd s1)
  /\ state_ok context (fst s2) (snd s2).
Proof.
  intros Hc Hg Hrc Hiv s1 s2.
  destruct (gcm_setkey_pure context k cipher g Hg) as (g1 & Hs1 & Hg1).
  assert (Hpure : snd (setkey_pure k cipher)
                  = mk_context zero_block zero_lengths initial_counter
                      (cipher_encrypt cipher (snd (cipher_setkey cipher k))
                         zero_block)
                      cipher (snd (cipher_setkey cipher k))
                  /\ fst (setkey_pure k cipher) = 0).
  { unfold setkey_pure. destruct (cipher_setkey cipher k) as [rc rctx].
    cbn [fst snd] in *. subst rc. now split. }
  destruct Hpure as [Hctx Hrc'].
  specialize (Hg1 Hrc').
  assert (Hok : state_ok context (snd (fst s1)) (snd s1)).
  { unfold s1. rewrite Hs1. cbn [fst snd]. split; [|exact Hg1].
    rewrite Hctx. cbn [raw_cipher key hash ctr len].
    split; [exact Hc|]. split; [apply Hc|].
    split; [exact wf_zero_block|]. split.
    - split; [reflexivity|]. repeat constructor; unfold is_byte; lia.
    - unfold wf_lengths, zero_lengths. cbn [len add data]. lia. }
  split; [exact Hok|].
  destruct Hok as [(Hc1 & HH1 & _) Hst].
  now apply state_ok_setiv.
Qed.

Lemma gcm_setup_state_ok_witness :
  let s1 := gcm_setkey 0 demo_key xor_cipher gcm_statics_bss in
  let s2 := gcm_setiv 0 (snd (fst s1)) [1; 2; 3] (length [1; 2; 3])
              (snd s1) in
  state_ok 0 (snd (fst s1)) (snd s1) /\ state_ok 0 (fst s2) (snd s2).
Proof.
  apply (gcm_setup_state_ok 0 demo_key [1; 2; 3] xor_cipher gcm_statics_bss).
  - exact cipher_wf_xor.
  - exact statics_wf_bss.
  - reflexivity.
  - repeat constructor; unfold is_byte; lia.
Defined.

(** X18.  From the state between calls, [gcm_setiv] with any vector of
    bytes leads to that state again, and its result does not depend on
    the hash, the bit counts or the counter block the context held
    before: two contexts with the same hash key and cipher are left
    equal. *)
Theorem gcm_setiv_restart (context : ptr) (c c0 : gcm_context)
    (iv : list Z) (g : gcm_statics) :
  state_ok context c g -> wf_bytes iv ->
  key c0 = key c -> raw_cipher c0 = raw_cipher c -> raw_ctx c0 = raw_ctx c ->
  let r := gcm_setiv context c iv (length iv) g in
  state_ok context (fst r) (snd r)
  /\ gcm_setiv context c0 iv (length iv) g = r
  /\ hash (fst r) = zero_block /\ len (fst r) = zero_lengths.
Proof.
  intros [(Hc & HH & _) Hg] Hiv Hk0 Hc0 Hx0 r.
  split; [now apply state_ok_setiv|]. split.
  - unfold r, gcm_setiv. now rewrite Hk0, Hc0, Hx0.
  - destruct (gcm_setiv_pure context c iv g Hg) as (g' & Hs & _).
    unfold r. rewrite Hs. cbn [fst].
    destruct (setiv_pure_frame c iv) as (Hl & Hh & _). now split.
Qed.

Lemma gcm_setiv_restart_witness :
  let c1 := fst (fst (run_call 0 (fst demo_session)
                        (mk_call false (demo_block ++ [1; 2; 3]) true)
                        (snd demo_session))) in
  gcm_setiv 0 c1 [4; 5; 6] (length [4; 5; 6]) (snd demo_session)
  = gcm_setiv 0 (fst demo_session) [4; 5; 6] (length [4; 5; 6])
      (snd demo_session).
Proof.
  intros c1.
  assert (Hiv : wf_bytes [4; 5; 6])
    by (repeat constructor; unfold is_byte; lia).
  pose proof (call_pure_key mode_encrypt (fst demo_session)
                (demo_block ++ [1; 2; 3])) as (Hk & Hc & Hx).
  destruct (run_call_pure 0 (fst demo_session)
              (mk_call false (demo_block ++ [1; 2; 3]) true)
              (snd demo_session) demo_session_statics) as (g' & Hrun & _).
  assert (Hc1 : c1 = fst (call_pure mode_encrypt (fst demo_session)
                            (demo_block ++ [1; 2; 3])))
    by (unfold c1; now rewrite Hrun).
  pose proof (gcm_setiv_restart 0 (fst demo_session) c1 [4; 5; 6]
                (snd demo_session) demo_session_ok Hiv
                ltac:(now rewrite Hc1) ltac:(now rewrite Hc1)
                ltac:(now rewrite Hc1)) as H.
  cbv zeta in H. exact (proj1 (proj2 H)).
Defined.

Lemma gcm_xor_block_zero (E : gcm_block) :
  wf_block E -> gcm_xor_block E zero_block = E.
Proof.
  intros HE.
  destruct (wf_gcm_xor_block E zero_block HE wf_zero_block) as [Hl Hw].
  pose proof HE as [HlE HwE].
  apply be_decode_inj; [exact Hw|exact HwE|congruence|].
  rewrite be_decode_gcm_xor_block by auto using wf_zero_block.
  apply Z.lxor_0_l.
Qed.

(** X19.  From the state between calls [gcm_tag] writes a block of
    sixteen bytes and leaves that state in place.  When nothing has been
    processed since [gcm_setiv] (hash and bit counts zero), the tag is
    the encryption of the counter block alone. *)
Theorem gcm_tag_state_ok (context : ptr) (c : gcm_context) (g : gcm_statics) :
  state_ok context c g ->
  let r := gcm_tag context c g in
  wf_block (fst (fst r))
  /\ state_ok context (snd (fst r)) (snd r)
  /\ (hash c = zero_block -> len c = zero_lengths ->
      fst (fst r) = cipher_encrypt (raw_cipher c) (raw_ctx c) (ctr c)).
Proof.
  intros [Hwf Hg] r. pose proof Hwf as (Hc & HH & HY & Hy & Hl).
  destruct (gcm_tag_pure context c g Hg) as (g' & Htag & Hg').
  unfold r. rewrite Htag. cbn [fst snd].
  split; [|split; [now split|]].
  - unfold tag_pure, hash_pure.
    apply wf_gcm_xor_block; [apply Hc|].
    apply gcm_mult_H_wf; [exact HH|].
    apply wf_gcm_xor_block; [exact HY|apply wf_lengths_block].
  - intros Hh0 Hl0. unfold tag_pure, hash_pure. rewrite Hh0, Hl0.
    change (lengths_block zero_lengths) with zero_block.
    change (gcm_xor_block zero_block zero_block) with zero_block.
    rewrite gcm_mult_H_zero by exact HH.
    change (tag_offset zero_lengths) with 0.
    rewrite gcm_count_zero by (auto; reflexivity).
    apply gcm_xor_block_zero, Hc.
Qed.

Lemma gcm_tag_state_ok_witness :
  fst (fst (gcm_tag 0 (fst demo_session) (snd demo_session)))
  = cipher_encrypt (raw_cipher (fst demo_session))
      (raw_ctx (fst demo_session)) (ctr (fst demo_session)).
Proof.
  pose proof (gcm_tag_state_ok 0 (fst demo_session) (snd demo_session)
                demo_session_ok) as H.
  cbv zeta in H. destruct H as (_ & _ & H).
  apply H; [exact demo_session_hash|reflexivity].
Defined.

Lemma u32_shift (B C off : Z) :
  u32 (C + off) = 0 -> u32 (B + off) = u32 (B - C).
Proof.
  unfold u32. intros H.
  replace (B + off) with (B - C + (C + off)) by lia.
  now rewrite <- Z.add_mod_idemp_r, H, Z.add_0_r by lia.
Qed.

(** X20.  The counter block [gcm_tag] encrypts, after any calls on a
    context whose data bit count started at zero, is the counter block
    the calls started from advanced by the number of increments made
    less the number of 16-byte blocks, whole or partial, that the data
    bytes of all calls together fill.  It is the starting block when the
    two numbers agree; after two data calls of one byte each it is the
    starting block plus one. *)
Theorem gcm_tag_counter (context : ptr) (c : gcm_context)
    (cls : list gcm_call) (g : gcm_statics) :
  state_ok context c g -> data (len c) = 0 ->
  let c' := fst (fst (run_calls context c cls g)) in
  gcm_count (ctr c') (tag_offset (len c'))
  = gcm_count (ctr c)
      (Z.of_nat (calls_blocks cls)
       - Z.of_nat (count_blocks (calls_data_bytes cls))).
Proof.
  intros [(_ & _ & _ & Hy & _) Hg] Hd c'.
  destruct (run_calls_pure context c cls g Hg) as (g' & Hrun & _).
  unfold c'. rewrite Hrun. cbn [fst].
  destruct (calls_pure_ctr c cls Hy) as [Hctr Hlen].
  rewrite Hd, Z.add_0_l in Hlen.
  rewrite Hctr, gcm_count_count by apply Hy.
  apply gcm_count_mod, u32_shift.
  now apply tag_offset_cancel.
Qed.

Lemma gcm_tag_counter_witness :
  let c' := fst (fst (run_calls 0 (fst demo_session)
                        [mk_call false [7] true; mk_call false [8] true]
                        (snd demo_session))) in
  gcm_count (ctr c') (tag_offset (len c'))
  = gcm_count (ctr (fst demo_session)) 1.
Proof.
  exact (gcm_tag_counter 0 (fst demo_session)
           [mk_call false [7] true; mk_call false [8] true]
           (snd demo_session) demo_session_ok eq_refl).
Defined.

(** X21.  The loop of [gcm_process] is over after one iteration for
    every 16 bytes, or part of 16 bytes, of input: any larger bound on
    the number of iterations gives the same result. *)
Theorem gcm_process_loop_iterations (fuel : nat) (context : ptr)
    (c : gcm_context) (src : option (list Z)) (dst : bool) (hsrc : hash_ptr)
    (n : nat) (out : list Z) (g : gcm_statics) :
  (count_blocks n <= fuel)%nat ->
  gcm_process_loop fuel context c src dst hsrc n out g
  = gcm_process_loop (count_blocks n) context c src dst hsrc n out g.
Proof.
  revert c src hsrc n out g.
  induction fuel as [|fuel IH]; intros c src hsrc n out g Hfuel.
  - assert (count_blocks n = 0%nat) as -> by lia. reflexivity.
  - destruct (Nat.eq_dec n 0%nat) as [->|Hn]; [reflexivity|].
    rewrite (count_blocks_step n) in Hfuel |- * by lia.
    cbn [gcm_process_loop]. destruct (Nat.eqb_spec n 0) as [|_]; [lia|].
    destruct (gcm_process_frag context c src dst hsrc _ g) as [[c' w] g'].
    apply IH. lia.
Qed.

Lemma gcm_process_loop_iterations_witness :
  gcm_process_loop 19 0 (fst demo_session) (Some (demo_block ++ [1; 2; 3]))
    true hash_is_dst 19 [] (snd demo_session)
  = gcm_process_loop (count_blocks 19) 0 (fst demo_session)
      (Some (demo_block ++ [1; 2; 3])) true hash_is_dst 19 []
      (snd demo_session).
Proof.
  apply (gcm_process_loop_iterations 19 0 (fst demo_session)
           (Some (demo_block ++ [1; 2; 3])) true hash_is_dst 19 []
           (snd demo_session)).
  vm_compute. lia.
Defined.

(** X22.  When the cipher refuses the key, [gcm_setkey] returns the
    cipher's code with the context zeroed, hash key and counter block
    included, and the statics as they were: no tables are built. *)
Theorem gcm_setkey_failure (context : ptr) (k : list Z)
    (cipher : cipher_algorithm) (g : gcm_statics) :
  fst (cipher_setkey cipher k) <> 0 ->
  gcm_setkey context k cipher g
  = (fst (cipher_setkey cipher k),
     mk_context zero_block zero_lengths zero_block zero_block cipher
       (snd (cipher_setkey cipher k)),
     g).
Proof.
  intros Hrc. unfold gcm_setkey.
  destruct (cipher_setkey cipher k) as [rc rctx]. cbn [fst snd] in *.
  destruct (Z.eqb_spec rc 0) as [|_]; [contradiction|]. reflexivity.
Qed.

Lemma gcm_setkey_failure_witness :
  gcm_setkey 0 [1; 2; 3] xor_cipher (snd demo_session)
  = (22,
     mk_context zero_block zero_lengths zero_block zero_block xor_cipher
       [1; 2; 3],
     snd demo_session).
Proof.
  apply (gcm_setkey_failure 0 [1; 2; 3] xor_cipher (snd demo_session)).
  cbn. discriminate.
Defined.

(** X23.  [gcm_xor] writes [len] bytes, and XORing its output with the
    same second operand gives the first operand back. *)
Theorem gcm_xor_involutive (src1 src2 : list Z) (len : nat) :
  (len <= length src1)%nat -> (len <= length src2)%nat ->
  length (gcm_xor src1 src2 len) = len
  /\ gcm_xor (gcm_xor src1 src2 len) src2 len = take len src1.
Proof.
  intros H1 H2. split; [now apply gcm_xor_length|].
  unfold gcm_xor.
  rewrite (firstn_all2 (zip_with _ _ _))
    by (rewrite length_zip_with, !length_take; lia).
  apply zip_with_lxor_cancel. rewrite !length_take. lia.
Qed.

Lemma gcm_xor_involutive_witness :
  length (gcm_xor demo_B demo_H 5) = 5%nat
  /\ gcm_xor (gcm_xor demo_B demo_H 5) demo_H 5 = take 5 demo_B.
Proof. apply (gcm_xor_involutive demo_B demo_H 5); vm_compute; lia. Defined.

(** X24.  Encrypting what [gcm_decrypt] wrote into a buffer of its own,
    from the state the decryption started in, writes the input of the
    decryption and leaves the context the decryption left: both
    directions hash the same ciphertext and end with the same counter
    block and bit counts. *)
Theorem gcm_decrypt_encrypt (context : ptr) (c : gcm_context) (src : list Z)
    (dst : dst_ptr) (g : gcm_statics) :
  cipher_wf (raw_cipher c) -> statics_for (key_addr context) (key c) g ->
  dst_given dst = true ->
  let d := gcm_decrypt context c src dst_buffer (length src) g in
  fst (gcm_encrypt context c (snd (fst d)) dst (length (snd (fst d))) g)
  = (fst (fst d), src).
Proof.
  intros Hc Hg Hdst d.
  destruct (gcm_decrypt_pure context c src dst_buffer g Hg) as (g1 & Hd & _).
  unfold d. rewrite Hd. cbn [fst snd crypt_mode].
  set (p := snd (call_pure mode_decrypt c src)).
  destruct (gcm_encrypt_pure context c p dst g Hg) as (g2 & He & _).
  rewrite He. cbn [fst snd].
  replace (crypt_mode false dst) with mode_encrypt
    by (destruct dst; [discriminate| |]; reflexivity).
  set (ks := keystream (raw_cipher c) (raw_ctx c) (ctr c)
               (count_blocks (length src))).
  assert (Hks : (length src <= length ks)%nat).
  { unfold ks. rewrite keystream_length by exact Hc.
    apply count_blocks_bound. }
  assert (Hp : p = zip_with Z.lxor src ks)
    by (unfold p; now rewrite call_pure_stream).
  assert (Hlp : length p = length src)
    by (rewrite Hp, length_zip_with; lia).
  assert (Hout : snd (call_pure mode_encrypt c p) = src).
  { rewrite call_pure_stream by auto. rewrite Hlp. fold ks.
    rewrite Hp. now apply zip_with_lxor_cancel. }
  pose proof (call_pure_inverse c p Hc) as Hinv. cbv zeta in Hinv.
  rewrite Hout in Hinv. rewrite Hout. f_equal.
  apply (f_equal fst) in Hinv. cbn [fst] in Hinv. now rewrite <- Hinv.
Qed.

Lemma gcm_decrypt_encrypt_witness :
  let d := gcm_decrypt 0 (fst demo_session) (demo_block ++ [1; 2; 3])
             dst_buffer (length (demo_block ++ [1; 2; 3]))
             (snd demo_session) in
  fst (gcm_encrypt 0 (fst demo_session) (snd (fst d)) dst_src
         (length (snd (fst d))) (snd demo_session))
  = (fst (fst d), demo_block ++ [1; 2; 3]).
Proof.
  apply (gcm_decrypt_encrypt 0 (fst demo_session) (demo_block ++ [1; 2; 3])
           dst_src (snd demo_session)).
  - apply demo_session_ok.
  - exact demo_session_statics.
  - reflexivity.
Defined.

(** X28.  [gcm_decrypt] in place does exactly what [gcm_encrypt] does on
    the same buffer.  It writes the bytes that decryption into a buffer
    of its own writes and leaves the same counter block, bit counts, hash
    key and cipher, so only the hash can differ between decrypting in
    place and decrypting into a buffer of its own. *)
Theorem gcm_decrypt_in_place (context : ptr) (c : gcm_context)
    (src : list Z) (n : nat) (g : gcm_statics) :
  state_ok context c g -> n = length src ->
  let p := gcm_decrypt context c src dst_src n g in
  let d := gcm_decrypt context c src dst_buffer n g in
  p = gcm_encrypt context c src dst_src n g
  /\ snd (fst p) = snd (fst d)
  /\ set_hash (fst (fst p)) (hash (fst (fst d))) = fst (fst d).
Proof.
  intros [(Hc & _ & _ & Hy & _) Hg] -> p d.
  split; [reflexivity|].
  destruct (gcm_decrypt_pure context c src dst_src g Hg) as (g1 & Hp & _).
  destruct (gcm_decrypt_pure context c src dst_buffer g Hg) as (g2 & Hd & _).
  unfold p, d. rewrite Hp, Hd. cbn [fst snd crypt_mode].
  split; [now rewrite !call_pure_stream|].
  pose proof (call_pure_ctr mode_encrypt c src Hy) as Hce.
  pose proof (call_pure_ctr mode_decrypt c src Hy) as Hcd.
  pose proof (call_pure_len mode_encrypt c src) as Hle.
  pose proof (call_pure_len mode_decrypt c src) as Hld.
  pose proof (call_pure_key mode_encrypt c src) as (Hke & Hre & Hxe).
  pose proof (call_pure_key mode_decrypt c src) as (Hkd & Hrd & Hxd).
  destruct (fst (call_pure mode_encrypt c src)) as [h1 l1 y1 k1 r1 x1].
  destruct (fst (call_pure mode_decrypt c src)) as [h2 l2 y2 k2 r2 x2].
  cbn [hash len ctr key raw_cipher raw_ctx mode_dst mode_src] in *.
  unfold set_hash. cbn [len ctr key raw_cipher raw_ctx]. congruence.
Qed.

Lemma gcm_decrypt_in_place_witness :
  let src := demo_block ++ [1; 2; 3] in
  let p := gcm_decrypt 0 (fst demo_session) src dst_src 19
             (snd demo_session) in
  let d := gcm_decrypt 0 (fst demo_session) src dst_buffer 19
             (snd demo_session) in
  p = gcm_encrypt 0 (fst demo_session) src dst_src 19 (snd demo_session)
  /\ snd (fst p) = snd (fst d)
  /\ set_hash (fst (fst p)) (hash (fst (fst d))) = fst (fst d).
Proof.
  exact (gcm_decrypt_in_place 0 (fst demo_session) (demo_block ++ [1; 2; 3])
           19 (snd demo_session) demo_session_ok eq_refl).
Defined.

(** ** Edge cases *)

(** X25.  With an empty initialisation vector (length zero) [gcm_setiv]
    leaves the all-zero block as the counter block, whatever the key. *)
Theorem gcm_setiv_empty (context : ptr) (c : gcm_context) (g : gcm_statics) :
  wf_block (key c) -> statics_for (key_addr context) (key c) g ->
  ctr (fst (gcm_setiv context c [] (length (@nil Z)) g)) = zero_block.
Proof.
  intros HH Hg.
  destruct (gcm_setiv_pure context c [] g Hg) as (g' & Hs & _).
  rewrite Hs. cbn [fst].
  destruct (setiv_pure_hashed c [] ltac:(discriminate) ltac:(constructor) HH)
    as [Hctr _].
  rewrite Hctr. unfold GHASH.
  change ([] ++ zero_pad [] ++ cpu_to_be64 0
            ++ cpu_to_be64 (Z.of_nat (length (@nil Z)) * 8))
    with zero_block.
  rewrite blocks_one by reflexivity. cbn [fold_left]. unfold ghash_step.
  change (gcm_xor_block zero_block zero_block) with zero_block.
  now apply gcm_mult_H_zero.
Qed.

Lemma gcm_setiv_empty_witness :
  ctr (fst (gcm_setiv 0 (fst demo_session) [] (length (@nil Z))
              (snd demo_session)))
  = zero_block.
Proof.
  apply (gcm_setiv_empty 0 (fst demo_session) (snd demo_session)).
  - exact demo_session_key.
  - exact demo_session_statics.
Defined.

(** X26.  In the bit order of [gcm_multiply_key] the block 0x80, 0, ...,
    0 is the polynomial 1 and the block 0x40, 0, ..., 0 the polynomial x:
    the product of the hash key and the first is the key itself, and the
    product of the key and the second is what [gcm_multiply_x] makes of
    the key. *)
Theorem gcm_multiply_key_unit (keyp : ptr) (H : gcm_block) (g : gcm_statics) :
  statics_for keyp H g -> wf_block H ->
  fst (gcm_multiply_key keyp H (0x80 :: replicate 15 0) g) = H
  /\ fst (gcm_multiply_key keyp H (0x40 :: replicate 15 0) g)
     = gcm_multiply_x H.
Proof.
  intros Hg HH.
  assert (Hwf : forall b, is_byte b -> wf_block (b :: replicate 15 0)).
  { intros b Hb. split; [reflexivity|].
    constructor; [exact Hb|].
    apply Forall_replicate. unfold is_byte. lia. }
  assert (H80 : wf_block (0x80 :: replicate 15 0))
    by (apply Hwf; unfold is_byte; lia).
  assert (H40 : wf_block (0x40 :: replicate 15 0))
    by (apply Hwf; unfold is_byte; lia).
  destruct (gcm_multiply_key_for keyp H (0x80 :: replicate 15 0) g Hg)
    as [-> _].
  destruct (gcm_multiply_key_for keyp H (0x40 :: replicate 15 0) g Hg)
    as [-> _].
  destruct (gcm_mult_H_wf H _ HH H80) as [Hl1 Hw1].
  destruct (gcm_mult_H_wf H _ HH H40) as [Hl2 Hw2].
  destruct (gcm_multiply_x_spec H HH) as [[Hlx Hwx] Hvx].
  pose proof HH as [HlH HwH].
  split.
  - apply be_decode_inj; [exact Hw1|exact HwH|congruence|].
    rewrite gcm_mult_H_Z by assumption.
    change (block_bits (0x80 :: replicate 15 0))
      with (true :: replicate 127 false).
    rewrite product_Z_cons, product_Z_zeros. apply Z.lxor_0_l.
  - apply be_decode_inj; [exact Hw2|exact Hwx|congruence|].
    rewrite gcm_mult_H_Z, Hvx by assumption.
    change (block_bits (0x40 :: replicate 15 0))
      with (false :: true :: replicate 126 false).
    rewrite !product_Z_cons, product_Z_zeros.
    change (mul_x_Z 0) with 0. now rewrite Z.lxor_0_l, Z.lxor_0_r.
Qed.

Lemma gcm_multiply_key_unit_witness :
  fst (gcm_multiply_key 48 demo_H (0x80 :: replicate 15 0) gcm_statics_bss)
  = demo_H
  /\ fst (gcm_multiply_key 48 demo_H (0x40 :: replicate 15 0)
            gcm_statics_bss)
     = gcm_multiply_x demo_H.
Proof.
  apply (gcm_multiply_key_unit 48 demo_H gcm_statics_bss).
  - split; [exact statics_wf_bss|]. intros Hk. discriminate Hk.
  - apply wf_hex_block.
Defined.
